(** * BarracudaMailer: the session/connection orchestration layer

    A shallow embedding of the classes of [src/modules.js] that decide which
    outbound server is used for a send, enforce the per-server rate limits and
    retry under failure: [AsyncMutex], [LRUCache], [RotationManager] and the
    rate-limit, health, selection and send parts of [SMTPManager], with its
    status report, its pool of transports and the format check of a
    recipient address.

    Conventions of the embedding.
    - A JavaScript number that holds a count, an index or a time in
      milliseconds is a [Z]; [Math.floor(n * 0.1)] on an integer [n] is
      [n / 10] (the two agree for every [n] up to about 2^52).
    - A JavaScript array is a [list]; [a[i]] is the lookup [a !! i], which is
      [None] where JavaScript yields [undefined].
    - A [Map] and an object used as a dictionary are association lists in
      insertion order, since the code depends on that order
      ([Map.prototype.keys], [Object.entries]).
    - [Date.now()] is an explicit argument [now].
    - An [async] method is the function of its body; what concurrent calls and
      timers do at a suspension point is an explicit, arbitrary state
      transformer where a property depends on it. *)

From stdpp Require Import list strings sorting.
From Stdlib Require Import ZArith Lia Ascii DecimalString DecimalNat.

(** * JavaScript built-ins used by the code *)

Module JS.

(** [Array.prototype.slice(0, n)]: a negative [n] counts from the end. *)
Definition slice0 {A} (n : Z) (l : list A) : list A :=
  if (n <? 0)%Z
  then take (Z.to_nat (Z.max 0 (Z.of_nat (length l) + n))) l
  else take (Z.to_nat n) l.

(** [Array.prototype.sort(cmp)] is a stable sort: [a] stays before [b]
    unless [cmp(a, b) > 0]. *)
Fixpoint insert_by {A} (cmp : A → A → Z) (x : A) (l : list A) : list A :=
  match l with
  | [] => [x]
  | y :: l' => if (cmp x y <=? 0)%Z then x :: l else y :: insert_by cmp x l'
  end.

Definition sort_by {A} (cmp : A → A → Z) (l : list A) : list A :=
  foldr (insert_by cmp) [] l.

(** An object used as a dictionary from strings to numbers: its own
    properties in creation order.  A lookup [o[k]] in the code also sees
    the properties that every object inherits from [Object.prototype]:
    [obj_get] and [obj_set] below are [o[k]] and [o[k] = v] for the keys
    that are not [inherited], and the properties about an object used in
    this way are stated for such keys. *)
Definition object := list (string * Z).

(** The names of the properties of [Object.prototype]. *)
Definition inherited (k : string) : bool :=
  bool_decide
    (k ∈ ["constructor"; "__defineGetter__"; "__defineSetter__";
          "hasOwnProperty"; "__lookupGetter__"; "__lookupSetter__";
          "isPrototypeOf"; "propertyIsEnumerable"; "toString"; "valueOf";
          "__proto__"; "toLocaleString"]).

(** An association list that stands for a map of usage counts: one entry
    for each key, as in an object, and each count at least 1. *)
Definition count_map (o : list (string * Z)) : Prop :=
  NoDup o.*1 ∧ Forall (λ kv, (1 ≤ kv.2)%Z) o.

Fixpoint obj_get (k : string) (o : object) : option Z :=
  match o with
  | [] => None
  | (k', v) :: o' => if String.eqb k' k then Some v else obj_get k o'
  end.

(** [o[k] = v]: an existing property keeps its place. *)
Fixpoint obj_set (k : string) (v : Z) (o : object) : object :=
  match o with
  | [] => [(k, v)]
  | (k', v') :: o' =>
      if String.eqb k' k then (k', v) :: o' else (k', v') :: obj_set k v o'
  end.

Definition digit_of (a : ascii) : option N :=
  let n := N_of_ascii a in
  if ((48 <=? n) && (n <=? 57))%N then Some (n - 48)%N else None.

Fixpoint parse_digits (s : string) (acc : N) : option N :=
  match s with
  | EmptyString => Some acc
  | String a s' => d ← digit_of a; parse_digits s' (10 * acc + d)%N
  end.

(** A property key is an array index when it is the canonical decimal form
    of an integer below [2^32 - 1]. *)
Definition array_index (s : string) : option N :=
  match s with
  | EmptyString => None
  | String a s' =>
      if Ascii.eqb a "0"%char
      then (match s' with EmptyString => Some 0%N | _ => None end)
      else n ← parse_digits s 0; if (n <? 2 ^ 32 - 1)%N then Some n else None
  end.

(** [Object.entries(o)]: array-index keys in ascending order, then the
    other keys in creation order. *)
Definition entries (o : object) : list (string * Z) :=
  let indexed :=
    omap (λ kv, i ← array_index kv.1; Some (i, kv)) o in
  let named :=
    List.filter (λ kv, negb (bool_decide (is_Some (array_index kv.1)))) o in
  (sort_by (λ a b, Z.of_N a.1 - Z.of_N b.1)%Z indexed).*2 ++ named.

Definition keys (o : object) : list string := (entries o).*1.

(** [Object.fromEntries(l)] *)
Definition fromEntries (l : list (string * Z)) : object :=
  foldl (λ o kv, obj_set kv.1 kv.2 o) [] l.

End JS.

(** * AsyncMutex (modules.js, lines 21-60) *)

Module AsyncMutex.

(** A queue entry is the object [{resolve, reject, timeoutId}] that one call
    of [acquire] allocates.  Its identity is the number of the call that
    created it; a call that finds the mutex free settles its promise at
    once, and is identified in the same way. *)
Definition entry := nat.

Record t := mk {
  locked : bool;
  queue : list entry;   (* front of the queue first *)
  calls : nat           (* number of [acquire] calls so far *)
}.

(** What happens to the promise of an [acquire] call. *)
Inductive settled :=
  | Resolved (e : entry)
  | Rejected (e : entry).

Definition settled_entry (s : settled) : entry :=
  match s with Resolved e | Rejected e => e end.

Definition constructor : t := mk false [] 0.

Definition acquire (m : t) : t * list settled :=
  let e := calls m in
  if negb (locked m)
  then (mk true (queue m) (S e), [Resolved e])
  else (mk (locked m) (queue m ++ [e]) (S e), []).

(** [this.queue.indexOf(entry)]: the first position, [None] for [-1]. *)
Fixpoint indexOf (q : list entry) (e : entry) : option nat :=
  match q with
  | [] => None
  | x :: q' => if Nat.eqb x e then Some 0%nat else S <$> indexOf q' e
  end.

(** The callback of the timer that [acquire] arms for a queued entry.
    [splice(index, 1)] is the list [delete]. *)
Definition timeout_fires (e : entry) (m : t) : t * list settled :=
  match indexOf (queue m) e with
  | Some index => (mk (locked m) (delete index (queue m)) (calls m), [Rejected e])
  | None => (m, [])
  end.

Definition release (m : t) : t * list settled :=
  match queue m with
  | next :: rest => (mk (locked m) rest (calls m), [Resolved next])
  | [] => (mk false [] (calls m), [])
  end.

Inductive op :=
  | Acquire
  | Release
  | TimeoutFires (e : entry).

Definition step (m : t) (o : op) : t * list settled :=
  match o with
  | Acquire => acquire m
  | Release => release m
  | TimeoutFires e => timeout_fires e m
  end.

(** The mutex after a sequence of operations, and the promises settled on
    the way, oldest first. *)
Fixpoint run (ops : list op) (m : t) : t * list settled :=
  match ops with
  | [] => (m, [])
  | o :: ops' =>
      let '(m1, s1) := step m o in
      let '(m2, s2) := run ops' m1 in
      (m2, s1 ++ s2)
  end.

(** The invariant of a mutex together with the promises it has settled. *)
Record inv (m : t) (tr : list settled) : Prop := {
  inv_locked : queue m ≠ [] → locked m = true;
  inv_sorted : StronglySorted lt (queue m);
  inv_bound : Forall (λ e, (e < calls m)%nat) (queue m);
  inv_settled_bound : Forall (λ s, (settled_entry s < calls m)%nat) tr;
  inv_settled_out : Forall (λ s, settled_entry s ∉ queue m) tr;
  inv_once : NoDup (settled_entry <$> tr)
}.

(** The entries granted the lock, in the order of their grants. *)
Definition resolved (tr : list settled) : list entry :=
  omap (λ s, match s with Resolved e => Some e | Rejected _ => None end) tr.

Definition releases (ops : list op) : nat :=
  length (List.filter (λ o, match o with Release => true | _ => false end) ops).

(** A sequence of operations in which [release] is only called by a holder
    of the lock: at each [Release] fewer releases than grants have happened.
    [grants] and [done] count the grants and releases before [ops]. *)
Fixpoint disciplined (grants done : nat) (m : t) (ops : list op) : Prop :=
  match ops with
  | [] => True
  | o :: ops' =>
      (match o with Release => (done < grants)%nat | _ => True end)
      ∧ disciplined (grants + length (resolved (step m o).2))%nat
          (done + releases [o])%nat (step m o).1 ops'
  end.

(** Grants so far are older than every waiting entry, and were made in
    the order of the calls. *)
Record granted_in_order (m : t) (tr : list settled) : Prop := {
  gio_inv : inv m tr;
  gio_sorted : StronglySorted lt (resolved tr);
  gio_before_queue :
    Forall (λ e, Forall (λ q, (e < q)%nat) (queue m)) (resolved tr)
}.

End AsyncMutex.

(** * LRUCache (modules.js, lines 63-119) *)

Module LRUCache.
Section LRUCache.
Context {K V : Type} `{EqDecision K}.

(** The [Map] of the cache: entries in insertion order, keys distinct. *)
Definition Map_get (k : K) (m : list (K * V)) : option V :=
  snd <$> List.find (λ kv, bool_decide (kv.1 = k)) m.

Definition Map_has (k : K) (m : list (K * V)) : bool :=
  bool_decide (is_Some (Map_get k m)).

Definition Map_delete (k : K) (m : list (K * V)) : list (K * V) :=
  List.filter (λ kv, negb (bool_decide (kv.1 = k))) m.

(** [m.set(k, v)]: a present key keeps its place, a new one goes last. *)
Fixpoint Map_set (k : K) (v : V) (m : list (K * V)) : list (K * V) :=
  match m with
  | [] => [(k, v)]
  | (k', v') :: m' =>
      if bool_decide (k' = k) then (k', v) :: m' else (k', v') :: Map_set k v m'
  end.

Record t := mk {
  maxSize : Z;
  cache : list (K * V);
  _accessCount : Z;
  _cleanupThreshold : Z
}.

Definition constructor (maxSize : Z) : t :=
  mk maxSize [] 0 (maxSize / 10).

Definition get (key : K) (c : t) : option V * t :=
  match Map_get key (cache c) with
  | Some value =>
      let n := (_accessCount c + 1)%Z in
      let cache' :=
        if (Z.rem n 5 =? 0)%Z
        then Map_set key value (Map_delete key (cache c))
        else cache c in
      (Some value, mk (maxSize c) cache' n (_cleanupThreshold c))
  | None => (None, c)
  end.

Definition _batchCleanup (c : t) : t :=
  let deleteCount := _cleanupThreshold c in
  let keysToDelete := JS.slice0 deleteCount (cache c).*1 in
  mk (maxSize c)
     (foldl (λ m key, Map_delete key m) (cache c) keysToDelete)
     (_accessCount c) (_cleanupThreshold c).

Definition set (key : K) (value : V) (c : t) : t :=
  let c1 :=
    if Map_has key (cache c)
    then mk (maxSize c) (Map_delete key (cache c))
            (_accessCount c) (_cleanupThreshold c)
    else if (Z.of_nat (length (cache c)) >=? maxSize c)%Z
         then _batchCleanup c
         else c in
  mk (maxSize c1) (Map_set key value (cache c1))
     (_accessCount c1) (_cleanupThreshold c1).

Definition has (key : K) (c : t) : bool := Map_has key (cache c).

Definition delete (key : K) (c : t) : bool * t :=
  (Map_has key (cache c),
   mk (maxSize c) (Map_delete key (cache c))
      (_accessCount c) (_cleanupThreshold c)).

Definition clear (c : t) : t :=
  mk (maxSize c) [] 0 (_cleanupThreshold c).

Definition size (c : t) : Z := Z.of_nat (length (cache c)).

Inductive op :=
  | Get (key : K)
  | Set_ (key : K) (value : V)
  | Delete (key : K)
  | Clear.

Definition step (c : t) (o : op) : t :=
  match o with
  | Get key => (get key c).2
  | Set_ key value => set key value c
  | Delete key => (delete key c).2
  | Clear => clear c
  end.

Definition run (ops : list op) (c : t) : t := foldl step c ops.

(** What a cache of capacity [C] keeps true when [C] is at least 10. *)
Definition bounded (C : Z) (c : t) : Prop :=
  maxSize c = C ∧ _cleanupThreshold c = (C / 10)%Z ∧ (size c ≤ C)%Z.

End LRUCache.
Arguments t : clear implicits.
Arguments op : clear implicits.
End LRUCache.

(** * RotationManager (modules.js, lines 122-340) *)

Module RotationManager.

Inductive strategy := sequential | random | disabled.

Section RotationManager.
(** The items are the non-null values the constructor keeps;
    [stringify item] is the key of the usage statistics, the item itself
    when it is a string and [JSON.stringify(item)] otherwise. *)
Context {A : Type} (stringify : A → string).

Record t := mk {
  items : list A;
  currentIndex : Z;
  usageStats : JS.object;
  rotationStrategy : strategy
}.

Definition constructor (items : list A) (s : strategy) : t :=
  mk items 0 [] s.

(** The update of the usage statistics for the selected key
    (lines 248-270). *)
Definition updateUsageStats (key : string) (stats : JS.object) : JS.object :=
  let stats1 := JS.obj_set key (default 0 (JS.obj_get key stats) + 1)%Z stats in
  if (1000 <? length (JS.keys stats1))%nat
  then
    let topItems :=
      JS.slice0 100 (JS.sort_by (λ a b, b.2 - a.2)%Z (JS.entries stats1)) in
    let stats2 := JS.fromEntries topItems in
    match JS.obj_get key stats2 with
    | Some n => if (n =? 0)%Z then JS.obj_set key 1 stats2 else stats2
    | None => JS.obj_set key 1 stats2
    end
  else stats1.

(** [getNext(forceStrategy)].  [randomIndex] is the value of
    [Math.floor(Math.random() * this.items.length)] should the strategy ask
    for it.  The result is [None] when the call throws
    (no items available), and the state is then unchanged. *)
Definition getNext (forceStrategy : option strategy) (randomIndex : nat)
    (r : t) : option A * t :=
  match items r with
  | [] => (None, r)
  | first :: _ =>
      let strategy := default (rotationStrategy r) forceStrategy in
      let len := Z.of_nat (length (items r)) in
      let '(item, index) :=
        match strategy with
        | disabled => (items r !! 0%nat, currentIndex r)
        | random => (items r !! randomIndex, currentIndex r)
        | sequential =>
            let current :=
              if (len <=? currentIndex r)%Z || (currentIndex r <? 0)%Z
              then 0%Z else currentIndex r in
            let safeIndex := Z.max 0 (Z.min current (len - 1)) in
            (items r !! Z.to_nat safeIndex, Z.rem (safeIndex + 1) len)
        end in
      (* an undefined item is replaced by the first one *)
      let item := default first item in
      (Some item,
       mk (items r) index (updateUsageStats (stringify item) (usageStats r))
          (rotationStrategy r))
  end.

Definition reset (r : t) : t :=
  mk (items r) 0 [] (rotationStrategy r).

(** [getCurrentItem()], the [nextItem] of [getStatus()]: [None] stands for
    both [null] (no items) and [undefined] (no item at the index). *)
Definition getCurrentItem (r : t) : option A :=
  match items r with
  | [] => None
  | _ :: _ =>
      if (currentIndex r <? 0)%Z then None
      else items r !! Z.to_nat (currentIndex r)
  end.

(** [setItems(newItems)]; [None] is a missing or [null] argument. *)
Definition setItems (newItems : option (list A)) (r : t) : t :=
  mk (default [] newItems) 0 (usageStats r) (rotationStrategy r).

(** The number of selections of [key] among the results of a run. *)
Definition selections (key : string) (xs : list (option A)) : nat :=
  length (List.filter (λ o, bool_decide (stringify <$> o = Some key)) xs).

(** The statistics of a manager with the items [l] count the selections
    [seen]. *)
Record counted (l : list A) (seen : list (option A)) (r : t) : Prop := {
  counted_items : items r = l;
  counted_NoDup : NoDup (usageStats r).*1;
  counted_keys : (usageStats r).*1 ⊆ stringify <$> l;
  counted_counts : ∀ key,
    default 0%Z (JS.obj_get key (usageStats r)) = Z.of_nat (selections key seen)
}.

(** [n] consecutive calls of [getNext()] with the manager's own strategy:
    the items returned, in order, and the final state. *)
Fixpoint getNext_times (n : nat) (rnd : nat → nat) (r : t) : list (option A) * t :=
  match n with
  | O => ([], r)
  | S n' =>
      let '(x, r1) := getNext None (rnd 0%nat) r in
      let '(xs, r2) := getNext_times n' (λ k, rnd (S k)) r1 in
      (x :: xs, r2)
  end.

End RotationManager.
Arguments t : clear implicits.
End RotationManager.

(** * SMTPManager (modules.js, lines 850-2400) *)

Module SMTPManager.
Local Open Scope Z_scope.

(** The settings of [config.smtp] that the manager reads. *)
Record Config := mkConfig {
  rotation_enabled : bool;
  rotation_strategy : RotationManager.strategy;
  rateLimit_enabled : bool;
  rateLimit_emailsPerMinute : option Z;
  rateLimit_cooldownPeriod : option Z
}.

(** [x || d] for a number [x] that may be [undefined]. *)
Definition or_default (x : option Z) (d : Z) : Z :=
  match x with
  | Some v => if v =? 0 then d else v
  | None => d
  end.

(** [this.options], after the defaults of the constructor. *)
Record Options := mkOptions {
  maxRetries : Z;
  retryDelay : Z
}.

Record ServerConfig := mkServer {
  host : string;
  priority : Z
}.

Record Health := mkHealth {
  consecutive_failures : Z;
  last_success : option Z;
  last_failure : option Z;
  is_healthy : bool;
  response_times : list Z
}.

Record RateLimit := mkRateLimit {
  smtpIndex : nat;
  emailsSentInCurrentMinute : Z;
  currentMinuteStart : Z;
  isLimited : bool;
  isCoolingDown : bool;
  cooldownStartTime : option Z;
  cooldownDuration : Z;
  emailsPerMinute : Z;
  lastEmailTime : Z;
  consecutiveLimitHits : Z
}.

(** The manager: the tables that selection, rate limiting and health
    tracking read and write.  [cooldownTimers] holds the servers with an
    armed cooldown timer. *)
Record t := mk {
  config : Config;
  options : Options;
  smtpConfigs : list ServerConfig;
  rotationEnabled : bool;
  emailCounter : Z;
  currentSmtpIndex : Z;
  smtpHealth : list Health;
  perSmtpRateLimiting : list RateLimit;
  cooldownTimers : list nat
}.

Definition with_health (hs : list Health) (m : t) : t :=
  mk (config m) (options m) (smtpConfigs m) (rotationEnabled m) (emailCounter m)
     (currentSmtpIndex m) hs (perSmtpRateLimiting m) (cooldownTimers m).

Definition with_rateLimiting (rs : list RateLimit) (m : t) : t :=
  mk (config m) (options m) (smtpConfigs m) (rotationEnabled m) (emailCounter m)
     (currentSmtpIndex m) (smtpHealth m) rs (cooldownTimers m).

Definition with_cooldownTimers (ts : list nat) (m : t) : t :=
  mk (config m) (options m) (smtpConfigs m) (rotationEnabled m) (emailCounter m)
     (currentSmtpIndex m) (smtpHealth m) (perSmtpRateLimiting m) ts.

Definition with_currentSmtpIndex (i : Z) (m : t) : t :=
  mk (config m) (options m) (smtpConfigs m) (rotationEnabled m) (emailCounter m)
     i (smtpHealth m) (perSmtpRateLimiting m) (cooldownTimers m).

Definition with_emailCounter (n : Z) (m : t) : t :=
  mk (config m) (options m) (smtpConfigs m) (rotationEnabled m) n
     (currentSmtpIndex m) (smtpHealth m) (perSmtpRateLimiting m)
     (cooldownTimers m).

Definition with_emailsSent (n : Z) (r : RateLimit) : RateLimit :=
  mkRateLimit (smtpIndex r) n (currentMinuteStart r) (isLimited r)
    (isCoolingDown r) (cooldownStartTime r) (cooldownDuration r)
    (emailsPerMinute r) (lastEmailTime r) (consecutiveLimitHits r).

(** ** Construction (lines 971-1064) *)

Definition initialHealth : Health := mkHealth 0 None None true [].

Definition initialRateLimit (cfg : Config) (now : Z) (index : nat) : RateLimit :=
  mkRateLimit index 0 now false false None
    (or_default (rateLimit_cooldownPeriod cfg) 60 * 1000)
    (or_default (rateLimit_emailsPerMinute cfg) 30)
    0 0.

(** [None] when the constructor throws: no server is configured.  With
    rotation off the tables have the single row of server 0.
    [maxRetries] and [retryDelay] are the properties of the argument
    [options], [None] when it has none: the trailing [...options] of the
    code keeps a value that is given, also 0. *)
Definition constructor (cfg : Config) (maxRetries retryDelay : option Z)
    (servers : list ServerConfig) (now : Z) : option t :=
  match servers with
  | [] => None
  | _ :: _ =>
      let n := if rotation_enabled cfg then length servers else 1%nat in
      Some (mk cfg
              (mkOptions (default 3 maxRetries) (default 1000 retryDelay))
              servers (rotation_enabled cfg) 0 0
              (replicate n initialHealth)
              (initialRateLimit cfg now <$> seq 0 n)
              [])
  end.

(** ** Health (lines 1319-1344)

    A method that indexes a table with a server it does not hold throws a
    [TypeError] before it changes anything: the result is then [None]. *)

Definition markSmtpHealthy (i : nat) (responseTime : option Z) (now : Z)
    (m : t) : option t :=
  health ← smtpHealth m !! i;
  let times :=
    match responseTime with
    | Some rt =>
        if rt =? 0 then response_times health
        else
          let pushed := response_times health ++ [rt] in
          if (10 <? length pushed)%nat then drop 1 pushed else pushed
    | None => response_times health
    end in
  Some (with_health
          (<[i := mkHealth 0 (Some now) (last_failure health) true times]>
             (smtpHealth m)) m).

Definition markSmtpUnhealthy (i : nat) (now : Z) (m : t) : option t :=
  health ← smtpHealth m !! i;
  let failures := consecutive_failures health + 1 in
  Some (with_health
          (<[i := mkHealth failures (last_success health) (Some now)
                    (if failures >=? 3 then false else is_healthy health)
                    (response_times health)]>
             (smtpHealth m)) m).

(** ** Rate limiting (lines 1410-1515, 2295-2305) *)

Definition _resetRateLimitCounter (i : nat) (now : Z) (m : t) : option t :=
  rateLimit ← perSmtpRateLimiting m !! i;
  Some (with_rateLimiting
          (<[i := mkRateLimit (smtpIndex rateLimit) 0 now false
                    (isCoolingDown rateLimit) (cooldownStartTime rateLimit)
                    (cooldownDuration rateLimit) (emailsPerMinute rateLimit)
                    (lastEmailTime rateLimit) (consecutiveLimitHits rateLimit)]>
             (perSmtpRateLimiting m)) m).

Definition _putSMTPIntoCooldown (i : nat) (now : Z) (m : t) : option t :=
  rateLimit ← perSmtpRateLimiting m !! i;
  Some (with_cooldownTimers
          (if bool_decide (i ∈ cooldownTimers m) then cooldownTimers m
           else cooldownTimers m ++ [i])
          (with_rateLimiting
             (<[i := mkRateLimit (smtpIndex rateLimit)
                       (emailsSentInCurrentMinute rateLimit)
                       (currentMinuteStart rateLimit) (isLimited rateLimit)
                       true (Some now)
                       (cooldownDuration rateLimit) (emailsPerMinute rateLimit)
                       (lastEmailTime rateLimit)
                       (consecutiveLimitHits rateLimit)]>
                (perSmtpRateLimiting m)) m)).

(** Also the callback of the cooldown timer. *)
Definition _removeSMTPFromCooldown (i : nat) (now : Z) (m : t) : option t :=
  rateLimit ← perSmtpRateLimiting m !! i;
  let m1 :=
    with_cooldownTimers
      (List.filter (λ j, negb (Nat.eqb j i)) (cooldownTimers m))
      (with_rateLimiting
         (<[i := mkRateLimit (smtpIndex rateLimit)
                   (emailsSentInCurrentMinute rateLimit)
                   (currentMinuteStart rateLimit) false
                   false None
                   (cooldownDuration rateLimit) (emailsPerMinute rateLimit)
                   (lastEmailTime rateLimit)
                   (consecutiveLimitHits rateLimit)]>
            (perSmtpRateLimiting m)) m) in
  _resetRateLimitCounter i now m1.

Inductive Reason := cooldown | rate_limit_exceeded.

Record CheckResult := mkCheck {
  allowed : bool;
  waitTime : Z;
  reason : option Reason
}.

Definition checkSmtpRateLimit (i : nat) (now : Z) (m : t)
    : option (CheckResult * t) :=
  if negb (rateLimit_enabled (config m)) then Some (mkCheck true 0 None, m)
  else
    rateLimit ← perSmtpRateLimiting m !! i;
    if isCoolingDown rateLimit then
      let cooldownTimeLeft :=
        default 0 (cooldownStartTime rateLimit)
        + cooldownDuration rateLimit - now in
      if cooldownTimeLeft <=? 0
      then m1 ← _removeSMTPFromCooldown i now m; Some (mkCheck true 0 None, m1)
      else Some (mkCheck false cooldownTimeLeft (Some cooldown), m)
    else
      let timeElapsed := now - currentMinuteStart rateLimit in
      m1 ← (if timeElapsed >=? 60000
            then _resetRateLimitCounter i now m else Some m);
      rateLimit1 ← perSmtpRateLimiting m1 !! i;
      if emailsSentInCurrentMinute rateLimit1 >=? emailsPerMinute rateLimit1
      then
        m2 ← _putSMTPIntoCooldown i now m1;
        Some (mkCheck false (cooldownDuration rateLimit1)
                (Some rate_limit_exceeded), m2)
      else Some (mkCheck true 0 None, m1).

Definition incrementSmtpRateLimit (i : nat) (now : Z) (m : t) : option t :=
  if negb (rateLimit_enabled (config m)) then Some m
  else
    rateLimit ← perSmtpRateLimiting m !! i;
    let currentCount := emailsSentInCurrentMinute rateLimit in
    let limit :=
      if emailsPerMinute rateLimit =? 0 then 30 else emailsPerMinute rateLimit in
    Some (with_rateLimiting
            (<[i := mkRateLimit (smtpIndex rateLimit)
                      (Z.min (currentCount + 1) limit)
                      (currentMinuteStart rateLimit) (isLimited rateLimit)
                      (isCoolingDown rateLimit) (cooldownStartTime rateLimit)
                      (cooldownDuration rateLimit) (emailsPerMinute rateLimit)
                      now (consecutiveLimitHits rateLimit)]>
               (perSmtpRateLimiting m)) m).

(** The rollback in the [catch] block of [sendMail] (lines 2295-2305). *)
Definition rollbackSmtpRateLimit (i : nat) (m : t) : option t :=
  if negb (rateLimit_enabled (config m)) then Some m
  else
    rateLimit ← perSmtpRateLimiting m !! i;
    if emailsSentInCurrentMinute rateLimit >? 0
    then Some (with_rateLimiting
                 (<[i := with_emailsSent
                           (emailsSentInCurrentMinute rateLimit - 1) rateLimit]>
                    (perSmtpRateLimiting m)) m)
    else Some m.

(** The operations that write a window counter, as steps of a manager. *)
Inductive RateOp :=
  | Increment (i : nat) (now : Z)
  | Rollback (i : nat)
  | ResetCounter (i : nat) (now : Z)
  | CheckLimit (i : nat) (now : Z)
  | CooldownTimerFires (i : nat) (now : Z).

Definition rate_step (m : t) (o : RateOp) : t :=
  default m
    match o with
    | Increment i now => incrementSmtpRateLimit i now m
    | Rollback i => rollbackSmtpRateLimit i m
    | ResetCounter i now => _resetRateLimitCounter i now m
    | CheckLimit i now => snd <$> checkSmtpRateLimit i now m
    | CooldownTimerFires i now => _removeSMTPFromCooldown i now m
    end.

Definition rate_run (ops : list RateOp) (m : t) : t := foldl rate_step m ops.

Inductive HealthOp :=
  | Success (i : nat) (responseTime : option Z) (now : Z)
  | Failure (i : nat) (now : Z).

Definition health_step (m : t) (o : HealthOp) : t :=
  default m
    match o with
    | Success i rt now => markSmtpHealthy i rt now m
    | Failure i now => markSmtpUnhealthy i now m
    end.

Definition health_run (ops : list HealthOp) (m : t) : t :=
  foldl health_step m ops.

(** The invariant of a row of the rate-limit table: the ceiling is a
    positive number of messages and the window counter lies between 0 and
    the ceiling. *)
Definition within_ceiling (r : RateLimit) : Prop :=
  1 ≤ emailsPerMinute r
  ∧ 0 ≤ emailsSentInCurrentMinute r ≤ emailsPerMinute r.

(** The invariant of a row of the health table: a server is healthy
    exactly while it has fewer than 3 consecutive failures. *)
Definition health_consistent (h : Health) : Prop :=
  0 ≤ consecutive_failures h
  ∧ (is_healthy h = true ↔ consecutive_failures h < 3).

(** The window counter of server [i]. *)
Definition counter (i : nat) (m : t) : option Z :=
  emailsSentInCurrentMinute <$> perSmtpRateLimiting m !! i.

(** ** Server selection (lines 1078-1138, 1253-1298) *)

(** An element of the candidate list: [{config, index, health, rateLimit}]. *)
Record Candidate := mkCandidate {
  smtp_config : ServerConfig;
  smtp_index : nat;
  smtp_health : Health;
  smtp_rateLimit : RateLimit
}.

(** [None] when a table has no row for a listed server (the code then
    throws a [TypeError] on the missing row). *)
Definition allSmtps (m : t) : option (list Candidate) :=
  let smtpIndices :=
    if rotationEnabled m then seq 0 (length (smtpConfigs m)) else [0%nat] in
  mapM (λ index,
          c ← smtpConfigs m !! index;
          h ← smtpHealth m !! index;
          r ← perSmtpRateLimiting m !! index;
          Some (mkCandidate c index h r))
       smtpIndices.

(** The comparator passed to [sort]. *)
Definition compareSmtps (a b : Candidate) : Z :=
  if negb (priority (smtp_config a) =? priority (smtp_config b))
  then priority (smtp_config b) - priority (smtp_config a)
  else consecutive_failures (smtp_health a)
       - consecutive_failures (smtp_health b).

Definition isAvailable (cfg : Config) (s : Candidate) : bool :=
  if negb (rateLimit_enabled cfg) then is_healthy (smtp_health s)
  else is_healthy (smtp_health s)
       && negb (isCoolingDown (smtp_rateLimit s))
       && negb (isLimited (smtp_rateLimit s)).

Definition getAvailableSMTPs (m : t) : option (list Candidate) :=
  all ← allSmtps m;
  let availableSmtps := List.filter (isAvailable (config m)) all in
  let healthySmtps := List.filter (λ s, is_healthy (smtp_health s)) all in
  match availableSmtps, healthySmtps with
  | [], _ :: _ => Some healthySmtps
  | _, _ => Some (JS.sort_by compareSmtps availableSmtps)
  end.

Inductive ErrorCode :=
  | EAUTH | ECONNREFUSED | ENOTFOUND | ETIMEDOUT | ECONNECTION | ESOCKET.

(** What a method throws.  [Undefined] is the value of an unassigned
    variable; [OutOfFuel] is not an error of the code but the end of the
    fuel of [sendMail_fuel] below, which [sendMail] never reaches. *)
Inductive Error :=
  | InvalidAddress
  | NoAvailableServers
  | RateLimitExceeded (retryCount : Z)
  | TransportError (code : ErrorCode)
  | TypeError
  | Undefined
  | OutOfFuel.

Inductive result (A : Type) :=
  | Ok (a : A)
  | Throw (e : Error).
Arguments Ok {A} a.
Arguments Throw {A} e.

(** [getNextSmtpIndex()]; [randomIndex] is
    [Math.floor(Math.random() * availableSmtps.length)].  The closing
    validation of the selected index always succeeds (the index is taken
    from the list it is looked up in) and is left out. *)
Definition getNextSmtpIndex (randomIndex : nat) (m : t) : result nat * t :=
  match getAvailableSMTPs m with
  | None => (Throw TypeError, m)
  | Some [] => (Throw NoAvailableServers, m)
  | Some ((first :: _) as availableSmtps) =>
      let len := Z.of_nat (length availableSmtps) in
      match rotation_strategy (config m) with
      | RotationManager.random =>
          (Ok (smtp_index (default first (availableSmtps !! randomIndex))), m)
      | _ =>
          let currentIndex := currentSmtpIndex m in
          let normalizedIndex := Z.rem currentIndex len in
          match (if normalizedIndex <? 0 then None
                 else availableSmtps !! Z.to_nat normalizedIndex) with
          | None => (Ok (smtp_index first), with_currentSmtpIndex 1 m)
          | Some selectedSmtp =>
              (Ok (smtp_index selectedSmtp),
               with_currentSmtpIndex (Z.rem (currentIndex + 1) len) m)
          end
      end
  end.

(** [getNextSMTP()], as the index of the server it builds. *)
Definition getNextSMTP (randomIndex : nat) (m : t) : result nat * t :=
  if negb (rotationEnabled m) || (length (smtpConfigs m) =? 1)%nat
  then (Ok 0%nat, m)
  else getNextSmtpIndex randomIndex m.

(** [n] consecutive selections *)
Fixpoint getNextSmtpIndex_times (n : nat) (m : t) : list (result nat) * t :=
  match n with
  | O => ([], m)
  | S n' =>
      let '(x, m1) := getNextSmtpIndex 0 m in
      let '(xs, m2) := getNextSmtpIndex_times n' m1 in
      (x :: xs, m2)
  end.

(** ** Sending (lines 2135-2338) *)

(** The manager and the clock: what a call shares with the concurrent calls and
    the timers of the process. *)
Record World := mkWorld {
  manager : t;
  clock : Z
}.

Inductive Event :=
  | Checked (i : nat) (check : CheckResult)
  | Slept (ms : Z)
  | Incremented (i : nat)
  | Transmitted (i : nat)
  | RolledBack (i : nat).

(** A call in execution: the shared world, what the call has done so far
    (oldest first), and the number of suspension points it went through. *)
Record Exec := mkExec {
  world : World;
  log : list Event;
  awaits : nat
}.

Inductive Outcome :=
  | Delivered
  | Failed (code : ErrorCode).

(** What a call does not control: what concurrent calls and timers do to
    the world while it is suspended, what the transport answers, the random
    draws, and the format check of a recipient address. *)
Record Env := mkEnv {
  others : nat → World → World;
  transport : nat → Outcome;
  randomIndex : nat → nat;
  isValidEmail : string → bool
}.

Record MailOptions := mkMail {
  to : string
}.

Definition M (A : Type) : Type := Exec → result A * Exec.

Definition ret {A} (a : A) : M A := λ x, (Ok a, x).

Definition throw {A} (e : Error) : M A := λ x, (Throw e, x).

Definition bind {A B} (c : M A) (k : A → M B) : M B :=
  λ x, match c x with
       | (Ok a, x') => k a x'
       | (Throw e, x') => (Throw e, x')
       end.

Definition try_catch {A} (body : M A) (handler : Error → M A) : M A :=
  λ x, match body x with
       | (Ok a, x') => (Ok a, x')
       | (Throw e, x') => handler e x'
       end.

Notation "x <- c ;; k" := (bind c (λ x, k))
  (at level 100, c at next level, right associativity, only parsing).
Notation "c ;;; k" := (bind c (λ _, k))
  (at level 100, right associativity, only parsing).

Definition emit (e : Event) : M unit :=
  λ x, (Ok tt, mkExec (world x) (log x ++ [e]) (awaits x)).

Definition get_clock : M Z := λ x, (Ok (clock (world x)), x).

(** A step of the manager that throws a [TypeError] when it is [None]. *)
Definition step {A} (f : Z → t → option (A * t)) : M A :=
  λ x, match f (clock (world x)) (manager (world x)) with
       | Some (a, m') =>
           (Ok a, mkExec (mkWorld m' (clock (world x))) (log x) (awaits x))
       | None => (Throw TypeError, x)
       end.

Definition step_ (f : Z → t → option t) : M unit :=
  step (λ now m, pair tt <$> f now m).

Definition select (f : t → result nat * t) : M nat :=
  λ x, let '(r, m') := f (manager (world x)) in
       (r, mkExec (mkWorld m' (clock (world x))) (log x) (awaits x)).

Section Send.
Variable env : Env.

(** A suspension point ([await]): concurrent calls and timers run. *)
Definition suspend : M unit :=
  λ x, (Ok tt, mkExec (others env (awaits x) (world x)) (log x) (S (awaits x))).

(** [await new Promise((resolve) => setTimeout(resolve, ms))] *)
Definition sleep (ms : Z) : M unit :=
  λ x, suspend
         (mkExec (mkWorld (manager (world x)) (clock (world x) + Z.max 0 ms))
                 (log x ++ [Slept ms]) (awaits x)).

(** [await method(...)]: the caller is suspended while the method waits for
    its mutex, and once more until it is resumed with the result. *)
Definition async {A} (body : M A) : M A :=
  suspend ;;; a <- body ;; suspend ;;; ret a.

Definition getNextEmailNumber : M Z :=
  λ x, let m := manager (world x) in
       (Ok (emailCounter m + 1),
        mkExec (mkWorld (with_emailCounter (emailCounter m + 1) m)
                        (clock (world x)))
               (log x) (awaits x)).

(** [await transporter.sendMail(finalMailOptions)] *)
Definition transmit (i : nat) : M unit :=
  emit (Transmitted i) ;;;
  (λ x, match transport env (awaits x) with
        | Delivered => suspend x
        | Failed code =>
            (bind suspend (λ _, throw (TransportError code))) x
        end).

(** The second half of [sendMail] (lines 2203-2337): count the send, hand
    the message to the transport, and record the success or undo the count
    and record the failure.  The result is the server the message went
    through. *)
Definition sendMail_deliver (selectedSmtpIndex : nat) (startTime : Z) : M nat :=
  async (step_ (incrementSmtpRateLimit selectedSmtpIndex)) ;;;
  emit (Incremented selectedSmtpIndex) ;;;
  try_catch
    (transmit selectedSmtpIndex ;;;
     now <- get_clock ;;
     step_ (markSmtpHealthy selectedSmtpIndex (Some (now - startTime))) ;;;
     ret selectedSmtpIndex)
    (λ error,
       async (step_ (λ _, rollbackSmtpRateLimit selectedSmtpIndex)) ;;;
       emit (RolledBack selectedSmtpIndex) ;;;
       step_ (markSmtpUnhealthy selectedSmtpIndex) ;;;
       throw error).

(** [sendMail(mailOptions, emailNumber, threadId, retryCount)].  The
    scheduling of the background health checks, which run concurrently,
    the choice of a proxy and of a sender address, and the logging are left
    out. *)
Fixpoint sendMail_fuel (fuel : nat) (mailOptions : MailOptions)
    (emailNumber : option Z) (retryCount : Z) : M nat :=
  match fuel with
  | O => throw OutOfFuel
  | S fuel' =>
      startTime <- get_clock ;;
      if bool_decide (to mailOptions = EmptyString)
         || negb (isValidEmail env (to mailOptions))
      then throw InvalidAddress
      else
        emailNumber <- match emailNumber with
                       | Some n =>
                           if n =? 0 then getNextEmailNumber else ret n
                       | None => getNextEmailNumber
                       end ;;
        selectedSmtpIndex <-
          async (λ x, select (getNextSMTP (randomIndex env (awaits x))) x) ;;
        rateLimitCheck <-
          async (step (checkSmtpRateLimit selectedSmtpIndex)) ;;
        emit (Checked selectedSmtpIndex rateLimitCheck) ;;;
        if negb (allowed rateLimitCheck)
        then
          if retryCount >=? 5 then throw (RateLimitExceeded retryCount)
          else if waitTime rateLimitCheck >? 0
          then
            let backoffTime :=
              Z.min (waitTime rateLimitCheck * 2 ^ retryCount) 30000 in
            sleep backoffTime ;;;
            sendMail_fuel fuel' mailOptions (Some emailNumber) (retryCount + 1)
          else sendMail_deliver selectedSmtpIndex startTime
        else sendMail_deliver selectedSmtpIndex startTime
  end.

(** A call from outside starts with [retryCount = 0]; six levels of
    recursion are all the code can use. *)
Definition sendMail (mailOptions : MailOptions) : M nat :=
  sendMail_fuel 6 mailOptions None 0.

(** The loop of [sendMailWithRetry], entered at [attempt] with [n]
    iterations left. *)
Fixpoint sendMailWithRetry_loop (n : nat) (mailOptions : MailOptions)
    (attempt retries : Z) (lastError : Error) : M nat :=
  match n with
  | O => throw lastError
  | S n' =>
      try_catch (sendMail mailOptions)
        (λ error,
           (if attempt <? retries
            then
              delay <- (λ x, ret (retryDelay (options (manager (world x)))
                                  * 2 ^ (attempt - 1)) x) ;;
              sleep delay
            else ret tt) ;;;
           sendMailWithRetry_loop n' mailOptions (attempt + 1) retries error)
  end.

Definition sendMailWithRetry (mailOptions : MailOptions)
    (maxRetries_arg : option Z) : M nat :=
  λ x,
    let retries :=
      or_default maxRetries_arg (maxRetries (options (manager (world x)))) in
    sendMailWithRetry_loop (Z.to_nat retries) mailOptions 1 retries Undefined x.

End Send.

(** The number of transmissions in a log. *)
Definition transmissions (l : list Event) : nat :=
  length (List.filter (λ e, match e with Transmitted _ => true | _ => false end) l).

(** The number of rate-limit checks and of backoff sleeps in a log. *)
Definition checks (l : list Event) : nat :=
  length (List.filter (λ e, match e with Checked _ _ => true | _ => false end) l).

Definition sleeps (l : list Event) : nat :=
  length (List.filter (λ e, match e with Slept _ => true | _ => false end) l).



(** The log of [n] internal retries that start at [retryCount]: each is a
    disallowed check on the selected server followed by the sleep of the
    exponential backoff, capped at 30 seconds. *)
Fixpoint backoff_rounds (retryCount : Z) (cs : list (nat * CheckResult))
    : list Event :=
  match cs with
  | [] => []
  | (i, check) :: cs' =>
      Checked i check
      :: Slept (Z.min (waitTime check * 2 ^ retryCount) 30000)
      :: backoff_rounds (retryCount + 1) cs'
  end.

(** A call started on a world. *)
Definition start (w : World) : Exec := mkExec w [] 0.

(** ** Vocabulary of the properties *)

(** [a] may stand before [b] in a list sorted by descending priority, with
    ties broken by ascending count of consecutive failures. *)
Definition ranked_before (a b : Candidate) : Prop :=
  priority (smtp_config a) > priority (smtp_config b)
  ∨ (priority (smtp_config a) = priority (smtp_config b)
     ∧ consecutive_failures (smtp_health a)
       ≤ consecutive_failures (smtp_health b)).

(** Every row of the rate-limit table has a positive cooldown duration. *)
Definition cooldowns_positive (m : t) : Prop :=
  Forall (λ r, 0 < cooldownDuration r) (perSmtpRateLimiting m).


(** A property [I] of the manager that the steps of a send and the
    concurrent calls keep, and under which every rate-limit check has a result in
    [ok]. *)
Record stable (env : Env) (I : t → Prop) (ok : CheckResult → Prop) : Prop := {
  stable_others : ∀ n w, I (manager w) → I (manager (others env n w));
  stable_emailCounter : ∀ n m, I m → I (with_emailCounter n m);
  stable_select : ∀ rnd m, I m → I (getNextSMTP rnd m).2;
  stable_check : ∀ i now m check m',
    I m → checkSmtpRateLimit i now m = Some (check, m') → I m' ∧ ok check;
  stable_increment : ∀ i now m m',
    I m → incrementSmtpRateLimit i now m = Some m' → I m';
  stable_healthy : ∀ i rt now m m',
    I m → markSmtpHealthy i rt now m = Some m' → I m';
  stable_rollback : ∀ i m m',
    I m → rollbackSmtpRateLimit i m = Some m' → I m';
  stable_unhealthy : ∀ i now m m',
    I m → markSmtpUnhealthy i now m = Some m' → I m'
}.

(** What [sendMail_deliver] on server [i] adds to the log, with its
    result: nothing when the count itself fails; else the count and one
    transmission, followed by the rollback when the send fails. *)
Inductive delivers (i : nat) : list Event → result nat → Prop :=
  | delivers_nothing :
      delivers i [] (Throw TypeError)
  | delivers_sent :
      delivers i [Incremented i; Transmitted i] (Ok i)
  | delivers_failed code :
      delivers i [Incremented i; Transmitted i; RolledBack i]
        (Throw (TransportError code))
  | delivers_broken_table rolledBack :
      delivers i ([Incremented i; Transmitted i]
                  ++ (if rolledBack : bool then [RolledBack i] else []))
        (Throw TypeError).

(** What a call of [sendMail] at [retryCount] adds to the log, with its
    result: rounds of a disallowed check and a capped backoff sleep, one
    for each internal retry, and then the end of the last attempt. *)
Inductive sends_from (ok : CheckResult → Prop) (retryCount : Z)
    : list Event → result nat → Prop :=
  | sends_stopped e :
      e = InvalidAddress ∨ e = NoAvailableServers ∨ e = TypeError →
      sends_from ok retryCount [] (Throw e)
  | sends_retry i check events r :
      ok check →
      allowed check = false →
      retryCount < 5 →
      0 < waitTime check →
      sends_from ok (retryCount + 1) events r →
      sends_from ok retryCount
        (Checked i check
         :: Slept (Z.min (waitTime check * 2 ^ retryCount) 30000)
         :: events) r
  | sends_exhausted i check :
      ok check →
      allowed check = false →
      5 ≤ retryCount →
      sends_from ok retryCount [Checked i check]
        (Throw (RateLimitExceeded retryCount))
  | sends_delivery i check events r :
      ok check →
      allowed check = true
      ∨ (allowed check = false ∧ retryCount < 5 ∧ waitTime check ≤ 0) →
      delivers i events r →
      sends_from ok retryCount (Checked i check :: events) r.

(** ** Status (lines 2956-2980) *)

Record RateLimitStatus := mkStatus {
  status_smtpIndex : nat;
  status_emailsSent : Z;
  status_limit : Z;
  status_isCoolingDown : bool;
  status_isLimited : bool;
  cooldownTimeLeft : Z
}.

Record CoordinationStatus := mkCoordination {
  totalSmtps : nat;
  activeSmtps : nat;
  coolingSmtps : nat;
  rateLimitStatus : list RateLimitStatus
}.

Definition getCoordinationStatus (now : Z) (m : t) : CoordinationStatus :=
  mkCoordination
    (length (smtpConfigs m))
    (length (List.filter (λ r, negb (isCoolingDown r) && negb (isLimited r))
               (perSmtpRateLimiting m)))
    (length (List.filter isCoolingDown (perSmtpRateLimiting m)))
    (imap (λ i r,
             mkStatus (i + 1) (emailsSentInCurrentMinute r) (emailsPerMinute r)
               (isCoolingDown r) (isLimited r)
               (if isCoolingDown r
                then Z.max 0 (default 0 (cooldownStartTime r)
                              + cooldownDuration r - now)
                else 0))
          (perSmtpRateLimiting m)).

(** The servers with an armed cooldown timer are the servers that are
    cooling down, each with one timer; a server has a cooldown start time
    exactly while it is cooling down, and [isLimited] is never set. *)
Record timers_armed (m : t) : Prop := {
  timers_NoDup : NoDup (cooldownTimers m);
  timers_cooling : ∀ i,
    i ∈ cooldownTimers m
    ↔ ∃ r, perSmtpRateLimiting m !! i = Some r ∧ isCoolingDown r = true;
  timers_rows :
    Forall (λ r, isLimited r = false
                 ∧ (isCoolingDown r = true ↔ is_Some (cooldownStartTime r)))
      (perSmtpRateLimiting m)
}.

(** An operation that happens while server [i] is cooling down until
    [deadline]: its timer has not fired and the clock of a check on it is
    before the deadline. *)
Definition before_deadline (i : nat) (deadline : Z) (o : RateOp) : Prop :=
  match o with
  | CheckLimit j now => j = i → now < deadline
  | CooldownTimerFires j _ => j ≠ i
  | _ => True
  end.

(** At most ten response times are kept for a server. *)
Definition response_times_bounded (h : Health) : Prop :=
  (length (response_times h) ≤ 10)%nat.

(** Server [i] is cooling down since [start], for [duration]
    milliseconds. *)
Definition cooling_since (i : nat) (start duration : Z) (m : t) : Prop :=
  ∃ r, perSmtpRateLimiting m !! i = Some r
       ∧ isCoolingDown r = true
       ∧ cooldownStartTime r = Some start
       ∧ cooldownDuration r = duration.

(** The number of rollbacks in a log. *)
Definition rollbacks (l : list Event) : nat :=
  length (List.filter (λ e, match e with RolledBack _ => true | _ => false end) l).

(** Rate limiting is switched off. *)
Definition unlimited (m : t) : Prop := rateLimit_enabled (config m) = false.

(** The result of a check when rate limiting is off. *)
Definition always_allowed (check : CheckResult) : Prop :=
  check = mkCheck true 0 None.

End SMTPManager.

(** * The transport pool of SMTPManager (modules.js, lines 962-969,
      1672-2078, 2924-2950) *)

Module TransportPool.
Local Open Scope Z_scope.

(** A transport object of the mail library, with the properties the pool
    code reads and writes.  [transport_id] is the identity of the object;
    [destroyed] is [None] when the object has no such property
    ([undefined]); the time stamps are [None] until the pool writes
    them. *)
Record Transport := mkTransport {
  transport_id : nat;
  destroyed : option bool;
  readyState_ended : bool;      (* [readyState === "ended"] *)
  _createdAt : option Z;
  _lastUsed : option Z
}.

(** The pool state of the manager.  The values of the pool are transport
    objects, never [null]: the branches of the code for a missing value
    are unreachable and left out. *)
Record t := mk {
  poolingEnabled : bool;
  transportPool : option (LRUCache.t string Transport);
  connectionsCreated : Z;
  connectionsReused : Z
}.

(** The pool part of the constructor. *)
Definition constructor (poolingEnabled : bool) : t :=
  mk poolingEnabled
     (if poolingEnabled then Some (LRUCache.constructor 50) else None)
     0 0.

(** [this.poolingEnabled && this.transportPool] *)
Definition pool_in_use (s : t) : option (LRUCache.t string Transport) :=
  if poolingEnabled s then transportPool s else None.

Definition with_pool (p : LRUCache.t string Transport) (s : t) : t :=
  mk (poolingEnabled s) (Some p) (connectionsCreated s) (connectionsReused s).

(** [transport && !transport.destroyed] *)
Definition alive (transport : Transport) : bool :=
  match destroyed transport with
  | Some true => false
  | _ => true
  end.

(** The first mutex section of [createTransport] (lines 1676-1701): the
    pooled transport of the key when it is alive, moved to the end of the
    pool; a pooled transport that is destroyed is removed. *)
Definition lookupTransport (transportKey : string) (s : t)
    : option Transport * t :=
  match pool_in_use s with
  | None => (None, s)
  | Some pool =>
      if LRUCache.has transportKey pool
      then
        let '(value, pool1) := LRUCache.get transportKey pool in
        match value with
        | Some transport =>
            if alive transport
            then
              let pool2 := (LRUCache.delete transportKey pool1).2 in
              (Some transport,
               mk (poolingEnabled s)
                  (Some (LRUCache.set transportKey transport pool2))
                  (connectionsCreated s) (connectionsReused s + 1))
            else (None, with_pool (LRUCache.delete transportKey pool1).2 s)
        | None => (None, with_pool (LRUCache.delete transportKey pool1).2 s)
        end
      else (None, s)
  end.

(** The rest of [createTransport] (lines 1704-1838) for the new transport
    [fresh] that the mail library returns: with pooling it is stamped
    with the two readings of the clock and stored under the key. *)
Definition storeTransport (transportKey : string) (fresh : Transport)
    (now now' : Z) (s : t) : Transport * t :=
  match pool_in_use s with
  | Some pool =>
      let transport :=
        mkTransport (transport_id fresh) (destroyed fresh)
          (readyState_ended fresh) (Some now) (Some now') in
      (transport,
       mk (poolingEnabled s) (Some (LRUCache.set transportKey transport pool))
          (connectionsCreated s + 1) (connectionsReused s))
  | None =>
      (fresh,
       mk (poolingEnabled s) (transportPool s)
          (connectionsCreated s + 1) (connectionsReused s))
  end.

(** [createTransport(smtp, proxy)] for the key of [smtp] and [proxy]. *)
Definition createTransport (transportKey : string) (fresh : Transport)
    (now now' : Z) (s : t) : Transport * t :=
  match lookupTransport transportKey s with
  | (Some pooledTransport, s1) => (pooledTransport, s1)
  | (None, s1) => storeTransport transportKey fresh now now' s1
  end.

(** The callback of [_removeTransportFromPool] (lines 1863-1923). *)
Definition _removeTransportFromPool (transportKey : string) (s : t) : t :=
  match pool_in_use s with
  | None => s
  | Some pool =>
      if LRUCache.has transportKey pool
      then
        let pool1 := (LRUCache.get transportKey pool).2 in
        with_pool (LRUCache.delete transportKey pool1).2 s
      else s
  end.

Definition maxAge : Z := 30 * 60 * 1000.
Definition maxIdle : Z := 10 * 60 * 1000.

(** The keys that one entry adds to [keysToRemove] (lines 1957-2002). *)
Definition keysToRemove_of (now : Z) (entry : string * Transport)
    : list string :=
  let '(key, transport) := entry in
  if bool_decide (destroyed transport = Some true) then [key]
  else
    let createdAt := default 0 (_createdAt transport) in
    let lastUsed := default 0 (_lastUsed transport) in
    let age := now - createdAt in
    let idleTime := now - lastUsed in
    (if age >? maxAge then [key]
     else if idleTime >? maxIdle then [key] else [])
    ++ (if readyState_ended transport then [key] else [])
    ++ (if bool_decide (destroyed transport ≠ Some false
                        ∧ destroyed transport ≠ Some true)
        then [key] else []).

(** [_cleanupOldTransports()] *)
Definition _cleanupOldTransports (now : Z) (s : t) : t :=
  match pool_in_use s with
  | None => s
  | Some pool =>
      let keysToRemove :=
        flat_map (keysToRemove_of now) (LRUCache.cache pool) in
      with_pool
        (foldl (λ p key, (LRUCache.delete key p).2) pool keysToRemove) s
  end.

(** The pool part of [cleanup()] (lines 2924-2950). *)
Definition cleanup (s : t) : t :=
  match pool_in_use s with
  | None => s
  | Some pool => with_pool (LRUCache.clear pool) s
  end.

(** What happens to the pool: the sections of [createTransport] calls
    (whole calls, or their two mutex sections interleaved with those of
    other calls), removals, periodic cleanups, the final cleanup, and what
    the mail library and the event handlers do to the properties of the
    pooled transport objects. *)
Inductive op :=
  | CreateTransport (key : string) (fresh : Transport) (now now' : Z)
  | Lookup (key : string)
  | Store (key : string) (fresh : Transport) (now now' : Z)
  | RemoveTransport (key : string)
  | CleanupOld (now : Z)
  | Cleanup
  | Events (f : Transport → Transport).

Definition map_pool (f : Transport → Transport)
    (p : LRUCache.t string Transport) : LRUCache.t string Transport :=
  LRUCache.mk (LRUCache.maxSize p) (prod_map id f <$> LRUCache.cache p)
    (LRUCache._accessCount p) (LRUCache._cleanupThreshold p).

Definition step (s : t) (o : op) : t :=
  match o with
  | CreateTransport key fresh now now' =>
      (createTransport key fresh now now' s).2
  | Lookup key => (lookupTransport key s).2
  | Store key fresh now now' => (storeTransport key fresh now now' s).2
  | RemoveTransport key => _removeTransportFromPool key s
  | CleanupOld now => _cleanupOldTransports now s
  | Cleanup => cleanup s
  | Events f =>
      mk (poolingEnabled s) (map_pool f <$> transportPool s)
         (connectionsCreated s) (connectionsReused s)
  end.

Definition run (ops : list op) (s : t) : t := foldl step s ops.

(** The entries of the pool, oldest first; none without a pool. *)
Definition entries (s : t) : list (string * Transport) :=
  match pool_in_use s with
  | Some pool => LRUCache.cache pool
  | None => []
  end.

(** A transport that the periodic cleanup keeps. *)
Definition fresh_at (now : Z) (transport : Transport) : bool :=
  bool_decide (destroyed transport = Some false)
  && negb (readyState_ended transport)
  && (now - default 0 (_createdAt transport) <=? maxAge)
  && (now - default 0 (_lastUsed transport) <=? maxIdle).

(** The pool, when there is one, is a cache of capacity 50 with distinct
    keys. *)
Definition pool_ok (s : t) : Prop :=
  match transportPool s with
  | Some pool =>
      poolingEnabled s = true
      ∧ LRUCache.bounded 50 pool ∧ NoDup (LRUCache.cache pool).*1
  | None => poolingEnabled s = false
  end.

End TransportPool.

(** * Regular expressions and the format check of an address
      (modules.js, lines 2080-2083) *)

Module RegExp.

(** A string is its list of UTF-16 code units. *)
Definition code_unit := N.

(** The patterns without captures, look-around and back-references: for
    these [test] depends only on the language of the pattern. *)
Inductive t :=
  | Never                                (* matches no string *)
  | Empty                                (* matches the empty string *)
  | Class (member : code_unit → bool)    (* one code unit of a class *)
  | Seq (a b : t)
  | Alt (a b : t)
  | Star (a : t).

(** [a+] *)
Definition Plus (a : t) : t := Seq a (Star a).

(** The strings a pattern matches as a whole. *)
Inductive matches : t → list code_unit → Prop :=
  | matches_Empty : matches Empty []
  | matches_Class member c : member c = true → matches (Class member) [c]
  | matches_Seq a b s1 s2 :
      matches a s1 → matches b s2 → matches (Seq a b) (s1 ++ s2)
  | matches_Alt_l a b s : matches a s → matches (Alt a b) s
  | matches_Alt_r a b s : matches b s → matches (Alt a b) s
  | matches_Star_nil a : matches (Star a) []
  | matches_Star_app a s1 s2 :
      matches a s1 → matches (Star a) s2 → matches (Star a) (s1 ++ s2).

Fixpoint nullable (r : t) : bool :=
  match r with
  | Never => false
  | Empty => true
  | Class _ => false
  | Seq a b => nullable a && nullable b
  | Alt a b => nullable a || nullable b
  | Star _ => true
  end.

(** The pattern for what may follow the code unit [c]. *)
Fixpoint deriv (c : code_unit) (r : t) : t :=
  match r with
  | Never => Never
  | Empty => Never
  | Class member => if member c then Empty else Never
  | Seq a b =>
      if nullable a then Alt (Seq (deriv c a) b) (deriv c b)
      else Seq (deriv c a) b
  | Alt a b => Alt (deriv c a) (deriv c b)
  | Star a => Seq (deriv c a) (Star a)
  end.

(** [/^r$/.test(s)]: the pattern matches the whole string. *)
Definition test (r : t) (s : list code_unit) : bool :=
  nullable (foldl (λ r c, deriv c r) r s).

(** [\s]: the white space and line terminator code units. *)
Definition is_space (c : code_unit) : bool :=
  ((9 <=? c) && (c <=? 13)         (* tab, LF, VT, FF, CR *)
   || (c =? 32) || (c =? 160) || (c =? 5760)
   || ((8192 <=? c) && (c <=? 8202))
   || (c =? 8232) || (c =? 8233) || (c =? 8239) || (c =? 8287)
   || (c =? 12288) || (c =? 65279))%N.

End RegExp.

Module EmailFormat.
Import RegExp.

Definition at_sign : code_unit := 64%N.
Definition dot : code_unit := 46%N.

(** [[^\s@]] *)
Definition plain (c : code_unit) : bool :=
  negb (is_space c || (c =? at_sign)%N).

(** [/^[^\s@]+@[^\s@]+\.[^\s@]+$/] *)
Definition emailRegex : RegExp.t :=
  Seq (Plus (Class plain))
    (Seq (Class (N.eqb at_sign))
       (Seq (Plus (Class plain))
          (Seq (Class (N.eqb dot)) (Plus (Class plain))))).

(** [isValidEmail(email)] for a string [email]. *)
Definition isValidEmail (email : list code_unit) : bool :=
  test emailRegex email.

(** [email.split("@")]: the pieces between the [@] signs. *)
Fixpoint split_at (email : list code_unit) : list (list code_unit) :=
  match email with
  | [] => [[]]
  | c :: rest =>
      if (c =? at_sign)%N then [] :: split_at rest
      else match split_at rest with
           | piece :: pieces => (c :: piece) :: pieces
           | [] => [[c]]
           end
  end.

End EmailFormat.

(** * Scenarios: concrete inputs of the examples below *)

Module Scenarios.
Local Open Scope Z_scope.

(** 1001 distinct items, [item0] to [item1000], none of them an array
    index. *)
Definition items_1001 : list string :=
  (λ n, String.append "item" (NilEmpty.string_of_uint (Nat.to_uint n)))
    <$> seq 0 1001%nat.

(** One server, rate limiting on with a ceiling of [limit] messages per
    minute and a cooldown of [cooldown] seconds, no rotation. *)
Definition rate_limited (limit cooldown : Z) : SMTPManager.Config :=
  SMTPManager.mkConfig false RotationManager.sequential true
    (Some limit) (Some cooldown).

Definition one_server : list SMTPManager.ServerConfig :=
  [SMTPManager.mkServer "smtp.example.org" 1].

(** The manager of [one_server] under [rate_limited 2 60], as built by the
    constructor at time 0. *)
Definition manager_ceiling_2 : SMTPManager.t :=
  SMTPManager.mk (rate_limited 2 60) (SMTPManager.mkOptions 3 1000)
    one_server false 0 0
    [SMTPManager.initialHealth]
    [SMTPManager.mkRateLimit 0 0 0 false false None 60000 2 0 0]
    [].

(** No concurrent call runs, the transport always answers [outcome]. *)
Definition alone (outcome : SMTPManager.Outcome) : SMTPManager.Env :=
  SMTPManager.mkEnv (λ _ w, w) (λ _, outcome) (λ _, 0%nat) (λ _, true).

(** A concurrent send counts itself on server 0 while the call is at its
    fifth suspension point, where it waits for the mutex of the increment;
    the transport times out. *)
Definition racing : SMTPManager.Env :=
  SMTPManager.mkEnv
    (λ k w,
       if (k =? 4)%nat
       then SMTPManager.mkWorld
              (default (SMTPManager.manager w)
                 (SMTPManager.incrementSmtpRateLimit 0 (SMTPManager.clock w)
                    (SMTPManager.manager w)))
              (SMTPManager.clock w)
       else w)
    (λ _, SMTPManager.Failed SMTPManager.ETIMEDOUT) (λ _, 0%nat) (λ _, true).

Definition mail : SMTPManager.MailOptions :=
  SMTPManager.mkMail "user@example.org".

(** [one_server] with rate limiting off: the configuration as shipped. *)
Definition manager_unlimited : SMTPManager.t :=
  SMTPManager.mk
    (SMTPManager.mkConfig false RotationManager.sequential false
       (Some 30) (Some 60))
    (SMTPManager.mkOptions 3 1000)
    one_server false 0 0
    [SMTPManager.initialHealth]
    [SMTPManager.mkRateLimit 0 0 0 false false None 60000 30 0 0]
    [].

(** [one_server] with a ceiling of 1 message per minute and a cooldown of
    10 minutes, after one message was counted at time 0. *)
Definition manager_at_ceiling : SMTPManager.t :=
  SMTPManager.mk (rate_limited 1 600) (SMTPManager.mkOptions 3 1000)
    one_server false 0 0
    [SMTPManager.initialHealth]
    [SMTPManager.mkRateLimit 0 1 0 false false None 600000 1 0 0]
    [].

(** Two servers with rotation and rate limiting on, the second of higher
    priority, ceiling 1 message per minute. *)
Definition two_servers : list SMTPManager.ServerConfig :=
  [SMTPManager.mkServer "a.example.org" 1;
   SMTPManager.mkServer "b.example.org" 2].

Definition manager_two_servers : SMTPManager.t :=
  SMTPManager.mk
    (SMTPManager.mkConfig true RotationManager.sequential true
       (Some 1) (Some 60))
    (SMTPManager.mkOptions 3 1000)
    two_servers true 0 0
    [SMTPManager.initialHealth; SMTPManager.initialHealth]
    [SMTPManager.mkRateLimit 0 0 0 false false None 60000 1 0 0;
     SMTPManager.mkRateLimit 1 0 0 false false None 60000 1 0 0]
    [].

(** The same manager after each server has sent its one message of the
    minute and a later check has put it into cooldown. *)
Definition manager_two_cooling : SMTPManager.t :=
  SMTPManager.rate_run
    [SMTPManager.Increment 0 1; SMTPManager.CheckLimit 0 2;
     SMTPManager.Increment 1 3; SMTPManager.CheckLimit 1 4]
    manager_two_servers.

(** Ten inserts of the keys 0 to 9 into a cache. *)
Definition ten_inserts : list (LRUCache.op nat nat) :=
  (λ i, LRUCache.Set_ i i) <$> seq 0 10.

(** A selector over these items after 1000 sequential selections. *)
Definition selector_after_1000 : RotationManager.t string :=
  Eval vm_compute in
    (RotationManager.getNext_times id 1000%nat (λ _, 0%nat)
       (RotationManager.constructor items_1001 RotationManager.sequential)).2.

End Scenarios.

(** * Properties *)

(** ** AsyncMutex *)

Section AsyncMutexFacts.
Import AsyncMutex.

Lemma indexOf_Some q e i : indexOf q e = Some i → q !! i = Some e.
Proof.
  revert i. induction q as [|x q IH]; intros i; simpl; [done|].
  destruct (Nat.eqb_spec x e) as [->|Hne].
  - by intros [= <-].
  - destruct (indexOf q e) as [j|]; simpl; [|done].
    intros [= <-]. by apply IH.
Qed.

Lemma indexOf_None q e : indexOf q e = None → e ∉ q.
Proof.
  induction q as [|x q IH]; simpl; [intros _; apply not_elem_of_nil|].
  destruct (Nat.eqb_spec x e) as [->|Hne]; [done|].
  destruct (indexOf q e); simpl; [done|].
  intros _. rewrite not_elem_of_cons. split; [congruence | by apply IH].
Qed.

Lemma StronglySorted_delete (q : list nat) i :
  StronglySorted lt q → StronglySorted lt (delete i q).
Proof.
  revert i. induction q as [|x q IH]; intros i Hs; [done|].
  apply StronglySorted_cons in Hs as [Hx Hs].
  destruct i as [|i]; simpl; [done|].
  apply StronglySorted_cons. split; [by apply Forall_delete | by apply IH].
Qed.

Lemma sorted_delete_not_elem (q : list nat) i e :
  StronglySorted lt q → q !! i = Some e → e ∉ delete i q.
Proof.
  revert i. induction q as [|x q IH]; intros i Hs Hi; [done|].
  apply StronglySorted_cons in Hs as [Hx Hs].
  destruct i as [|i]; simpl in *.
  - injection Hi as ->. intros Hin.
    rewrite Forall_forall in Hx. specialize (Hx _ Hin). lia.
  - rewrite not_elem_of_cons. split; [|by apply IH].
    intros ->. rewrite Forall_forall in Hx.
    apply list_elem_of_lookup_2 in Hi. specialize (Hx _ Hi). lia.
Qed.

Lemma inv_constructor : inv constructor [].
Proof.
  split; simpl; try done; constructor.
Qed.

Lemma step_inv m tr o :
  inv m tr → inv (step m o).1 (tr ++ (step m o).2).
Proof.
  intros [Hl Hs Hb Htb Hto Hn]. destruct o as [| |e]; simpl.
  - (* acquire *)
    unfold acquire. destruct (locked m) eqn:Hlocked; simpl.
    + rewrite app_nil_r. split; simpl; [done|..|done].
      * apply StronglySorted_app. split_and!; [|done|repeat constructor].
        intros x1 x2 Hx1 ->%list_elem_of_singleton.
        rewrite Forall_forall in Hb. by apply Hb.
      * apply Forall_app. split; [|repeat constructor].
        eapply Forall_impl; [exact Hb|]. simpl. lia.
      * eapply Forall_impl; [exact Htb|]. simpl. lia.
      * rewrite Forall_forall in Hto, Htb |- *. intros s Hs'.
        rewrite not_elem_of_app, list_elem_of_singleton.
        split; [by apply Hto|]. specialize (Htb _ Hs'). simpl in Htb. lia.
    + split; simpl; [done|done|..].
      * eapply Forall_impl; [exact Hb|]. simpl. lia.
      * apply Forall_app. split; [|repeat constructor].
        eapply Forall_impl; [exact Htb|]. simpl. lia.
      * apply Forall_app. split; [done|]. repeat constructor. simpl.
        intros Hin. rewrite Forall_forall in Hb. specialize (Hb _ Hin). lia.
      * rewrite fmap_app. simpl. apply NoDup_app. split_and!; [done| |apply NoDup_singleton].
        intros x Hx ->%list_elem_of_singleton.
        apply list_elem_of_fmap in Hx as (s & Heq & Hs').
        rewrite Forall_forall in Htb. specialize (Htb _ Hs'). lia.
  - (* release *)
    unfold release. destruct (queue m) as [|next rest] eqn:Hq; simpl.
    + rewrite app_nil_r. split; simpl; try done; try constructor.
      all: eapply Forall_impl; [exact Hto|]; simpl; intros; apply not_elem_of_nil.
    + apply StronglySorted_cons in Hs as [Hnext Hs].
      apply Forall_cons in Hb as [Hnb Hb].
      split; simpl; [by intros _; apply Hl|done|done|..].
      * apply Forall_app. split; [done|]. by repeat constructor.
      * apply Forall_app. split.
        -- eapply Forall_impl; [exact Hto|]. simpl. intros s Hs'.
           rewrite not_elem_of_cons in Hs'. tauto.
        -- repeat constructor. simpl. intros Hin.
           rewrite Forall_forall in Hnext. specialize (Hnext _ Hin). lia.
      * rewrite fmap_app. simpl. apply NoDup_app. split_and!; [done| |apply NoDup_singleton].
        intros x Hx ->%list_elem_of_singleton.
        apply list_elem_of_fmap in Hx as (s & Heq & Hs').
        rewrite Forall_forall in Hto. specialize (Hto _ Hs'). subst.
        apply Hto. left.
  - (* the timer of entry [e] fires *)
    unfold timeout_fires. destruct (indexOf (queue m) e) as [i|] eqn:Hi; simpl.
    + apply indexOf_Some in Hi.
      split; simpl.
      * intros Hne. apply Hl. intros Hq. rewrite Hq in Hi. done.
      * by apply StronglySorted_delete.
      * by apply Forall_delete.
      * apply Forall_app. split; [done|]. repeat constructor. simpl.
        rewrite Forall_forall in Hb. apply Hb. by eapply list_elem_of_lookup_2.
      * apply Forall_app. split.
        -- eapply Forall_impl; [exact Hto|]. simpl. intros s Hs' Hin.
           apply Hs'. by eapply list_elem_of_delete_inv.
        -- repeat constructor. simpl. by apply sorted_delete_not_elem.
      * rewrite fmap_app. simpl. apply NoDup_app. split_and!; [done| |apply NoDup_singleton].
        intros x Hx ->%list_elem_of_singleton.
        apply list_elem_of_fmap in Hx as (s & Heq & Hs').
        rewrite Forall_forall in Hto. specialize (Hto _ Hs'). subst.
        apply Hto. by eapply list_elem_of_lookup_2.
    + by rewrite app_nil_r.
Qed.

Lemma run_inv ops m tr :
  inv m tr → inv (run ops m).1 (tr ++ (run ops m).2).
Proof.
  revert m tr. induction ops as [|o ops IH]; intros m tr Hinv; simpl.
  - by rewrite app_nil_r.
  - pose proof (step_inv m tr o Hinv) as H1.
    destruct (step m o) as [m1 s1]. simpl in H1.
    specialize (IH m1 (tr ++ s1) H1).
    destruct (run ops m1) as [m2 s2]. simpl in *.
    by rewrite app_assoc.
Qed.

(** A promise is settled at most once. *)
Lemma settled_once tr e :
  NoDup (settled_entry <$> tr) → Rejected e ∈ tr → Resolved e ∉ tr.
Proof.
  induction tr as [|s tr IH]; simpl; [intros _ []%elem_of_nil|].
  intros [Hs Hn]%NoDup_cons. rewrite !elem_of_cons.
  intros [<-|Hin] [Heq|Hin'].
  - done.
  - apply Hs. apply list_elem_of_fmap. by exists (Resolved e).
  - subst s. apply Hs. apply list_elem_of_fmap. by exists (Rejected e).
  - by apply IH.
Qed.

(** C10.  After any sequence of acquire, release and timer events on a
    fresh mutex: [release] with a non-empty queue resolves the entry at the
    front, which is the one that has waited longest (every other entry was
    queued by a later call), and leaves [locked] set, as it was; [release]
    with an empty queue clears [locked]; and an entry rejected by its
    timeout is never resolved. *)
Theorem mutex_handoff (ops : list op) :
  let m := (run ops constructor).1 in
  let tr := (run ops constructor).2 in
  (∀ next rest, queue m = next :: rest →
     locked m = true
     ∧ release m = (mk true rest (calls m), [Resolved next])
     ∧ Forall (λ e, (next < e)%nat) rest)
  ∧ (queue m = [] → locked (release m).1 = false ∧ (release m).2 = [])
  ∧ (∀ e, Rejected e ∈ tr → Resolved e ∉ tr).
Proof.
  intros m tr.
  pose proof (run_inv ops constructor [] inv_constructor) as Hinv.
  simpl in Hinv. fold m tr in Hinv. destruct Hinv as [Hl Hs Hb Htb Hto Hn].
  split_and!.
  - intros next rest Hq. rewrite Hq in Hl, Hs.
    assert (locked m = true) as Hlocked by (by apply Hl).
    split_and!; [done| |].
    + unfold release. by rewrite Hq, Hlocked.
    + by apply StronglySorted_cons in Hs as [? _].
  - intros Hq. unfold release. by rewrite Hq.
  - intros e. by apply settled_once.
Qed.

Lemma mutex_handoff_witness :
  release (run [Acquire; Acquire; Acquire; TimeoutFires 1] constructor).1
    = (mk true [] 3, [Resolved 2%nat])
  ∧ Resolved 1%nat ∉ (run [Acquire; Acquire; Acquire; TimeoutFires 1] constructor).2.
Proof.
  pose proof (mutex_handoff [Acquire; Acquire; Acquire; TimeoutFires 1])
    as (H1 & _ & H3).
  split.
  - apply (H1 2%nat []). reflexivity.
  - apply H3. simpl. apply elem_of_cons. right. apply elem_of_cons. by left.
Defined.

End AsyncMutexFacts.

(** ** LRUCache *)

Section LRUCacheFacts.
Import LRUCache.
Context {K V : Type} `{EqDecision K}.
Implicit Types (m : list (K * V)) (c : t K V) (k key : K).

Lemma length_filter_le {A} (f : A → bool) (l : list A) :
  length (List.filter f l) ≤ length l.
Proof. induction l as [|x l IH]; simpl; [lia|]. destruct (f x); simpl; lia. Qed.

Lemma Map_get_None k m : Map_get k m = None ↔ k ∉ m.*1.
Proof.
  unfold Map_get. induction m as [|[k' v] m IH]; simpl.
  - split; [intros _; apply not_elem_of_nil | done].
  - rewrite not_elem_of_cons. case_bool_decide as Hk; simpl in *.
    + split; [done | intros [? _]; congruence].
    + rewrite IH. split; [intros ?; split; [congruence | done] | tauto].
Qed.

Lemma Map_has_true k m : Map_has k m = true ↔ k ∈ m.*1.
Proof.
  unfold Map_has. rewrite bool_decide_eq_true.
  destruct (Map_get k m) as [v|] eqn:Hg.
  - split; [intros _ | by eauto].
    destruct (decide (k ∈ m.*1)) as [|Hn]; [done|].
    apply Map_get_None in Hn. congruence.
  - apply Map_get_None in Hg. split; [by intros [? ?] | done].
Qed.

Lemma Map_has_false k m : Map_has k m = false ↔ k ∉ m.*1.
Proof. rewrite <- Map_has_true. by destruct (Map_has k m). Qed.

Lemma elem_of_Map_delete k k' m :
  k' ∈ (Map_delete k m).*1 ↔ k' ∈ m.*1 ∧ k' ≠ k.
Proof.
  unfold Map_delete. induction m as [|[k0 v] m IH]; simpl.
  - rewrite elem_of_nil. tauto.
  - case_bool_decide as Hk; simpl in *.
    + rewrite IH, elem_of_cons. subst. tauto.
    + rewrite !elem_of_cons, IH. split; [|tauto].
      intros [->|[? ?]]; [split; [by left | congruence] | tauto].
Qed.

Lemma Map_delete_length_lt k m :
  k ∈ m.*1 → length (Map_delete k m) < length m.
Proof.
  unfold Map_delete. induction m as [|[k0 v] m IH]; simpl.
  - by intros ?%elem_of_nil.
  - intros Hin. case_bool_decide as Hk; simpl in *.
    + pose proof (length_filter_le (λ kv, negb (bool_decide (kv.1 = k))) m). lia.
    + apply elem_of_cons in Hin as [->|Hin]; [done|]. specialize (IH Hin). lia.
Qed.

Lemma Map_set_length_le k v m : length (Map_set k v m) ≤ S (length m).
Proof.
  induction m as [|[k0 v0] m IH]; simpl; [lia|].
  case_bool_decide; simpl; lia.
Qed.

Lemma elem_of_Map_set k v k' m :
  k' ∈ (Map_set k v m).*1 ↔ k' = k ∨ k' ∈ m.*1.
Proof.
  induction m as [|[k0 v0] m IH]; simpl.
  - rewrite list_elem_of_singleton, elem_of_nil. tauto.
  - case_bool_decide as Hk; simpl in *.
    + rewrite !elem_of_cons. subst. tauto.
    + rewrite !elem_of_cons, IH. tauto.
Qed.

Lemma foldl_Map_delete (ks : list K) m :
  foldl (λ m key, Map_delete key m) m ks
  = List.filter (λ kv, negb (bool_decide (kv.1 ∈ ks))) m.
Proof.
  revert m. induction ks as [|k ks IH]; intros m; simpl.
  - induction m as [|kv m IHm]; simpl; [done|].
    congruence.
  - rewrite IH. unfold Map_delete. clear IH.
    induction m as [|kv m IHm]; simpl; [done|].
    repeat case_bool_decide; simpl; repeat case_bool_decide; simpl;
      rewrite ?IHm; try done.
    all: exfalso;
      repeat match goal with
             | Hn : _ ∉ _ :: _ |- _ => apply not_elem_of_cons in Hn as [? ?]
             | Hi : _ ∈ _ :: _ |- _ => apply elem_of_cons in Hi as [?|?]
             end; done.
Qed.

(** The batch removes the entries at the front of the [Map], the oldest
    ones, and at least [_cleanupThreshold] of them. *)
Lemma _batchCleanup_length c :
  (0 ≤ _cleanupThreshold c ≤ Z.of_nat (length (cache c)))%Z →
  (Z.of_nat (length (cache (_batchCleanup c)))
   ≤ Z.of_nat (length (cache c)) - _cleanupThreshold c)%Z.
Proof.
  intros Hn. unfold _batchCleanup, JS.slice0. simpl.
  destruct (Z.ltb_spec (_cleanupThreshold c) 0) as [?|_]; [lia|].
  rewrite foldl_Map_delete.
  set (n := Z.to_nat (_cleanupThreshold c)).
  assert (n ≤ length (cache c)) as Hle by lia.
  replace (_cleanupThreshold c) with (Z.of_nat n) by lia.
  clearbody n. clear Hn.
  set (f := λ kv : K * V, negb (bool_decide (kv.1 ∈ take n (cache c).*1))).
  assert (List.filter f (take n (cache c)) = []) as Hfront.
  { assert (∀ l : list (K * V),
              (∀ kv, kv ∈ l → f kv = false) → List.filter f l = []) as Hnil.
    { induction l as [|x l IHl]; intros Hall; simpl; [done|].
      rewrite (Hall x) by left. apply IHl. intros ??. apply Hall. by right. }
    apply Hnil. intros kv Hkv. unfold f.
    rewrite bool_decide_eq_true_2; [done|].
    rewrite <- fmap_take. by apply list_elem_of_fmap_2. }
  rewrite <- (take_drop n (cache c)) at 1.
  rewrite List.filter_app, Hfront. simpl.
  pose proof (length_filter_le f (drop n (cache c))) as Hd.
  rewrite length_drop in Hd. lia.
Qed.

Lemma _batchCleanup_evicts c k :
  (0 ≤ _cleanupThreshold c)%Z →
  k ∈ JS.slice0 (_cleanupThreshold c) (cache c).*1 →
  k ∉ (cache (_batchCleanup c)).*1.
Proof.
  intros Hn Hk. unfold _batchCleanup. simpl. rewrite foldl_Map_delete.
  intros (kv & -> & Hin)%list_elem_of_fmap.
  apply list_elem_of_In, List.filter_In in Hin as [_ Hf].
  rewrite negb_true_iff, bool_decide_eq_false in Hf. done.
Qed.

Lemma set_bounded C c key value :
  (10 ≤ C)%Z → bounded C c → bounded C (set key value c).
Proof.
  intros HC (Hmax & Hthr & Hsize). unfold bounded, size, set in *.
  assert (1 ≤ C / 10)%Z by (apply Z.div_le_lower_bound; lia).
  assert (C / 10 ≤ C)%Z by (apply Z.div_le_upper_bound; lia).
  destruct (Map_has key (cache c)) eqn:Hhas; simpl.
  - apply Map_has_true, Map_delete_length_lt in Hhas.
    pose proof (Map_set_length_le key value (Map_delete key (cache c))). lia.
  - destruct (Z.geb_spec (Z.of_nat (length (cache c))) (maxSize c)) as [Hfull|Hroom].
    + pose proof (_batchCleanup_length c) as Hb.
      pose proof (Map_set_length_le key value (cache (_batchCleanup c))).
      split_and!; [done|done|]. lia.
    + pose proof (Map_set_length_le key value (cache c)).
      split_and!; [done|done|]. lia.
Qed.

Lemma step_bounded C c o :
  (10 ≤ C)%Z → bounded C c → bounded C (step c o).
Proof.
  intros HC Hb. destruct o as [key|key value|key|]; simpl.
  - destruct Hb as (Hmax & Hthr & Hsize). unfold get, bounded, size in *.
    destruct (Map_get key (cache c)) as [value|] eqn:Hg; simpl; [|done].
    split_and!; [done|done|].
    destruct (Z.rem (_accessCount c + 1) 5 =? 0)%Z; [|done].
    assert (key ∈ (cache c).*1) as Hin.
    { apply Map_has_true. unfold Map_has. rewrite Hg.
      by apply bool_decide_eq_true_2. }
    apply Map_delete_length_lt in Hin.
    pose proof (Map_set_length_le key value (Map_delete key (cache c))). lia.
  - by apply set_bounded.
  - destruct Hb as (Hmax & Hthr & Hsize). unfold bounded, size in *. simpl.
    split_and!; [done|done|].
    pose proof (length_filter_le (λ kv : K * V, negb (bool_decide (kv.1 = key)))
                  (cache c)) as Hd.
    unfold Map_delete. lia.
  - destruct Hb as (Hmax & Hthr & Hsize). unfold bounded, size in *. simpl.
    split_and!; [done|done|lia].
Qed.

Lemma run_bounded C c ops :
  (10 ≤ C)%Z → bounded C c → bounded C (run ops c).
Proof.
  intros HC. revert c. unfold run.
  induction ops as [|o ops IH]; intros c Hb; simpl; [done|].
  apply IH. by apply step_bounded.
Qed.

(** X8.  With a capacity of at least 10 the cache works as a bounded cache:
    after any operations it holds at most [C] entries, an insert of a new
    key into a full cache evicts the [C / 10] entries at the front of the
    [Map], and a [get] of an evicted key is a miss. *)
Lemma lru_bounded_from_capacity_10 (C : Z) (ops : list (op K V)) key value :
  (10 ≤ C)%Z →
  let c := run ops (constructor C) in
  (size c ≤ C)%Z
  ∧ (size (set key value c) ≤ C)%Z
  ∧ (size c = C → has key c = false →
     let evicted := JS.slice0 (C / 10) (cache c).*1 in
     Z.of_nat (length evicted) = (C / 10)%Z
     ∧ ∀ k, k ∈ evicted → (get k (set key value c)).1 = None).
Proof.
  intros HC c.
  assert (bounded C c) as Hb.
  { apply run_bounded; [done|]. unfold bounded, constructor, size. simpl.
    split_and!; [done|done|lia]. }
  pose proof (set_bounded C c key value HC Hb) as (_ & _ & Hs).
  destruct Hb as (Hmax & Hthr & Hsize).
  assert (1 ≤ C / 10)%Z by (apply Z.div_le_lower_bound; lia).
  assert (C / 10 ≤ C)%Z by (apply Z.div_le_upper_bound; lia).
  split_and!; [done|done|].
  intros Hfull Hnew evicted. unfold size in Hfull. split.
  - unfold evicted, JS.slice0.
    destruct (Z.ltb_spec (C / 10) 0) as [?|_]; [lia|].
    rewrite length_take, length_fmap. lia.
  - intros k Hk. unfold get.
    assert (Map_get k (cache (set key value c)) = None) as ->; [|done].
    apply Map_get_None. unfold set. unfold has in Hnew. rewrite Hnew.
    destruct (Z.geb_spec (Z.of_nat (length (cache c))) (maxSize c)) as [_|?];
      [|lia].
    simpl. rewrite elem_of_Map_set. intros [->|Hin].
    + apply Map_has_false in Hnew. apply Hnew.
      unfold evicted, JS.slice0 in Hk.
      destruct (C / 10 <? 0)%Z;
        by apply elem_of_take in Hk as (? & ?%list_elem_of_lookup_2 & _).
    + revert Hin. apply _batchCleanup_evicts; [lia|]. by rewrite Hthr.
Qed.

Lemma run_cleanupThreshold (ops : list (op K V)) c :
  _cleanupThreshold (run ops c) = _cleanupThreshold c.
Proof.
  unfold run. revert c. induction ops as [|o ops IH]; intros c; [done|].
  simpl. rewrite IH. destruct o as [k|k v|k|]; simpl; try done.
  - unfold get. by destruct (Map_get k (cache c)).
  - unfold set. destruct (Map_has k (cache c)); [done|].
    by destruct (Z.of_nat (length (cache c)) >=? maxSize c)%Z.
Qed.

(** Below 10 the batch is empty ([_cleanupThreshold] is 0): every insert of
    a new key makes the cache one entry larger, whatever it holds. *)
Lemma lru_below_capacity_10_grows (C : Z) (ops : list (op K V)) key value :
  (0 ≤ C < 10)%Z →
  let c := run ops (constructor C) in
  has key c = false → size (set key value c) = (size c + 1)%Z.
Proof.
  intros HC c Hnew.
  assert (_cleanupThreshold c = 0%Z) as Hthr.
  { unfold c. rewrite run_cleanupThreshold. simpl. apply Z.div_small. lia. }
  unfold has in Hnew. unfold set, size. rewrite Hnew.
  assert (∀ m, Map_has key m = false →
               length (Map_set key value m) = S (length m)) as Hset.
  { intros m Hm. apply Map_has_false in Hm.
    induction m as [|[k0 v0] m IHm]; simpl; [done|].
    apply not_elem_of_cons in Hm as [Hne Hm].
    rewrite bool_decide_eq_false_2 by (by intros <-). simpl. by rewrite IHm. }
  destruct (Z.of_nat (length (cache c)) >=? maxSize c)%Z; simpl.
  - unfold JS.slice0. rewrite Hthr. simpl. rewrite Hset by done. lia.
  - rewrite Hset by done. lia.
Qed.

End LRUCacheFacts.

(** C3.  A cache of capacity 2, such as a pool of two sessions: after the
    inserts of A, B and C it holds 3 entries, more than its capacity, and
    A, the least recently used entry, is still found. *)
Theorem lru_capacity_2_overflows :
  let c := LRUCache.run
             [LRUCache.Set_ "A" 1%Z; LRUCache.Set_ "B" 2%Z; LRUCache.Set_ "C" 3%Z]
             (LRUCache.constructor 2) in
  LRUCache.maxSize c = 2%Z
  ∧ LRUCache.size c = 3%Z
  ∧ LRUCache.has "A" c = true
  ∧ (LRUCache.get "A" c).1 = Some 1%Z.
Proof. vm_compute. done. Qed.

(** ** RotationManager: the sequential policy *)

Section RotationManagerFacts.
Import RotationManager.
Context {A : Type} (stringify : A → string).
Implicit Types (r : t A) (rnd : nat → nat).

(** One sequential selection at an index inside the list. *)
Lemma getNext_sequential r (i : nat) (x : A) randomIndex :
  rotationStrategy r = sequential →
  currentIndex r = Z.of_nat i →
  items r !! i = Some x →
  getNext stringify None randomIndex r
  = (Some x,
     mk (items r)
        (if decide (S i < length (items r)) then Z.of_nat (S i) else 0%Z)
        (updateUsageStats (stringify x) (usageStats r))
        sequential).
Proof.
  intros Hs Hi Hx. unfold getNext.
  pose proof (lookup_lt_Some _ _ _ Hx) as Hlt.
  destruct (items r) as [|first rest] eqn:Hitems; [done|].
  rewrite <- Hitems in *. rewrite Hs, Hi. simpl.
  destruct (Z.leb_spec (Z.of_nat (length (items r))) (Z.of_nat i)) as [?|_];
    [lia|].
  destruct (Z.ltb_spec (Z.of_nat i) 0) as [?|_]; [lia|]. simpl.
  rewrite Z.max_r, Z.min_l by lia. rewrite Nat2Z.id, Hx. simpl.
  do 2 f_equal. rewrite Z.rem_mod_nonneg by lia.
  destruct (decide (S i < length (items r))) as [Hin|Hout].
  - rewrite Z.mod_small by lia. lia.
  - replace (Z.of_nat i + 1)%Z with (Z.of_nat (length (items r))) by lia.
    apply Z_mod_same_full.
Qed.

(** [k] selections from index [i] return the next [k] items of the list,
    as long as they do not pass its end. *)
Lemma getNext_times_run (k i : nat) rnd r :
  rotationStrategy r = sequential →
  currentIndex r = Z.of_nat i →
  i < length (items r) →
  i + k ≤ length (items r) →
  (getNext_times stringify k rnd r).1 = Some <$> take k (drop i (items r))
  ∧ items (getNext_times stringify k rnd r).2 = items r
  ∧ rotationStrategy (getNext_times stringify k rnd r).2 = sequential
  ∧ currentIndex (getNext_times stringify k rnd r).2
    = (if decide (i + k < length (items r)) then Z.of_nat (i + k) else 0%Z).
Proof.
  revert i rnd r. induction k as [|k IH]; intros i rnd r Hs Hi Hlt Hle; simpl.
  - rewrite Nat.add_0_r, decide_True by done. done.
  - destruct (lookup_lt_is_Some_2 (items r) i Hlt) as [x Hx].
    rewrite (getNext_sequential r i x _ Hs Hi Hx).
    set (r1 := mk _ _ _ _).
    destruct (decide (S i < length (items r))) as [Hin|Hout].
    + specialize (IH (S i) (λ j, rnd (S j)) r1 eq_refl eq_refl Hin).
      simpl in IH. destruct IH as (Ho & Hit & Hst & Hidx); [lia|].
      destruct (getNext_times stringify k (λ j, rnd (S j)) r1) as [out r2].
      simpl in *. split_and!; [|done|done|].
      * rewrite Ho, (drop_S _ x i Hx). done.
      * rewrite Hidx. by replace (i + S k)%nat with (S (i + k))%nat by lia.
    + assert (k = 0%nat) as -> by lia. simpl.
      split_and!; [|done|done|].
      * rewrite (drop_S _ x i Hx). done.
      * rewrite decide_False by lia. done.
Qed.

Lemma getNext_times_app (a b : nat) rnd r :
  getNext_times stringify (a + b) rnd r
  = ((getNext_times stringify a rnd r).1
     ++ (getNext_times stringify b (λ j, rnd (a + j)%nat)
           (getNext_times stringify a rnd r).2).1,
     (getNext_times stringify b (λ j, rnd (a + j)%nat)
        (getNext_times stringify a rnd r).2).2).
Proof.
  revert rnd r. induction a as [|a IH]; intros rnd r; simpl.
  - by destruct (getNext_times stringify b _ r).
  - destruct (getNext stringify None (rnd 0%nat) r) as [x r1].
    rewrite IH. destruct (getNext_times stringify a _ r1) as [o1 r2]. simpl.
    by destruct (getNext_times stringify b _ r2).
Qed.

(** C4.  Under the sequential policy, as many selections as the list has
    items return every item once, in list order from the current index
    round to the item before it; the manager is then back at the index it
    started from, and the selection of the last item sets the index to 0. *)
Theorem sequential_rotation_visits_each_once rnd r (i : nat) :
  rotationStrategy r = sequential →
  currentIndex r = Z.of_nat i →
  i < length (items r) →
  let n := length (items r) in
  let selected := (getNext_times stringify n rnd r).1 in
  selected = Some <$> (drop i (items r) ++ take i (items r))
  ∧ selected ≡ₚ Some <$> items r
  ∧ currentIndex (getNext_times stringify n rnd r).2 = Z.of_nat i
  ∧ currentIndex
      (getNext stringify None (rnd 0%nat)
         (mk (items r) (Z.of_nat n - 1) (usageStats r) sequential)).2 = 0%Z.
Proof.
  intros Hs Hi Hlt n selected.
  assert (selected = Some <$> (drop i (items r) ++ take i (items r))
          ∧ currentIndex (getNext_times stringify n rnd r).2 = Z.of_nat i)
    as [Hsel Hidx].
  { unfold selected. replace n with ((n - i) + i)%nat by (unfold n; lia).
    rewrite getNext_times_app. simpl.
    destruct (getNext_times_run (n - i) i rnd r Hs Hi Hlt) as (Ho & Hit & Hst & Hc);
      [unfold n; lia|].
    rewrite decide_False in Hc by (unfold n; lia).
    set (r1 := (getNext_times stringify (n - i) rnd r).2) in *.
    destruct i as [|i'].
    { simpl. rewrite Ho, Nat.sub_0_r, !app_nil_r, drop_0. split; [|done].
      f_equal. by apply take_ge. }
    destruct (getNext_times_run (S i') 0 (λ j, rnd (n - S i' + j)%nat) r1 Hst Hc)
      as (Ho' & _ & _ & Hc'); [rewrite Hit; lia | rewrite Hit; lia |].
    rewrite Ho, Ho', Hc', Hit, drop_0, fmap_app.
    rewrite decide_True by done.
    split; [|done]. f_equal. f_equal. apply take_ge. rewrite length_drop.
    unfold n. lia. }
  split_and!; [done| |done|].
  - rewrite Hsel. apply fmap_Permutation.
    rewrite Permutation_app_comm. by rewrite take_drop.
  - destruct (lookup_lt_is_Some_2 (items r) (n - 1)) as [x Hx];
      [unfold n; lia|].
    rewrite (getNext_sequential _ (n - 1) x); simpl; [|done|lia|done].
    rewrite decide_False; [done|unfold n; lia].
Qed.

End RotationManagerFacts.

Lemma sequential_rotation_visits_each_once_witness :
  (RotationManager.getNext_times id 3 (λ _, 0%nat)
     (RotationManager.mk ["a"; "b"; "c"] 1 [] RotationManager.sequential)).1
  = [Some "b"; Some "c"; Some "a"].
Proof.
  apply (sequential_rotation_visits_each_once id (λ _, 0%nat)
           (RotationManager.mk ["a"; "b"; "c"] 1 [] RotationManager.sequential)
           1).
  - reflexivity.
  - reflexivity.
  - simpl. lia.
Defined.

(** ** RotationManager: the usage statistics *)

Section SortFacts.
Local Open Scope Z_scope.

Lemma insert_by_Permutation {A} (cmp : A → A → Z) x (l : list A) :
  JS.insert_by cmp x l ≡ₚ x :: l.
Proof.
  induction l as [|y l IH]; simpl; [done|].
  destruct (cmp x y <=? 0); [done|]. rewrite IH. apply Permutation_swap.
Qed.

Lemma sort_by_Permutation {A} (cmp : A → A → Z) (l : list A) :
  JS.sort_by cmp l ≡ₚ l.
Proof.
  induction l as [|x l IH]; simpl; [done|].
  rewrite insert_by_Permutation. by rewrite IH.
Qed.

(** [sort] with a comparator that is total and transitive gives a list in
    which every element stands before the elements after it. *)
Lemma sort_by_sorted {A} (cmp : A → A → Z) (l : list A) :
  (∀ a b, cmp a b ≤ 0 ∨ cmp b a ≤ 0) →
  (∀ a b c, cmp a b ≤ 0 → cmp b c ≤ 0 → cmp a c ≤ 0) →
  StronglySorted (λ a b, cmp a b ≤ 0) (JS.sort_by cmp l).
Proof.
  intros Htotal Htrans.
  assert (∀ x l, StronglySorted (λ a b, cmp a b ≤ 0) l →
                 StronglySorted (λ a b, cmp a b ≤ 0) (JS.insert_by cmp x l))
    as Hinsert.
  { intros x l'. induction l' as [|y l' IH]; intros Hs; simpl.
    - repeat constructor.
    - apply StronglySorted_cons in Hs as [Hy Hs].
      destruct (Z.leb_spec (cmp x y) 0) as [Hxy|Hxy].
      + apply StronglySorted_cons. split.
        * constructor; [done|].
          eapply Forall_impl; [exact Hy|]. intros z Hz. by eapply Htrans.
        * apply StronglySorted_cons. done.
      + apply StronglySorted_cons. split; [|by apply IH].
        rewrite insert_by_Permutation. constructor; [|done].
        destruct (Htotal x y); [lia|done]. }
  induction l as [|x l IH]; simpl; [constructor|]. by apply Hinsert.
Qed.

Lemma StronglySorted_weaken {A} (R R' : A → A → Prop) (l : list A) :
  (∀ a b, R a b → R' a b) → StronglySorted R l → StronglySorted R' l.
Proof.
  intros HR. induction 1 as [|x l Hs IH Hx]; constructor; [done|].
  eapply Forall_impl; [exact Hx|]. apply HR.
Qed.

End SortFacts.

Section UsageStatsFacts.
Import JS.

Lemma length_insert_by {A} (cmp : A → A → Z) x (l : list A) :
  length (insert_by cmp x l) = S (length l).
Proof.
  induction l as [|y l IH]; simpl; [done|].
  destruct (cmp x y <=? 0)%Z; simpl; lia.
Qed.

Lemma length_sort_by {A} (cmp : A → A → Z) (l : list A) :
  length (sort_by cmp l) = length l.
Proof.
  induction l as [|x l IH]; simpl; [done|].
  rewrite length_insert_by. by rewrite IH.
Qed.

Lemma length_entries (o : object) : length (entries o) = length o.
Proof.
  unfold entries. rewrite length_app, length_fmap, length_sort_by.
  induction o as [|[k v] o IH]; simpl; [done|].
  unfold omap in IH. destruct (array_index k) as [i|]; simpl; lia.
Qed.

Lemma length_keys (o : object) : length (keys o) = length o.
Proof. unfold keys. by rewrite length_fmap, length_entries. Qed.

Lemma length_obj_set_le k v (o : object) :
  length (obj_set k v o) ≤ S (length o).
Proof.
  induction o as [|[k' v'] o IH]; simpl; [lia|].
  destruct (String.eqb k' k); simpl; lia.
Qed.

Lemma length_fromEntries_le (l : list (string * Z)) :
  length (fromEntries l) ≤ length l.
Proof.
  unfold fromEntries.
  assert (∀ acc : object,
            length (foldl (λ o kv, obj_set kv.1 kv.2 o) acc l)
            ≤ length acc + length l) as Hacc.
  { induction l as [|kv l IH]; intros acc; simpl; [lia|].
    specialize (IH (obj_set kv.1 kv.2 acc)).
    pose proof (length_obj_set_le kv.1 kv.2 acc). lia. }
  apply (Hacc []).
Qed.

Lemma obj_get_obj_set k v (o : object) : obj_get k (obj_set k v o) = Some v.
Proof.
  induction o as [|[k' v'] o IH]; simpl.
  - by rewrite String.eqb_refl.
  - destruct (String.eqb k' k) eqn:Hk; simpl; by rewrite Hk.
Qed.

Lemma length_slice0_le {A} (n : Z) (l : list A) :
  (0 ≤ n)%Z → (Z.of_nat (length (slice0 n l)) ≤ n)%Z.
Proof.
  intros Hn. unfold slice0. destruct (Z.ltb_spec n 0) as [?|_]; [lia|].
  rewrite length_take. lia.
Qed.

Lemma obj_set_keys k v (o : JS.object) :
  (JS.obj_set k v o).*1 = if decide (k ∈ o.*1) then o.*1 else o.*1 ++ [k].
Proof.
  induction o as [|[k' v'] o IH]; [done|]. cbn [JS.obj_set].
  destruct (String.eqb_spec k' k) as [->|Hne]; csimpl.
  - rewrite decide_True by left. done.
  - rewrite IH. destruct (decide (k ∈ o.*1)) as [Hin|Hnin].
    + rewrite decide_True by (by right). done.
    + rewrite decide_False; [done|].
      intros [?|?]%elem_of_cons; congruence.
Qed.

Lemma obj_get_obj_set_ne k k' v (o : JS.object) :
  k' ≠ k → JS.obj_get k' (JS.obj_set k v o) = JS.obj_get k' o.
Proof.
  intros Hne. induction o as [|[k0 v0] o IH]; simpl.
  - destruct (String.eqb_spec k k'); [congruence|done].
  - destruct (String.eqb_spec k0 k) as [->|Hk0]; simpl.
    + destruct (String.eqb_spec k k'); [congruence|done].
    + destruct (String.eqb_spec k0 k'); [done|]. apply IH.
Qed.

Lemma obj_set_absent k v (o : object) :
  k ∉ o.*1 → obj_set k v o = o ++ [(k, v)].
Proof.
  induction o as [|[k' v'] o IH]; simpl; [done|].
  intros [Hne Hk]%not_elem_of_cons.
  destruct (String.eqb_spec k' k); [congruence|]. by rewrite IH.
Qed.

Lemma obj_get_None k (o : object) : obj_get k o = None ↔ k ∉ o.*1.
Proof.
  induction o as [|[k' v'] o IH]; simpl.
  - split; [intros _; apply not_elem_of_nil|done].
  - rewrite not_elem_of_cons. destruct (String.eqb_spec k' k) as [->|Hne].
    + split; [done|]. intros [? _]. done.
    + rewrite IH. split; [intros ?; split; [congruence|done]|tauto].
Qed.

Lemma obj_get_Some k v (o : object) :
  NoDup o.*1 → obj_get k o = Some v ↔ (k, v) ∈ o.
Proof.
  induction o as [|[k' v'] o IH]; simpl.
  - intros _. split; [done|by intros ?%elem_of_nil].
  - intros [Hk' Ho]%NoDup_cons. rewrite elem_of_cons.
    destruct (String.eqb_spec k' k) as [->|Hne].
    + split; [intros [= ->]; by left|].
      intros [[= ->]|Hin]; [done|].
      exfalso. apply Hk'. by apply (list_elem_of_fmap_2 fst) in Hin.
    + rewrite (IH Ho). split; [by right|]. intros [[= ? ?]|?]; [congruence|done].
Qed.

Lemma obj_set_Forall (P : string * Z → Prop) k v (o : object) :
  Forall P o → P (k, v) → Forall P (obj_set k v o).
Proof.
  intros Ho Hkv. induction Ho as [|[k' v'] o Hx Ho IH]; simpl.
  - by repeat constructor.
  - destruct (String.eqb_spec k' k) as [->|Hne]; by constructor.
Qed.

Lemma obj_set_NoDup k v (o : object) : NoDup o.*1 → NoDup (obj_set k v o).*1.
Proof.
  intros Ho. rewrite obj_set_keys. destruct (decide _); [done|].
  apply NoDup_app. split_and!; [done| |apply NoDup_singleton].
  by intros k' Hk' ->%list_elem_of_singleton.
Qed.

Lemma fromEntries_NoDup (l : list (string * Z)) :
  NoDup l.*1 → fromEntries l = l.
Proof.
  unfold fromEntries.
  assert (∀ acc : object, NoDup (acc ++ l).*1 →
            foldl (λ o kv, obj_set kv.1 kv.2 o) acc l = acc ++ l) as Hacc.
  { induction l as [|[k v] l IH]; intros acc Hnd; simpl.
    - by rewrite app_nil_r.
    - rewrite obj_set_absent.
      + rewrite IH; [by rewrite <- app_assoc|]. by rewrite <- app_assoc.
      + rewrite fmap_app in Hnd. apply NoDup_app in Hnd as (_ & Hdisj & _).
        intros Hin. apply (Hdisj k Hin). by left. }
  intros Hnd. by apply (Hacc []).
Qed.

Lemma filter_partition_Permutation {A} (f : A → bool) (l : list A) :
  List.filter f l ++ List.filter (λ x, negb (f x)) l ≡ₚ l.
Proof.
  induction l as [|x l IH]; simpl; [done|].
  destruct (f x); simpl.
  - by rewrite IH.
  - rewrite <- Permutation_middle. by rewrite IH.
Qed.

(** [Object.entries] lists every own property once. *)
Lemma entries_Permutation (o : object) : entries o ≡ₚ o.
Proof.
  unfold entries. rewrite sort_by_Permutation.
  rewrite <- (filter_partition_Permutation
                (λ kv, bool_decide (is_Some (array_index kv.1))) o) at 3.
  f_equiv. match goal with |- ?a ≡ₚ ?b => assert (a = b) as ->; [|done] end.
  induction o as [|[k v] o IH]; simpl; [done|].
  unfold omap in IH. destruct (array_index k) as [i|]; simpl.
  - f_equal. exact IH.
  - exact IH.
Qed.

Lemma count_map_obj_set k (o : object) :
  count_map o →
  count_map (obj_set k (default 0 (obj_get k o) + 1)%Z o).
Proof.
  intros [Hnd Hpos]. split; [by apply obj_set_NoDup|].
  apply obj_set_Forall; [done|]. simpl.
  destruct (obj_get k o) as [n|] eqn:Hn; simpl; [|lia].
  apply obj_get_Some in Hn; [|done].
  rewrite Forall_forall in Hpos. specialize (Hpos _ Hn). simpl in Hpos. lia.
Qed.

(** What the update of the statistics does to a map of counts: it counts
    the key, and when that leaves more than 1000 keys it keeps the first
    100 entries in descending order of count (so that no entry it drops
    has a larger count than an entry it keeps), and puts the key back with
    count 1 when it was dropped. *)
Lemma updateUsageStats_spec key (stats : object) :
  count_map stats →
  let counted :=
    obj_set key (default 0 (obj_get key stats) + 1)%Z stats in
  (length (keys counted) ≤ 1000 →
     RotationManager.updateUsageStats key stats = counted)
  ∧ (1000 < length (keys counted) →
     ∃ top dropped,
       counted ≡ₚ top ++ dropped
       ∧ length top = 100
       ∧ StronglySorted (λ a b, b.2 ≤ a.2)%Z top
       ∧ (∀ kept gone, kept ∈ top → gone ∈ dropped → (gone.2 ≤ kept.2)%Z)
       ∧ RotationManager.updateUsageStats key stats
         = top ++ (if decide (key ∈ top.*1) then [] else [(key, 1%Z)])).
Proof.
  intros Hstats counted.
  pose proof (count_map_obj_set key stats Hstats) as [Hnd Hpos].
  fold counted in Hnd, Hpos.
  unfold RotationManager.updateUsageStats. fold counted. split.
  - intros Hsmall. by rewrite (proj2 (Nat.ltb_ge _ _) Hsmall).
  - intros Hbig. rewrite (proj2 (Nat.ltb_lt _ _) Hbig).
    set (sorted := sort_by (λ a b : string * Z, b.2 - a.2)%Z (entries counted)).
    assert (sorted ≡ₚ counted) as Hperm
      by (unfold sorted; by rewrite sort_by_Permutation, entries_Permutation).
    assert (StronglySorted (λ a b : string * Z, b.2 ≤ a.2)%Z sorted) as Hsorted.
    { eapply StronglySorted_weaken;
        [|apply (sort_by_sorted (λ a b : string * Z, b.2 - a.2)%Z)].
      - intros a b. simpl. lia.
      - intros a b. lia.
      - intros a b c. lia. }
    unfold slice0. simpl. change (Z.to_nat 100) with 100.
    rewrite length_keys in Hbig.
    assert (length sorted = length counted) as Hlen
      by (by apply Permutation_length).
    assert (NoDup sorted.*1) as Hs by (by rewrite Hperm).
    rewrite <- (take_drop 100 sorted) in Hperm, Hsorted, Hs.
    apply StronglySorted_app in Hsorted as (Hcross & Htop & _).
    assert (NoDup (take 100 sorted).*1) as Hndtop.
    { rewrite fmap_app in Hs. by apply NoDup_app in Hs as [? _]. }
    rewrite (fromEntries_NoDup _ Hndtop).
    exists (take 100 sorted), (drop 100 sorted).
    split_and!; [done|rewrite length_take; lia|done| |].
    + intros kept gone Hk Hg. by apply Hcross.
    + destruct (decide (key ∈ (take 100 sorted).*1)) as [Hin|Hout].
      * apply list_elem_of_fmap in Hin as ([k n] & -> & Hin). simpl.
        pose proof Hin as Hget. apply obj_get_Some in Hget; [|done].
        rewrite Hget.
        assert ((k, n) ∈ counted) as Hc.
        { rewrite <- Hperm. apply elem_of_app. by left. }
        rewrite Forall_forall in Hpos. specialize (Hpos _ Hc). simpl in Hpos.
        destruct (Z.eqb_spec n 0); [lia|]. by rewrite app_nil_r.
      * pose proof Hout as Hget. apply obj_get_None in Hget. rewrite Hget.
        by apply obj_set_absent.
Qed.

Lemma count_map_updateUsageStats key (stats : object) :
  count_map stats → count_map (RotationManager.updateUsageStats key stats).
Proof.
  intros Hstats.
  pose proof (count_map_obj_set key stats Hstats) as [Hnd Hpos].
  destruct (updateUsageStats_spec key stats Hstats) as [Hsmall Hbig].
  destruct (Nat.le_gt_cases
              (length (keys (obj_set key (default 0 (obj_get key stats) + 1)%Z
                               stats))) 1000) as [Hle|Hgt].
  - rewrite (Hsmall Hle). done.
  - destruct (Hbig Hgt) as (top & dropped & Hperm & _ & _ & _ & ->).
    rewrite Hperm in Hnd, Hpos. rewrite fmap_app in Hnd.
    apply NoDup_app in Hnd as (Hndtop & _ & _).
    apply Forall_app in Hpos as [Hpostop _].
    destruct (decide _) as [Hin|Hout]; [by rewrite app_nil_r|].
    split.
    + rewrite fmap_app. apply NoDup_app.
      split_and!; [done| |apply NoDup_singleton].
      by intros k Hk ->%list_elem_of_singleton.
    + apply Forall_app. split; [done|]. by repeat constructor.
Qed.

End UsageStatsFacts.

Section UsageStatsTrim.
Import RotationManager.
Context {A : Type} (stringify : A → string).

(** What [getNext] does to the statistics: it counts the selected key, and
    trims the map when that made it larger than 1000 keys. *)
Lemma getNext_usageStats forceStrategy randomIndex (r r' : t A) item :
  getNext stringify forceStrategy randomIndex r = (Some item, r') →
  usageStats r' = updateUsageStats (stringify item) (usageStats r).
Proof.
  unfold getNext. destruct (items r) as [|first rest]; [done|].
  destruct (match default (rotationStrategy r) forceStrategy with
            | sequential => _ | random => _ | disabled => _ end) as [x index].
  by intros [= <- <-].
Qed.

Lemma getNext_count_map forceStrategy randomIndex (r : t A) :
  JS.count_map (usageStats r) →
  JS.count_map (usageStats (getNext stringify forceStrategy randomIndex r).2).
Proof.
  intros Hr.
  destruct (getNext stringify forceStrategy randomIndex r) as [[item|] r']
    eqn:Hg; simpl.
  - rewrite (getNext_usageStats _ _ _ _ _ Hg).
    by apply count_map_updateUsageStats.
  - revert Hg. unfold getNext. destruct (items r); [by intros [= <-]|].
    destruct (match default (rotationStrategy r) forceStrategy with
              | sequential => _ | random => _ | disabled => _ end).
    done.
Qed.

(** The statistics of a manager are a map of counts in every state it
    reaches from its construction, by any calls of [getNext]. *)
Lemma getNext_times_count_map (n : nat) rnd (l : list A) s :
  JS.count_map (usageStats (getNext_times stringify n rnd (constructor l s)).2).
Proof.
  assert (∀ r : t A, JS.count_map (usageStats r) →
            JS.count_map (usageStats (getNext_times stringify n rnd r).2)) as Hgen.
  { revert rnd. induction n as [|n IH]; intros rnd r Hr; simpl; [done|].
    pose proof (getNext_count_map None (rnd 0) r Hr) as H1.
    destruct (getNext stringify None (rnd 0) r) as [x r1].
    specialize (IH (λ k, rnd (S k)) r1 H1).
    by destruct (getNext_times stringify n (λ k, rnd (S k)) r1). }
  apply Hgen. split; [apply NoDup_nil_2|constructor].
Qed.

(** C9, as the code has it.  The statistics are a map of counts, as in
    every state a manager reaches from its construction
    ([getNext_times_count_map]), and no item has a key that is the name of
    a property of [Object.prototype].  When counting the selected key
    makes the map larger than 1000 keys, the call leaves the top 100: the
    counted entries are split into 100 kept entries and the dropped ones,
    no dropped entry has a larger count than a kept one, the kept entries
    keep their counts, and the map after the call is the kept entries,
    followed by the key just selected with count 1 when it is not among
    them.  So the map then has at most 101 keys and holds the selected
    key.  Otherwise the map is left as counted.  In both cases it is a
    map of counts again. *)
Theorem usage_stats_trimmed_to_101 forceStrategy randomIndex (r r' : t A) item :
  JS.count_map (usageStats r) →
  Forall (λ x, JS.inherited (stringify x) = false) (items r) →
  getNext stringify forceStrategy randomIndex r = (Some item, r') →
  let key := stringify item in
  let counted :=
    JS.obj_set key (default 0 (JS.obj_get key (usageStats r)) + 1)%Z
      (usageStats r) in
  (1000 < length (JS.keys counted) →
     ∃ top dropped,
       counted ≡ₚ top ++ dropped
       ∧ length top = 100
       ∧ (∀ kept gone, kept ∈ top → gone ∈ dropped → (gone.2 ≤ kept.2)%Z)
       ∧ usageStats r'
         = top ++ (if decide (key ∈ top.*1) then [] else [(key, 1%Z)])
       ∧ length (JS.keys (usageStats r')) ≤ 101
       ∧ is_Some (JS.obj_get key (usageStats r')))
  ∧ (length (JS.keys counted) ≤ 1000 → usageStats r' = counted)
  ∧ JS.count_map (usageStats r').
Proof.
  intros Hstats _ Hget key counted.
  pose proof (getNext_count_map forceStrategy randomIndex r Hstats) as Hr'.
  rewrite Hget in Hr'. simpl in Hr'.
  apply getNext_usageStats in Hget. rewrite Hget in *. fold key in Hr' |- *.
  destruct (updateUsageStats_spec key (usageStats r) Hstats) as [Hsmall Hbig].
  fold counted in Hsmall, Hbig.
  split_and!; [|done|done].
  intros Hlen.
  destruct (Hbig Hlen) as (top & dropped & Hperm & Htop & _ & Hmost & Heq).
  exists top, dropped. rewrite Heq in *.
  split_and!; [done|done|done|done| |].
  - rewrite length_keys, length_app, Htop. destruct (decide _); simpl; lia.
  - destruct Hr' as [Hnd _].
    destruct (decide (key ∈ top.*1)) as [Hin|Hout].
    + rewrite app_nil_r in *.
      apply list_elem_of_fmap in Hin as ([k n] & Hk & Hin). simpl in Hk. subst k.
      exists n. by apply obj_get_Some.
    + exists 1%Z. apply obj_get_Some; [done|].
      apply elem_of_app. right. by left.
Qed.

End UsageStatsTrim.

(** C9, as stated, fails.  The 1001st selection over 1001 distinct items:
    counting [item1000] makes the map 1001 keys large, and the call leaves
    101 keys, not 100. *)
Lemma usage_stats_trim_leaves_101 :
  let r := Scenarios.selector_after_1000 in
  let key := "item1000" in
  (RotationManager.getNext id None 0 r).1 = Some key
  ∧ 1000 < length (JS.keys
                     (JS.obj_set key
                        (default 0 (JS.obj_get key (RotationManager.usageStats r)) + 1)%Z
                        (RotationManager.usageStats r)))
  ∧ ¬ length (JS.keys (RotationManager.usageStats
                         (RotationManager.getNext id None 0 r).2)) ≤ 100.
Proof.
  assert (∀ a b : nat, Z.of_nat a = Z.of_nat b → a = b) as Hinj
    by (intros; lia).
  assert (length (JS.keys
                    (RotationManager.usageStats
                       (RotationManager.getNext id None 0
                          Scenarios.selector_after_1000).2))
          = 101%nat) as H101
    by (apply Hinj; vm_compute; reflexivity).
  assert (length (JS.keys
                    (JS.obj_set "item1000"
                       (default 0 (JS.obj_get "item1000"
                                     (RotationManager.usageStats
                                        Scenarios.selector_after_1000)) + 1)%Z
                       (RotationManager.usageStats Scenarios.selector_after_1000)))
          = 1001%nat) as H1001
    by (apply Hinj; vm_compute; reflexivity).
  intros r key. unfold r, key. rewrite H101, H1001.
  split_and!; [vm_compute; reflexivity | lia | lia].
Qed.

(** The keys of the scenario's items are distinct and none is the name of
    a property of [Object.prototype]. *)
Lemma item_key_inj (n m : nat) :
  String.append "item" (NilEmpty.string_of_uint (Nat.to_uint n))
  = String.append "item" (NilEmpty.string_of_uint (Nat.to_uint m)) →
  n = m.
Proof.
  intros H. cbn in H. injection H as H.
  change (NilEmpty.string_of_uint (Nat.to_uint n)
          = NilEmpty.string_of_uint (Nat.to_uint m)) in H.
  assert (Some (Nat.to_uint n) = Some (Nat.to_uint m)) as [= H'].
  { by rewrite <- !NilEmpty.usu, H. }
  by rewrite <- (Unsigned.of_to n), <- (Unsigned.of_to m), H'.
Qed.

Lemma item_key_not_inherited (s : string) :
  JS.inherited (String.append "item" s) = false.
Proof.
  unfold JS.inherited. apply bool_decide_eq_false. simpl. intros H.
  repeat (apply elem_of_cons in H as [H|H]; [discriminate H|]).
  by apply elem_of_nil in H.
Qed.

Lemma selector_after_1000_count_map :
  JS.count_map (RotationManager.usageStats Scenarios.selector_after_1000)
  ∧ Forall (λ x, JS.inherited (id x) = false)
      (RotationManager.items Scenarios.selector_after_1000).
Proof.
  assert (RotationManager.usageStats Scenarios.selector_after_1000
          = (λ n, (String.append "item"
                     (NilEmpty.string_of_uint (Nat.to_uint n)), 1%Z))
              <$> seq 0 1000) as Hstats by reflexivity.
  assert (RotationManager.items Scenarios.selector_after_1000
          = (λ n, String.append "item"
                    (NilEmpty.string_of_uint (Nat.to_uint n)))
              <$> seq 0 1001) as Hitems by reflexivity.
  rewrite Hstats, Hitems. split_and!.
  - split.
    + rewrite <- list_fmap_compose. apply NoDup_fmap_2; [|apply NoDup_seq].
      intros n m. apply item_key_inj.
    + apply Forall_fmap, Forall_forall. intros n _. simpl. lia.
  - apply Forall_fmap, Forall_forall. intros n _. apply item_key_not_inherited.
Qed.

Lemma usage_stats_trimmed_to_101_witness :
  length (JS.keys (RotationManager.usageStats
                     (RotationManager.getNext id None 0
                        Scenarios.selector_after_1000).2)) ≤ 101.
Proof.
  destruct (usage_stats_trimmed_to_101 id None 0%nat
              Scenarios.selector_after_1000
              (RotationManager.getNext id None 0
                 Scenarios.selector_after_1000).2
              "item1000") as [H _].
  - exact (proj1 selector_after_1000_count_map).
  - exact (proj2 selector_after_1000_count_map).
  - vm_compute. reflexivity.
  - destruct H as (top & dropped & _ & _ & _ & _ & H & _).
    + apply Nat2Z.inj_lt. vm_compute. reflexivity.
    + exact H.
Defined.

(** ** The scenarios are states of the code *)

(** Each manager of the scenarios is what the constructor builds from its
    configuration at time 0, followed for [manager_at_ceiling] by the count
    of one message. *)
Example scenarios_are_constructed :
  SMTPManager.constructor (Scenarios.rate_limited 2 60) None None
    Scenarios.one_server 0
  = Some Scenarios.manager_ceiling_2
  ∧ SMTPManager.constructor
      (SMTPManager.mkConfig false RotationManager.sequential false
         (Some 30%Z) (Some 60%Z))
      None None Scenarios.one_server 0
    = Some Scenarios.manager_unlimited
  ∧ SMTPManager.rate_run [SMTPManager.Increment 0 0]
      <$> SMTPManager.constructor (Scenarios.rate_limited 1 600) None None
            Scenarios.one_server 0
    = Some Scenarios.manager_at_ceiling
  ∧ SMTPManager.constructor
      (SMTPManager.mkConfig true RotationManager.sequential true
         (Some 1%Z) (Some 60%Z))
      None None Scenarios.two_servers 0
    = Some Scenarios.manager_two_servers.
Proof. vm_compute. done. Qed.

(** ** SMTPManager: the window counters *)

Section RateLimitFacts.
Import SMTPManager.
Local Open Scope Z_scope.
Implicit Types (m : t) (i : nat) (now : Z).

Lemma within_ceiling_insert m i r r' :
  Forall within_ceiling (perSmtpRateLimiting m) →
  perSmtpRateLimiting m !! i = Some r →
  (within_ceiling r → within_ceiling r') →
  Forall within_ceiling (<[i := r']> (perSmtpRateLimiting m)).
Proof.
  intros Hall Hi Hr. apply Forall_insert; [done|].
  apply Hr. by eapply Forall_lookup_1.
Qed.

Lemma _resetRateLimitCounter_within i now m m' :
  _resetRateLimitCounter i now m = Some m' →
  Forall within_ceiling (perSmtpRateLimiting m) →
  Forall within_ceiling (perSmtpRateLimiting m').
Proof.
  unfold _resetRateLimitCounter.
  destruct (perSmtpRateLimiting m !! i) as [r|] eqn:Hi; simpl; [|done].
  intros [= <-] Hall. simpl. eapply within_ceiling_insert; [done..|].
  unfold within_ceiling. simpl. lia.
Qed.

Lemma _putSMTPIntoCooldown_within i now m m' :
  _putSMTPIntoCooldown i now m = Some m' →
  Forall within_ceiling (perSmtpRateLimiting m) →
  Forall within_ceiling (perSmtpRateLimiting m').
Proof.
  unfold _putSMTPIntoCooldown.
  destruct (perSmtpRateLimiting m !! i) as [r|] eqn:Hi; simpl; [|done].
  intros [= <-] Hall. simpl. by eapply within_ceiling_insert.
Qed.

Lemma _removeSMTPFromCooldown_within i now m m' :
  _removeSMTPFromCooldown i now m = Some m' →
  Forall within_ceiling (perSmtpRateLimiting m) →
  Forall within_ceiling (perSmtpRateLimiting m').
Proof.
  unfold _removeSMTPFromCooldown.
  destruct (perSmtpRateLimiting m !! i) as [r|] eqn:Hi; simpl; [|done].
  intros Hreset Hall.
  eapply _resetRateLimitCounter_within; [exact Hreset|].
  simpl. by eapply within_ceiling_insert.
Qed.

Lemma checkSmtpRateLimit_within i now m res m' :
  checkSmtpRateLimit i now m = Some (res, m') →
  Forall within_ceiling (perSmtpRateLimiting m) →
  Forall within_ceiling (perSmtpRateLimiting m').
Proof.
  unfold checkSmtpRateLimit.
  destruct (rateLimit_enabled (config m)); simpl; [|by intros [= _ <-]].
  destruct (perSmtpRateLimiting m !! i) as [r|] eqn:Hi; simpl; [|done].
  destruct (isCoolingDown r).
  - destruct (_ <=? 0).
    + destruct (_removeSMTPFromCooldown i now m) as [m1|] eqn:H1; simpl; [|done].
      intros [= _ <-]. by eapply _removeSMTPFromCooldown_within.
    + by intros [= _ <-].
  - intros Hcheck Hall.
    assert (∃ m1, (if now - currentMinuteStart r >=? 60000
                   then _resetRateLimitCounter i now m else Some m) = Some m1
                  ∧ Forall within_ceiling (perSmtpRateLimiting m1))
      as (m1 & Hm1 & Hall1).
    { destruct (now - currentMinuteStart r >=? 60000).
      - destruct (_resetRateLimitCounter i now m) as [m1|] eqn:H1; [|done].
        exists m1. split; [done|]. by eapply _resetRateLimitCounter_within.
      - by exists m. }
    rewrite Hm1 in Hcheck. simpl in Hcheck.
    destruct (perSmtpRateLimiting m1 !! i) as [r1|]; simpl in Hcheck; [|done].
    destruct (emailsSentInCurrentMinute r1 >=? emailsPerMinute r1).
    + destruct (_putSMTPIntoCooldown i now m1) as [m2|] eqn:H2;
        simpl in Hcheck; [|done].
      injection Hcheck as _ <-. by eapply _putSMTPIntoCooldown_within.
    + by injection Hcheck as _ <-.
Qed.

Lemma incrementSmtpRateLimit_within i now m m' :
  incrementSmtpRateLimit i now m = Some m' →
  Forall within_ceiling (perSmtpRateLimiting m) →
  Forall within_ceiling (perSmtpRateLimiting m').
Proof.
  unfold incrementSmtpRateLimit.
  destruct (rateLimit_enabled (config m)); simpl; [|by intros [= <-]].
  destruct (perSmtpRateLimiting m !! i) as [r|] eqn:Hi; simpl; [|done].
  intros [= <-] Hall. simpl. eapply within_ceiling_insert; [done..|].
  unfold within_ceiling. simpl. intros [Hc Hr].
  destruct (Z.eqb_spec (emailsPerMinute r) 0); lia.
Qed.

Lemma rollbackSmtpRateLimit_within i m m' :
  rollbackSmtpRateLimit i m = Some m' →
  Forall within_ceiling (perSmtpRateLimiting m) →
  Forall within_ceiling (perSmtpRateLimiting m').
Proof.
  unfold rollbackSmtpRateLimit.
  destruct (rateLimit_enabled (config m)); simpl; [|by intros [= <-]].
  destruct (perSmtpRateLimiting m !! i) as [r|] eqn:Hi; simpl; [|done].
  destruct (Z.gtb_spec (emailsSentInCurrentMinute r) 0); [|by intros [= <-]].
  intros [= <-] Hall. simpl. eapply within_ceiling_insert; [done..|].
  unfold within_ceiling. simpl. lia.
Qed.

Lemma rate_step_within m o :
  Forall within_ceiling (perSmtpRateLimiting m) →
  Forall within_ceiling (perSmtpRateLimiting (rate_step m o)).
Proof.
  intros Hall. unfold rate_step. destruct o as [i now|i|i now|i now|i now].
  - destruct (incrementSmtpRateLimit i now m) eqn:Hop; simpl; [|done].
    by eapply incrementSmtpRateLimit_within.
  - destruct (rollbackSmtpRateLimit i m) eqn:Hop; simpl; [|done].
    by eapply rollbackSmtpRateLimit_within.
  - destruct (_resetRateLimitCounter i now m) eqn:Hop; simpl; [|done].
    by eapply _resetRateLimitCounter_within.
  - destruct (checkSmtpRateLimit i now m) as [[res m']|] eqn:Hop; simpl; [|done].
    by eapply checkSmtpRateLimit_within.
  - destruct (_removeSMTPFromCooldown i now m) eqn:Hop; simpl; [|done].
    by eapply _removeSMTPFromCooldown_within.
Qed.

Lemma rate_run_within ops m :
  Forall within_ceiling (perSmtpRateLimiting m) →
  Forall within_ceiling (perSmtpRateLimiting (rate_run ops m)).
Proof.
  unfold rate_run. revert m.
  induction ops as [|o ops IH]; intros m Hall; simpl; [done|].
  by apply IH, rate_step_within.
Qed.

Lemma constructor_within cfg retries delay servers now m :
  (∀ z, rateLimit_emailsPerMinute cfg = Some z → 0 ≤ z) →
  constructor cfg retries delay servers now = Some m →
  Forall within_ceiling (perSmtpRateLimiting m).
Proof.
  intros Hcfg. unfold constructor. destruct servers as [|s servers]; [done|].
  intros [= <-]. simpl. apply Forall_fmap, Forall_forall. intros j _.
  unfold within_ceiling, initialRateLimit, or_default. simpl.
  destruct (rateLimit_emailsPerMinute cfg) as [z|]; [|lia].
  specialize (Hcfg z eq_refl). destruct (Z.eqb_spec z 0); lia.
Qed.

(** C1.  For a manager built with a ceiling that is not negative (none
    configured, or 0, stand for 30), after any sequence of increments,
    rollbacks, window resets, rate-limit checks and cooldown releases, on
    any servers and at any times, the window counter of every server is at
    most its ceiling.  The empty sequence is the initial state. *)
Theorem rate_counter_never_exceeds_ceiling
    cfg retries delay servers now m (ops : list RateOp) i r :
  (∀ z, rateLimit_emailsPerMinute cfg = Some z → 0 ≤ z) →
  constructor cfg retries delay servers now = Some m →
  perSmtpRateLimiting (rate_run ops m) !! i = Some r →
  emailsSentInCurrentMinute r ≤ emailsPerMinute r.
Proof.
  intros Hcfg Hm Hr.
  pose proof (rate_run_within ops m (constructor_within _ _ _ _ _ _ Hcfg Hm))
    as Hall.
  pose proof (Forall_lookup_1 _ _ _ _ Hall Hr) as [_ [_ Hle]]. done.
Qed.

Lemma rate_counter_never_exceeds_ceiling_witness :
  let m := rate_run [Increment 0 1; Increment 0 2; Increment 0 3]
             Scenarios.manager_ceiling_2 in
  let r := mkRateLimit 0 2 0 false false None 60000 2 3 0 in
  perSmtpRateLimiting m !! 0%nat = Some r
  ∧ emailsSentInCurrentMinute r ≤ emailsPerMinute r.
Proof.
  split; [reflexivity|].
  apply (rate_counter_never_exceeds_ceiling
           (Scenarios.rate_limited 2 60) None None Scenarios.one_server 0
           Scenarios.manager_ceiling_2
           [Increment 0 1; Increment 0 2; Increment 0 3] 0%nat
           (mkRateLimit 0 2 0 false false None 60000 2 3 0)).
  - intros z [= <-]. lia.
  - reflexivity.
  - reflexivity.
Defined.

(** X15.  The rollback law where it holds: an increment from a counter
    below the ceiling, followed by the rollback, gives the counter back. *)
Lemma rollback_below_ceiling i now1 m r :
  rateLimit_enabled (config m) = true →
  perSmtpRateLimiting m !! i = Some r →
  0 ≤ emailsSentInCurrentMinute r < emailsPerMinute r →
  counter i (rate_run [Increment i now1; Rollback i] m)
  = Some (emailsSentInCurrentMinute r).
Proof.
  intros Hen Hr Hc. unfold rate_run, counter. simpl.
  unfold rate_step at 2, incrementSmtpRateLimit. rewrite Hen, Hr. simpl.
  unfold rate_step, rollbackSmtpRateLimit. simpl. rewrite Hen. simpl.
  rewrite list_lookup_insert_eq by (by eapply lookup_lt_Some). simpl.
  destruct (Z.eqb_spec (emailsPerMinute r) 0); [lia|].
  rewrite Z.min_l by lia.
  destruct (Z.gtb_spec (emailsSentInCurrentMinute r + 1) 0); [|lia]. simpl.
  rewrite list_lookup_insert_eq
    by (rewrite length_insert; by eapply lookup_lt_Some).
  simpl. f_equal. lia.
Qed.

(** C2.  With a ceiling of 2: two sends have counted themselves and the
    counter is at the ceiling.  A third send, which passed its check
    before they did, increments (the counter stays 2) and fails; its
    rollback leaves 1, one less than before its increment. *)
Theorem rollback_at_ceiling_loses_a_send :
  let m := rate_run [Increment 0 1; Increment 0 2] Scenarios.manager_ceiling_2 in
  constructor (Scenarios.rate_limited 2 60) None None Scenarios.one_server 0
  = Some Scenarios.manager_ceiling_2
  ∧ counter 0 m = Some 2
  ∧ counter 0 (rate_run [Increment 0 3] m) = Some 2
  ∧ counter 0 (rate_run [Increment 0 3; Rollback 0] m) = Some 1.
Proof. vm_compute. done. Qed.

End RateLimitFacts.

(** ** SMTPManager: health *)

Section HealthFacts.
Import SMTPManager.
Local Open Scope Z_scope.
Implicit Types (m : t) (i : nat) (now : Z) (h : Health).

Lemma markSmtpHealthy_lookup i rt now m h :
  smtpHealth m !! i = Some h →
  ∃ m' h', markSmtpHealthy i rt now m = Some m'
           ∧ smtpHealth m' = <[i := h']> (smtpHealth m)
           ∧ is_healthy h' = true
           ∧ consecutive_failures h' = 0.
Proof.
  intros Hi. unfold markSmtpHealthy. rewrite Hi. simpl. eauto 10.
Qed.

Lemma markSmtpUnhealthy_lookup i now m h :
  smtpHealth m !! i = Some h →
  ∃ m' h', markSmtpUnhealthy i now m = Some m'
           ∧ smtpHealth m' = <[i := h']> (smtpHealth m)
           ∧ consecutive_failures h' = consecutive_failures h + 1
           ∧ is_healthy h'
             = (if consecutive_failures h + 1 >=? 3 then false
                else is_healthy h).
Proof.
  intros Hi. unfold markSmtpUnhealthy. rewrite Hi. simpl. eauto 10.
Qed.

Lemma health_step_consistent m o :
  Forall health_consistent (smtpHealth m) →
  Forall health_consistent (smtpHealth (health_step m o)).
Proof.
  intros Hall. unfold health_step. destruct o as [i rt now|i now].
  - destruct (smtpHealth m !! i) as [h|] eqn:Hi.
    + destruct (markSmtpHealthy_lookup i rt now m h Hi)
        as (m' & h' & Hm' & Hs & Hh & Hf).
      rewrite Hm'. simpl. rewrite Hs. apply Forall_insert; [done|].
      unfold health_consistent. rewrite Hh, Hf. split; [lia|]. split; [lia|done].
    + unfold markSmtpHealthy. by rewrite Hi.
  - destruct (smtpHealth m !! i) as [h|] eqn:Hi.
    + destruct (markSmtpUnhealthy_lookup i now m h Hi)
        as (m' & h' & Hm' & Hs & Hf & Hh).
      rewrite Hm'. simpl. rewrite Hs. apply Forall_insert; [done|].
      pose proof (Forall_lookup_1 _ _ _ _ Hall Hi) as [H0 Hiff].
      unfold health_consistent. rewrite Hh, Hf. split; [lia|].
      destruct (Z.geb_spec (consecutive_failures h + 1) 3).
      * split; [done|lia].
      * rewrite Hiff. lia.
    + unfold markSmtpUnhealthy. by rewrite Hi.
Qed.

Lemma health_run_consistent ops m :
  Forall health_consistent (smtpHealth m) →
  Forall health_consistent (smtpHealth (health_run ops m)).
Proof.
  unfold health_run. revert m.
  induction ops as [|o ops IH]; intros m Hall; simpl; [done|].
  by apply IH, health_step_consistent.
Qed.

Lemma constructor_consistent cfg retries delay servers now m :
  constructor cfg retries delay servers now = Some m →
  Forall health_consistent (smtpHealth m).
Proof.
  unfold constructor. destruct servers as [|s servers]; [done|].
  intros [= <-]. simpl. apply Forall_replicate.
  unfold health_consistent. simpl. split; [lia|]. split; [lia|done].
Qed.

(** C5.  In any state the manager reaches from its construction by
    successes and failures of sends, for a server [i] that is healthy:
    a failure makes it unhealthy exactly when its count of consecutive
    failures reaches 3, that is when it had 2 before; with fewer it stays
    healthy.  For any server, healthy or not, a success makes it healthy
    and sets the count to 0. *)
Theorem health_flips_at_three_failures
    cfg retries delay servers now0 m0 (ops : list HealthOp) i h :
  constructor cfg retries delay servers now0 = Some m0 →
  let m := health_run ops m0 in
  smtpHealth m !! i = Some h →
  (∀ now, ∃ m' h',
     markSmtpUnhealthy i now m = Some m'
     ∧ smtpHealth m' !! i = Some h'
     ∧ consecutive_failures h' = consecutive_failures h + 1
     ∧ (is_healthy h = true →
        (is_healthy h' = false ↔ consecutive_failures h' = 3)
        ∧ (is_healthy h' = false ↔ consecutive_failures h = 2)
        ∧ (is_healthy h' = true ↔ consecutive_failures h < 2)))
  ∧ (∀ rt now, ∃ m' h',
       markSmtpHealthy i rt now m = Some m'
       ∧ smtpHealth m' !! i = Some h'
       ∧ is_healthy h' = true
       ∧ consecutive_failures h' = 0).
Proof.
  intros Hm0 m Hi.
  pose proof (health_run_consistent ops m0 (constructor_consistent _ _ _ _ _ _ Hm0))
    as Hall.
  pose proof (Forall_lookup_1 _ _ _ _ Hall Hi) as [H0 Hiff].
  pose proof (lookup_lt_Some _ _ _ Hi) as Hlt.
  split.
  - intros now.
    destruct (markSmtpUnhealthy_lookup i now m h Hi)
      as (m' & h' & Hm' & Hs & Hf & Hh).
    exists m', h'. rewrite Hs, list_lookup_insert_eq by done.
    split_and!; [done..|].
    intros Hhealthy. rewrite Hh, Hf, Hhealthy.
    apply Hiff in Hhealthy.
    destruct (Z.geb_spec (consecutive_failures h + 1) 3);
      split_and!; split; (done || lia).
  - intros rt now.
    destruct (markSmtpHealthy_lookup i rt now m h Hi)
      as (m' & h' & Hm' & Hs & Hh & Hf).
    exists m', h'. rewrite Hs, list_lookup_insert_eq by done. done.
Qed.

Lemma health_flips_at_three_failures_witness :
  let m := health_run [Failure 0 1; Failure 0 2] Scenarios.manager_ceiling_2 in
  smtpHealth m !! 0%nat = Some (mkHealth 2 None (Some 2) true [])
  ∧ ∃ m' h',
      markSmtpUnhealthy 0 3 m = Some m'
      ∧ smtpHealth m' !! 0%nat = Some h'
      ∧ consecutive_failures h' = 3
      ∧ is_healthy h' = false.
Proof.
  split; [reflexivity|].
  destruct (health_flips_at_three_failures
              (Scenarios.rate_limited 2 60) None None Scenarios.one_server 0
              Scenarios.manager_ceiling_2 [Failure 0 1; Failure 0 2] 0%nat
              (mkHealth 2 None (Some 2) true []) eq_refl eq_refl)
    as [Hfail _].
  destruct (Hfail 3) as (m' & h' & Hm' & Hh' & Hcount & Hflip).
  exists m', h'. split_and!; [done|done|done|].
  by apply Hflip.
Defined.

End HealthFacts.

(** ** SMTPManager: sending *)

Section SendFacts.
Import SMTPManager.
Local Open Scope Z_scope.
Variable env : Env.
Variable I : t → Prop.
Variable ok : CheckResult → Prop.
Hypothesis Hstable : stable env I ok.

Lemma getNextSMTP_throws rnd m e m' :
  getNextSMTP rnd m = (Throw e, m') →
  e = NoAvailableServers ∨ e = TypeError.
Proof.
  unfold getNextSMTP, getNextSmtpIndex.
  repeat case_match; intros; simplify_eq; auto.
Qed.

(** The invariant holds of a state reached by steps that keep it. *)
Ltac solve_I :=
  repeat (simpl; first
    [ assumption
    | apply (stable_others _ _ _ Hstable)
    | apply (stable_emailCounter _ _ _ Hstable)
    | eapply (stable_increment _ _ _ Hstable); [|eassumption]
    | eapply (stable_healthy _ _ _ Hstable); [|eassumption]
    | eapply (stable_rollback _ _ _ Hstable); [|eassumption]
    | eapply (stable_unhealthy _ _ _ Hstable); [|eassumption]
    | match goal with
      | H : checkSmtpRateLimit _ _ _ = Some (_, ?t) |- I ?t =>
          refine (proj1 (stable_check _ _ _ Hstable _ _ _ _ _ _ H))
      | H : getNextSMTP ?rnd ?M = (_, ?t) |- I ?t =>
          let HH := fresh in
          pose proof (stable_select _ _ _ Hstable rnd M) as HH;
          rewrite H in HH; apply HH; clear HH
      end ]).

Ltac solve_ok :=
  match goal with
  | H : checkSmtpRateLimit _ _ _ = Some (?c, _) |- ok ?c =>
      refine (proj2 (stable_check _ _ _ Hstable _ _ _ _ _ _ H)); solve_I
  end.

Lemma sendMail_deliver_spec i startTime x :
  I (manager (world x)) →
  I (manager (world (sendMail_deliver env i startTime x).2))
  ∧ ∃ events, log (sendMail_deliver env i startTime x).2 = log x ++ events
              ∧ delivers i events (sendMail_deliver env i startTime x).1.
Proof.
  intros HI. destruct Hstable as [Ho Hc Hs Hch Hinc Hh Hrb Hu].
  unfold sendMail_deliver, async, bind, step_, step, suspend, emit, try_catch,
    transmit, get_clock, ret, throw, bind, suspend.
  simpl.
  repeat case_match; simplify_eq/=.
  all: repeat match goal with
              | H : _ <$> ?o = _ |- _ => destruct o eqn:?; simplify_eq/=
              end.
  all: split;
    [ by solve_I
    | eexists; split;
      [ first [ symmetry; apply app_nil_r | by rewrite <- ?app_assoc ]
      | first [ constructor
              | apply (delivers_broken_table _ true)
              | apply (delivers_broken_table _ false) ] ] ].
Qed.

Lemma sendMail_fuel_spec fuel mailOptions emailNumber retryCount x :
  5 < Z.of_nat fuel + retryCount →
  0 ≤ retryCount ≤ 5 →
  I (manager (world x)) →
  I (manager (world (sendMail_fuel env fuel mailOptions emailNumber retryCount x).2))
  ∧ ∃ events,
      log (sendMail_fuel env fuel mailOptions emailNumber retryCount x).2
      = log x ++ events
      ∧ sends_from ok retryCount events
          (sendMail_fuel env fuel mailOptions emailNumber retryCount x).1.
Proof.
  revert emailNumber retryCount x.
  induction fuel as [|fuel IH]; intros emailNumber retryCount x Hfuel Hk HI;
    [lia|].
  pose proof Hstable as [Ho Hc Hs Hch Hinc Hh Hrb Hu].
  destruct emailNumber as [n|].
  all: cbn [sendMail_fuel].
  all: unfold async, bind, step, select, suspend, sleep, emit, get_clock, ret,
         throw, getNextEmailNumber, bind, suspend.
  all: simpl.
  all: repeat case_match; simplify_eq/=.
  all: repeat match goal with
              | H : negb _ = true |- _ => apply negb_true_iff in H
              | H : negb _ = false |- _ => apply negb_false_iff in H
              | H : (_ >=? _) = true |- _ => apply Z.geb_le in H
              | H : (_ >=? _) = false |- _ =>
                  rewrite Z.geb_leb in H; apply Z.leb_gt in H
              | H : (_ >? _) = true |- _ =>
                  rewrite Z.gtb_ltb in H; apply Z.ltb_lt in H
              | H : (_ >? _) = false |- _ =>
                  rewrite Z.gtb_ltb in H; apply Z.ltb_ge in H
              end.
  all: try match goal with
           | |- context [sendMail_deliver env ?i ?st ?X] =>
               let HX := fresh "HX" in
               assert (I (manager (world X))) as HX;
               [|destruct (sendMail_deliver_spec i st X HX)
                   as (HI' & ev & Hlog & Hev);
                 split; [exact HI'|]]
           | |- context [sendMail_fuel env _ ?mo ?en ?k ?X] =>
               let HX := fresh "HX" in
               assert (I (manager (world X))) as HX;
               [|destruct (IH en k X ltac:(lia) ltac:(lia) HX)
                   as (HI' & ev & Hlog & Hev);
                 split; [exact HI'|]]
           end.
  all: try (by solve_I).
  all: try (rewrite Hlog; simpl; eexists; split;
            [by rewrite <- !app_assoc|]; simpl).
  all: try (split; [by solve_I|]; eexists; split;
            [first [symmetry; apply app_nil_r | reflexivity]|]).
  all: try (apply sends_stopped; by auto).
  all: try match goal with
           | H : getNextSMTP _ _ = (Throw _, _) |- _ =>
               apply sends_stopped; right;
               by apply getNextSMTP_throws in H
           end.
  all: try (apply sends_exhausted; [solve_ok|done|lia]).
  all: try (apply sends_retry; [solve_ok|done|lia|lia|done]).
  all: try (apply sends_delivery;
            [solve_ok
            |first [by left | right; split_and!; (done || lia)]
            |done]).
Qed.

End SendFacts.

Section SendLogFacts.
Import SMTPManager.
Local Open Scope Z_scope.



Lemma transmissions_app l1 l2 :
  transmissions (l1 ++ l2) = (transmissions l1 + transmissions l2)%nat.
Proof. unfold transmissions. by rewrite List.filter_app, length_app. Qed.

Lemma delivers_counts i events r :
  delivers i events r →
  checks events = 0%nat ∧ sleeps events = 0%nat
  ∧ (transmissions events ≤ 1)%nat
  ∧ (∀ n, r ≠ Throw (RateLimitExceeded n)) ∧ r ≠ Throw OutOfFuel
  ∧ (∀ j, Transmitted j ∈ events →
       j = i ∧ ∃ post, events = Incremented i :: Transmitted i :: post).
Proof.
  assert (∀ j post, Transmitted j ∈ Incremented i :: Transmitted i :: post →
                    Transmitted j ∉ post →
                    j = i ∧ ∃ post', Incremented i :: Transmitted i :: post
                                     = Incremented i :: Transmitted i :: post')
    as Hin.
  { intros j post Hj Hpost. split; [|by eexists].
    apply elem_of_cons in Hj as [?|Hj]; [done|].
    apply elem_of_cons in Hj as [[= ->]|Hj]; done. }
  destruct 1 as [| |code|[]]; simpl;
    (split_and!; [done|done|unfold transmissions; simpl; lia|done|done|]).
  - by intros j ?%elem_of_nil.
  - intros j Hj. apply Hin; [done|]. apply not_elem_of_nil.
  - intros j Hj. apply Hin; [done|].
    by intros [?|?%elem_of_nil]%elem_of_cons.
  - intros j Hj. apply Hin; [done|].
    by intros [?|?%elem_of_nil]%elem_of_cons.
  - intros j Hj. apply Hin; [done|]. apply not_elem_of_nil.
Qed.

(** The log of a send is a number of backoff rounds followed by the end of
    the last attempt, which has at most one check and no sleep. *)
Lemma sends_from_rounds ok k events r :
  sends_from ok k events r →
  k ≤ 5 →
  ∃ cs last,
    events = backoff_rounds k cs ++ last
    ∧ Z.of_nat (length cs) ≤ 5 - k
    ∧ Forall (λ ic, allowed ic.2 = false ∧ 0 < waitTime ic.2) cs
    ∧ (checks last ≤ 1)%nat ∧ sleeps last = 0%nat
    ∧ (transmissions events ≤ 1)%nat
    ∧ r ≠ Throw OutOfFuel
    ∧ (∀ n, r = Throw (RateLimitExceeded n) →
         n = 5 ∧ Z.of_nat (length cs) = 5 - k
         ∧ (∃ i c, last = [Checked i c] ∧ allowed c = false))
    ∧ (∀ i c rest, last = Checked i c :: rest → allowed c = false →
         Z.of_nat (length cs) = 5 - k →
         r = Throw (RateLimitExceeded 5) ∧ rest = []).
Proof.
  induction 1 as [k e He|k i c events r Hok Hc Hk Hw Hs IH|k i c Hok Hc Hk
                 |k i c events r Hok Hc Hd]; intros Hk5.
  - exists [], []. unfold checks, sleeps, transmissions. simpl.
    split_and!; try done; try lia.
    + intros Heq. destruct He as [-> | [-> | ->]]; done.
    + intros n Heq. destruct He as [-> | [-> | ->]]; done.
  - destruct IH as (cs & last & -> & Hlen & Hall & Hch & Hsl & Htr & Hf & Hex & Hlast);
      [lia|].
    exists ((i, c) :: cs), last. simpl. split_and!; try done.
    + lia.
    + by constructor.
    + intros n Hn. destruct (Hex n Hn) as (-> & ? & ?). split_and!; [done|lia|done].
    + intros j c' rest Hl Hc' Hlen'. apply (Hlast j c' rest); [done..|lia].
  - exists [], [Checked i c]. unfold checks, sleeps, transmissions. simpl.
    split_and!; try done; try lia.
    + intros n [= <-]. split_and!; [lia|lia|eauto].
    + intros j c' rest [= -> -> <-] _ _. split; [|done]. do 2 f_equal. lia.
  - destruct (delivers_counts _ _ _ Hd) as (Hch & Hsl & Htr & Hnr & Hnf & _).
    exists [], (Checked i c :: events). simpl.
    unfold checks, sleeps, transmissions in *. simpl.
    split_and!; try done; try lia.
    + intros n ->. by destruct (Hnr n).
    + intros j c' rest [= -> -> ->] Hc' Hlen.
      destruct Hc as [Hc|(_ & ? & _)]; [congruence|lia].
Qed.





End SendLogFacts.

(** ** SMTPManager: the cooldown durations are never changed *)

Section CooldownFacts.
Import SMTPManager.
Local Open Scope Z_scope.
Implicit Types (m : t) (i : nat) (now : Z).











Lemma stable_trivially env : stable env (λ _, True) (λ _, True).
Proof. by split. Qed.

(** The constructor gives positive cooldown durations when the configured
    cooldown period is not negative (none, or 0, stand for 60 seconds). *)
Lemma constructor_cooldowns_positive cfg retries delay servers now m :
  (∀ z, rateLimit_cooldownPeriod cfg = Some z → 0 ≤ z) →
  constructor cfg retries delay servers now = Some m →
  cooldowns_positive m.
Proof.
  intros Hcfg. unfold constructor. destruct servers as [|s servers]; [done|].
  intros [= <-]. unfold cooldowns_positive. simpl.
  apply Forall_fmap, Forall_forall. intros j _.
  unfold initialRateLimit, or_default. simpl.
  destruct (rateLimit_cooldownPeriod cfg) as [z|]; [|lia].
  specialize (Hcfg z eq_refl). destruct (Z.eqb_spec z 0); lia.
Qed.

End CooldownFacts.

(** ** SMTPManager: the retry discipline of [sendMail] *)

Section SendDiscipline.
Import SMTPManager.
Local Open Scope Z_scope.




(** One call of [sendMail] hands the message to the transport at most
    once: a failed transmission is not repeated by [sendMail]. *)
Lemma sendMail_transmits_at_most_once env mailOptions (x : Exec) :
  (transmissions (log (sendMail env mailOptions x).2)
   ≤ transmissions (log x) + 1)%nat.
Proof.
  destruct (sendMail_fuel_spec env _ _ (stable_trivially env) 6 mailOptions
              None 0 x) as (_ & ev & Hlog & Hsends); [lia|lia|done|].
  fold (sendMail env mailOptions) in Hlog, Hsends.
  destruct (sends_from_rounds _ _ _ _ Hsends) as
    (cs & last & Hev & _ & _ & _ & _ & Htr & _); [lia|].
  rewrite Hlog, transmissions_app. lia.
Qed.



(** The server is at its ceiling and cools down for 10 minutes: the send
    checks 6 times, sleeps 5 times for 30 seconds, and fails with
    [RateLimitExceeded] without a transmission. *)
Example sendMail_exhausts_after_five_retries :
  let run := sendMail (Scenarios.alone Delivered) Scenarios.mail
               (start (mkWorld Scenarios.manager_at_ceiling 0)) in
  run.1 = Throw (RateLimitExceeded 5)
  ∧ checks (log run.2) = 6%nat
  ∧ List.filter (λ e, match e with Slept _ => true | _ => false end) (log run.2)
    = [Slept 30000; Slept 30000; Slept 30000; Slept 30000; Slept 30000]
  ∧ transmissions (log run.2) = 0%nat
  ∧ clock (world run.2) = 150000.
Proof. vm_compute. done. Qed.

End SendDiscipline.

(** ** SMTPManager: the retry wrapper *)

Section RetryFacts.
Import SMTPManager.
Local Open Scope Z_scope.

(** C7.  The transport fails every transmission with the same error code,
    be it an authentication failure, a refused connection or an unknown
    host.  [sendMailWithRetry], with the default of 3 attempts, transmits
    3 times, sleeping 1 and 2 seconds in between, before it lets the error
    through: the wrapper does not look at the error code.  ([sendMail]
    itself transmits at most once, see [sendMail_transmits_at_most_once].) *)
Theorem retry_wrapper_retries_terminal_errors (code : ErrorCode) :
  let run := sendMailWithRetry (Scenarios.alone (Failed code)) Scenarios.mail
               None (start (mkWorld Scenarios.manager_unlimited 0)) in
  run.1 = Throw (TransportError code)
  ∧ transmissions (log run.2) = 3%nat
  ∧ List.filter (λ e, match e with
                      | Transmitted _ | Slept _ => true
                      | _ => false
                      end) (log run.2)
    = [Transmitted 0; Slept 1000; Transmitted 0; Slept 2000; Transmitted 0].
Proof. destruct code; vm_compute; done. Qed.

(** A single [sendMail] lets the error of a failed transmission through at
    once, after its rollback. *)
Example sendMail_propagates_a_failure (code : ErrorCode) :
  let run := sendMail (Scenarios.alone (Failed code)) Scenarios.mail
               (start (mkWorld Scenarios.manager_unlimited 0)) in
  run.1 = Throw (TransportError code)
  ∧ log run.2
    = [Checked 0 (mkCheck true 0 None); Incremented 0; Transmitted 0;
       RolledBack 0].
Proof. destruct code; vm_compute; done. Qed.

End RetryFacts.

(** ** SMTPManager: the candidate list *)

Section SelectionFacts.
Import SMTPManager.
Local Open Scope Z_scope.

Lemma compareSmtps_ranked a b : compareSmtps a b ≤ 0 ↔ ranked_before a b.
Proof.
  unfold compareSmtps, ranked_before.
  destruct (Z.eqb_spec (priority (smtp_config a)) (priority (smtp_config b)));
    simpl; lia.
Qed.

Lemma allSmtps_rows m all s :
  allSmtps m = Some all → s ∈ all →
  smtpHealth m !! smtp_index s = Some (smtp_health s).
Proof.
  unfold allSmtps. intros Hall Hs. apply mapM_Some in Hall.
  apply list_elem_of_lookup in Hs as [j Hj].
  destruct (Forall2_lookup_r _ _ _ _ _ Hall Hj) as (index & _ & Hrow).
  destruct (smtpConfigs m !! index); simpl in Hrow; [|done].
  destruct (smtpHealth m !! index) eqn:Hh; simpl in Hrow; [|done].
  destruct (perSmtpRateLimiting m !! index); simpl in Hrow; [|done].
  by injection Hrow as <-.
Qed.

(** X18.  The candidate list holds only healthy servers, with and without the
    fallback, and each candidate carries the row of the health table of its
    server. *)
Lemma getAvailableSMTPs_healthy m l :
  getAvailableSMTPs m = Some l →
  Forall (λ s, is_healthy (smtp_health s) = true
               ∧ smtpHealth m !! smtp_index s = Some (smtp_health s)) l.
Proof.
  unfold getAvailableSMTPs.
  destruct (allSmtps m) as [all|] eqn:Hall; simpl; [|done].
  assert (∀ l', (∀ s, s ∈ l' → s ∈ all ∧ is_healthy (smtp_health s) = true) →
                Forall (λ s, is_healthy (smtp_health s) = true
                             ∧ smtpHealth m !! smtp_index s
                               = Some (smtp_health s)) l') as Hgood.
  { intros l' Hl'. apply Forall_forall. intros s Hs.
    destruct (Hl' s Hs) as [Hin Hh]. split; [done|]. by eapply allSmtps_rows. }
  assert (∀ s, s ∈ List.filter (λ s, is_healthy (smtp_health s)) all →
               s ∈ all ∧ is_healthy (smtp_health s) = true) as Hhealthy.
  { intros s Hs. apply list_elem_of_In, List.filter_In in Hs as [Hs Hh].
    by apply list_elem_of_In in Hs. }
  assert (∀ s, s ∈ List.filter (isAvailable (config m)) all →
               s ∈ all ∧ is_healthy (smtp_health s) = true) as Havailable.
  { intros s Hs. apply list_elem_of_In, List.filter_In in Hs as [Hs Hh].
    apply list_elem_of_In in Hs. split; [done|].
    unfold isAvailable in Hh.
    destruct (rateLimit_enabled (config m)); simpl in Hh; [|done].
    by apply andb_true_iff in Hh as [[? _]%andb_true_iff _]. }
  intros Hl.
  assert (l = List.filter (λ s, is_healthy (smtp_health s)) all
          ∨ l = JS.sort_by compareSmtps (List.filter (isAvailable (config m)) all))
    as [->| ->].
  { destruct (List.filter (isAvailable (config m)) all);
      [destruct (List.filter (λ s, is_healthy (smtp_health s)) all)|];
      injection Hl as <-; auto. }
  - by apply Hgood.
  - apply Hgood. intros s Hs. apply Havailable.
    by rewrite sort_by_Permutation in Hs.
Qed.

(** X19.  Without the fallback, that is when a server passes the filter, the
    list is sorted by descending priority, ties broken by ascending count
    of consecutive failures. *)
Lemma getAvailableSMTPs_sorted m all l :
  allSmtps m = Some all →
  List.filter (isAvailable (config m)) all ≠ [] →
  getAvailableSMTPs m = Some l →
  StronglySorted ranked_before l.
Proof.
  unfold getAvailableSMTPs. intros -> Hne. simpl.
  destruct (List.filter (isAvailable (config m)) all) as [|s l'] eqn:Hf; [done|].
  intros [= <-].
  apply (StronglySorted_weaken (λ a b, compareSmtps a b ≤ 0));
    [intros a b; apply compareSmtps_ranked|].
  apply (sort_by_sorted compareSmtps (s :: l')).
  - intros a b. unfold compareSmtps.
    destruct (Z.eqb_spec (priority (smtp_config a)) (priority (smtp_config b)));
      destruct (Z.eqb_spec (priority (smtp_config b)) (priority (smtp_config a)));
      simpl; lia.
  - intros a b c. rewrite !compareSmtps_ranked. unfold ranked_before. lia.
Qed.

(** C6.  Two healthy servers, the second of higher priority.  While none
    is cooling down the list is sorted: the second comes first.  Once both
    are cooling down the list is the fallback, all healthy servers, and it
    is returned in table order, the lower priority first: the fallback
    list is not sorted. *)
Theorem fallback_candidates_not_sorted :
  (λ s, (smtp_index s, priority (smtp_config s)))
    <$> default [] (getAvailableSMTPs Scenarios.manager_two_servers)
  = [(1%nat, 2); (0%nat, 1)]
  ∧ Forall (λ r, isCoolingDown r = true)
      (perSmtpRateLimiting Scenarios.manager_two_cooling)
  ∧ (λ s, (smtp_index s, priority (smtp_config s)))
      <$> default [] (getAvailableSMTPs Scenarios.manager_two_cooling)
    = [(0%nat, 1); (1%nat, 2)]
  ∧ match getAvailableSMTPs Scenarios.manager_two_cooling with
    | Some l => ¬ StronglySorted ranked_before l
    | None => False
    end.
Proof.
  split_and!.
  - vm_compute. done.
  - vm_compute. repeat constructor.
  - vm_compute. done.
  - destruct (getAvailableSMTPs Scenarios.manager_two_cooling) as [l|] eqn:Hl;
      [|by vm_compute in Hl].
    vm_compute in Hl. injection Hl as <-.
    intros Hs. apply StronglySorted_cons in Hs as [Hhd _].
    apply Forall_cons in Hhd as [Hr _].
    unfold ranked_before in Hr. simpl in Hr. lia.
Qed.

End SelectionFacts.

(** ** SMTPManager: sequential selection of the server *)

Section ServerRotationFacts.
Import SMTPManager.
Local Open Scope Z_scope.
Implicit Types (m : t) (l : list Candidate).

(** One sequential selection at an index inside the candidate list. *)
Lemma getNextSmtpIndex_sequential m l (i : nat) x rnd :
  rotation_strategy (config m) ≠ RotationManager.random →
  getAvailableSMTPs m = Some l →
  currentSmtpIndex m = Z.of_nat i →
  l !! i = Some x →
  getNextSmtpIndex rnd m
  = (Ok (smtp_index x),
     with_currentSmtpIndex
       (if decide (S i < length l)%nat then Z.of_nat (S i) else 0) m).
Proof.
  intros Hs Hl Hi Hx. unfold getNextSmtpIndex. rewrite Hl.
  pose proof (lookup_lt_Some _ _ _ Hx) as Hlt.
  destruct l as [|first rest] eqn:Heq; [done|]. rewrite <- Heq in *.
  assert (Z.rem (Z.of_nat i) (Z.of_nat (length l)) = Z.of_nat i) as Hrem
    by (rewrite Z.rem_mod_nonneg by lia; apply Z.mod_small; lia).
  assert (Z.rem (Z.of_nat i + 1) (Z.of_nat (length l))
          = if decide (S i < length l)%nat then Z.of_nat (S i) else 0) as Hnext.
  { rewrite Z.rem_mod_nonneg by lia. destruct (decide (S i < length l)%nat).
    - rewrite Z.mod_small by lia. lia.
    - replace (Z.of_nat i + 1) with (Z.of_nat (length l)) by lia.
      apply Z_mod_same_full. }
  destruct (rotation_strategy (config m)); [|done|];
    rewrite Hi, Hrem, Hnext;
    (destruct (Z.ltb_spec (Z.of_nat i) 0); [lia|]);
    by rewrite Nat2Z.id, Hx.
Qed.

Lemma getNextSmtpIndex_times_run (k i : nat) m l :
  rotation_strategy (config m) ≠ RotationManager.random →
  getAvailableSMTPs m = Some l →
  currentSmtpIndex m = Z.of_nat i →
  (i < length l)%nat →
  (i + k ≤ length l)%nat →
  (getNextSmtpIndex_times k m).1 = Ok ∘ smtp_index <$> take k (drop i l)
  ∧ (getNextSmtpIndex_times k m).2
    = with_currentSmtpIndex
        (if decide (i + k < length l)%nat then Z.of_nat (i + k) else 0) m.
Proof.
  revert i m. induction k as [|k IH]; intros i m Hs Hl Hi Hlt Hle; simpl.
  - rewrite Nat.add_0_r, decide_True by done. split; [done|].
    rewrite <- Hi. by destruct m.
  - destruct (lookup_lt_is_Some_2 l i Hlt) as [x Hx].
    rewrite (getNextSmtpIndex_sequential m l i x _ Hs Hl Hi Hx).
    destruct (decide (S i < length l)%nat) as [Hin|Hout].
    + destruct (IH (S i) (with_currentSmtpIndex (Z.of_nat (S i)) m))
        as [Ho Hm]; [done|done|done|done|lia|].
      destruct (getNextSmtpIndex_times k _) as [out m2]. simpl in *.
      split.
      * by rewrite Ho, (drop_S _ x i Hx).
      * rewrite Hm. by replace (i + S k)%nat with (S (i + k))%nat by lia.
    + assert (k = 0%nat) as -> by lia. simpl. split.
      * by rewrite (drop_S _ x i Hx).
      * by rewrite decide_False by lia.
Qed.

Lemma getNextSmtpIndex_times_app (a b : nat) m :
  getNextSmtpIndex_times (a + b) m
  = ((getNextSmtpIndex_times a m).1
     ++ (getNextSmtpIndex_times b (getNextSmtpIndex_times a m).2).1,
     (getNextSmtpIndex_times b (getNextSmtpIndex_times a m).2).2).
Proof.
  revert m. induction a as [|a IH]; intros m; simpl.
  - by destruct (getNextSmtpIndex_times b m).
  - destruct (getNextSmtpIndex 0 m) as [x m1].
    rewrite IH. destruct (getNextSmtpIndex_times a m1) as [o1 m2]. simpl.
    by destruct (getNextSmtpIndex_times b m2).
Qed.

(** X22.  The same round-robin law for the selection of a server: while the
    candidate list stays the same (the servers stay healthy and
    unthrottled), as many sequential selections as there are candidates
    return each of them once, in the order of the list from the current
    index, and lead back to that index. *)
Lemma sequential_selection_visits_each_server_once m l (i : nat) :
  rotation_strategy (config m) ≠ RotationManager.random →
  getAvailableSMTPs m = Some l →
  currentSmtpIndex m = Z.of_nat i →
  (i < length l)%nat →
  (getNextSmtpIndex_times (length l) m).1
  = Ok ∘ smtp_index <$> (drop i l ++ take i l)
  ∧ (getNextSmtpIndex_times (length l) m).2 = m.
Proof.
  intros Hs Hl Hi Hlt.
  replace (length l) with ((length l - i) + i)%nat at 1 2 by lia.
  rewrite getNextSmtpIndex_times_app. simpl.
  destruct (getNextSmtpIndex_times_run (length l - i) i m l) as [Ho Hm];
    [done|done|done|done|lia|].
  rewrite decide_False in Hm by lia.
  rewrite Ho, Hm.
  destruct (getNextSmtpIndex_times_run i 0 (with_currentSmtpIndex 0 m) l)
    as [Ho' Hm']; [done|done|done|lia|lia|].
  rewrite Ho', Hm', decide_True by done. simpl.
  rewrite drop_0, fmap_app. split.
  - f_equal. f_equal. apply take_ge. rewrite length_drop. lia.
  - rewrite <- Hi. by destruct m.
Qed.

End ServerRotationFacts.

(** ** SMTPManager: a failed send next to a concurrent one *)

Section RaceFacts.
Import SMTPManager.
Local Open Scope Z_scope.

(** The scenario of C2 as a run of [sendMail].  The ceiling is 2 and one
    message is counted.  A send passes its check; while it waits for the
    mutex of the increment, another send counts itself and the counter
    reaches the ceiling; the send counts itself (the counter stays at 2),
    its transmission fails, and its rollback leaves 1 for the two messages
    that were sent. *)
Example failed_send_at_ceiling_uncounts_another_send :
  let w := mkWorld (rate_run [Increment 0 1] Scenarios.manager_ceiling_2) 0 in
  let run := sendMail Scenarios.racing Scenarios.mail (start w) in
  counter 0 (manager w) = Some 1
  ∧ run.1 = Throw (TransportError ETIMEDOUT)
  ∧ log run.2
    = [Checked 0 (mkCheck true 0 None); Incremented 0; Transmitted 0;
       RolledBack 0]
  ∧ counter 0 (manager (world run.2)) = Some 1.
Proof. vm_compute. done. Qed.

End RaceFacts.


(** * Further properties of the code *)

(** ** AsyncMutex: fairness and mutual exclusion *)

Section AsyncMutexOrder.
Import AsyncMutex.

Lemma resolved_app tr1 tr2 : resolved (tr1 ++ tr2) = resolved tr1 ++ resolved tr2.
Proof. unfold resolved. apply omap_app. Qed.

Lemma resolved_bound m tr :
  inv m tr → Forall (λ e, (e < calls m)%nat) (resolved tr).
Proof.
  intros Hinv. destruct Hinv as [_ _ _ Htb _ _].
  unfold resolved. apply Forall_forall. intros e He.
  apply list_elem_of_omap in He as (s & Hs & Heq).
  rewrite Forall_forall in Htb. specialize (Htb s Hs).
  destruct s; simplify_eq/=. done.
Qed.

Lemma sorted_snoc_lt (l : list nat) x :
  StronglySorted lt l → Forall (λ e, (e < x)%nat) l → StronglySorted lt (l ++ [x]).
Proof.
  intros Hs Hall. apply StronglySorted_app. split_and!; [|done|repeat constructor].
  intros a b Ha ->%list_elem_of_singleton.
  rewrite Forall_forall in Hall. by apply Hall.
Qed.

Lemma step_granted_in_order m tr o :
  granted_in_order m tr →
  granted_in_order (step m o).1 (tr ++ (step m o).2).
Proof.
  intros [Hinv Hs Hq].
  pose proof (step_inv m tr o Hinv) as Hinv'.
  pose proof (resolved_bound m tr Hinv) as Hb.
  split; [done|..]; clear Hinv'; rewrite resolved_app.
  - destruct o as [| |e]; simpl.
    + unfold acquire. destruct (locked m); simpl; [by rewrite app_nil_r|].
      by apply sorted_snoc_lt.
    + unfold release. destruct (queue m) as [|next rest] eqn:Hqueue; simpl;
        [by rewrite app_nil_r|].
      apply sorted_snoc_lt; [done|].
      eapply Forall_impl; [exact Hq|]. simpl.
      by intros a [? _]%Forall_cons.
    + unfold timeout_fires. destruct (indexOf (queue m) e); simpl;
        by rewrite app_nil_r.
  - destruct o as [| |e]; simpl.
    + unfold acquire. destruct (locked m) eqn:Hl; simpl.
      * rewrite app_nil_r. rewrite Forall_forall in Hq, Hb |- *.
        intros a Ha. apply Forall_app. split; [by apply Hq|].
        repeat constructor. by apply Hb.
      * destruct Hinv as [Hlocked _ _ _ _ _].
        destruct (queue m) as [|q0 qs] eqn:Hqueue;
          [|by specialize (Hlocked ltac:(done)); congruence].
        apply Forall_forall. intros; constructor.
    + unfold release. destruct (queue m) as [|next rest] eqn:Hqueue; simpl.
      * rewrite app_nil_r. apply Forall_forall. intros; constructor.
      * destruct Hinv as [_ Hsorted _ _ _ _]. rewrite Hqueue in Hsorted.
        apply StronglySorted_cons in Hsorted as [Hnext _].
        apply Forall_app. split; [|by repeat constructor].
        eapply Forall_impl; [exact Hq|]. simpl.
        by intros a [_ ?]%Forall_cons.
    + unfold timeout_fires. destruct (indexOf (queue m) e) as [i|]; simpl;
        rewrite app_nil_r; [|done].
      eapply Forall_impl; [exact Hq|]. simpl. intros a Ha.
      by apply Forall_delete.
Qed.

Lemma run_granted_in_order ops m tr :
  granted_in_order m tr →
  granted_in_order (run ops m).1 (tr ++ (run ops m).2).
Proof.
  revert m tr. induction ops as [|o ops IH]; intros m tr Hinv; simpl.
  - by rewrite app_nil_r.
  - pose proof (step_granted_in_order m tr o Hinv) as H1.
    destruct (step m o) as [m1 s1]. simpl in H1.
    specialize (IH m1 (tr ++ s1) H1).
    destruct (run ops m1) as [m2 s2]. simpl in *.
    by rewrite app_assoc.
Qed.

(** X1.  The mutex is fair: after any operations on a fresh mutex, the lock was
    granted in the order of the [acquire] calls, and every entry still
    waiting called after all those that were granted. *)
Theorem mutex_grants_in_call_order (ops : list op) :
  StronglySorted lt (resolved (run ops constructor).2)
  ∧ Forall (λ e, Forall (λ q, (e < q)%nat) (queue (run ops constructor).1))
      (resolved (run ops constructor).2).
Proof.
  assert (granted_in_order constructor []) as H0.
  { split; [apply inv_constructor|constructor|constructor]. }
  destruct (run_granted_in_order ops constructor [] H0) as [_ Hs Hq]. done.
Qed.

Lemma run_app_state ops1 ops2 m :
  run (ops1 ++ ops2) m
  = ((run ops2 (run ops1 m).1).1, (run ops1 m).2 ++ (run ops2 (run ops1 m).1).2).
Proof.
  revert m. induction ops1 as [|o ops1 IH]; intros m; simpl.
  - by destruct (run ops2 m).
  - destruct (step m o) as [m1 s1]. rewrite IH.
    destruct (run ops1 m1) as [m2 s2]. simpl.
    destruct (run ops2 m2) as [m3 s3]. simpl. by rewrite app_assoc.
Qed.

Lemma disciplined_exclusion ops m g d :
  (queue m ≠ [] → locked m = true) →
  (d ≤ g ≤ d + 1)%nat →
  (locked m = true ↔ g = (d + 1)%nat) →
  disciplined g d m ops →
  (d + releases ops ≤ g + length (resolved (run ops m).2) ≤ d + releases ops + 1)%nat
  ∧ (locked (run ops m).1 = true
     ↔ (g + length (resolved (run ops m).2) = d + releases ops + 1)%nat).
Proof.
  revert m g d. induction ops as [|o ops IH]; intros m g d Hq Hle Hiff Hdisc.
  - simpl. unfold releases. simpl. rewrite !Nat.add_0_r. done.
  - destruct Hdisc as [Ho Hdisc].
    specialize (IH (step m o).1 (g + length (resolved (step m o).2))%nat
                  (d + releases [o])%nat).
    assert (releases (o :: ops) = (releases [o] + releases ops)%nat) as Hrel.
    { unfold releases. simpl. destruct o; simpl; lia. }
    simpl run. destruct (step m o) as [m1 s1] eqn:Hstep. simpl in IH.
    destruct (run ops m1) as [m2 s2] eqn:Hrun. simpl in *.
    rewrite resolved_app, length_app, Hrel.
    assert ((queue m1 ≠ [] → locked m1 = true)
            ∧ (d + releases [o] ≤ g + length (resolved s1) ≤ d + releases [o] + 1)%nat
            ∧ (locked m1 = true
               ↔ (g + length (resolved s1))%nat = (d + releases [o] + 1)%nat))
      as (Hq1 & Hle1 & Hiff1).
    { destruct o as [| |e]; simpl in Hstep; unfold releases; simpl.
      - unfold acquire in Hstep. destruct (locked m) eqn:Hl; simpl in Hstep;
          injection Hstep as <- <-; simpl.
        + destruct Hiff as [Hiff _]. specialize (Hiff eq_refl).
          split_and!; [done|lia|lia|]. split; [lia|done].
        + assert (g ≠ (d + 1)%nat) by (intros Heq; apply Hiff in Heq; done).
          split_and!; [done|lia|lia|]. split; [lia|done].
      - unfold release in Hstep.
        assert (g = (d + 1)%nat) as Hg by lia.
        assert (locked m = true) as Hl by (by apply Hiff).
        destruct (queue m) as [|next rest] eqn:Hqueue; injection Hstep as <- <-;
          simpl.
        + split_and!; [done|lia|lia|]. split; [done|lia].
        + split_and!; [done|lia|lia|]. split; [lia|done].
      - unfold timeout_fires in Hstep.
        destruct (indexOf (queue m) e) as [i|] eqn:Hi; injection Hstep as <- <-;
          simpl.
        + split_and!; [|lia|lia|rewrite Nat.add_0_r, Nat.add_0_r; exact Hiff].
          intros _. apply Hq. intros Hnil. by rewrite Hnil in Hi.
        + split_and!; [done|lia|lia|rewrite Nat.add_0_r, Nat.add_0_r; exact Hiff]. }
    destruct (IH Hq1 Hle1 Hiff1 Hdisc) as [Hle2 Hiff2].
    split; [lia|]. rewrite Hiff2. lia.
Qed.

(** X2.  Mutual exclusion: when [release] is only called by a holder of the
    lock, at most one entry holds the lock (has been granted it and has
    not released it), and the flag [locked] is set exactly while one
    does. *)
Theorem mutex_mutual_exclusion (ops : list op) :
  disciplined 0 0 constructor ops →
  let holders :=
    (length (resolved (run ops constructor).2) - releases ops)%nat in
  (releases ops ≤ length (resolved (run ops constructor).2))%nat
  ∧ (holders ≤ 1)%nat
  ∧ (locked (run ops constructor).1 = true ↔ holders = 1%nat).
Proof.
  intros Hdisc holders.
  destruct (disciplined_exclusion ops constructor 0 0) as [Hle Hiff];
    [done|lia|by simpl|done|].
  simpl in Hle, Hiff. unfold holders.
  split_and!; [lia|lia|]. rewrite Hiff. lia.
Qed.

Lemma mutex_mutual_exclusion_witness :
  let ops := [Acquire; Acquire; Release; Release] in
  disciplined 0 0 constructor ops
  ∧ locked (run ops constructor).1 = false.
Proof.
  split; [by vm_compute|].
  pose proof (mutex_mutual_exclusion [Acquire; Acquire; Release; Release]
                ltac:(by vm_compute)) as (_ & _ & [H _]).
  destruct (locked _); [|done]. specialize (H eq_refl). vm_compute in H. done.
Defined.

End AsyncMutexOrder.
(** ** LRUCache: lookups, deletion and eviction order *)

Section LRUCacheLookups.
Import LRUCache.
Context {K V : Type} `{EqDecision K}.
Implicit Types (m : list (K * V)) (c : t K V) (k key : K).

Lemma Map_get_Map_set k v k' m :
  Map_get k' (Map_set k v m) = if decide (k' = k) then Some v else Map_get k' m.
Proof.
  unfold Map_get. induction m as [|[k0 v0] m IH]; simpl.
  - destruct (decide (k' = k)) as [->|Hne].
    + by rewrite bool_decide_eq_true_2.
    + by rewrite bool_decide_eq_false_2 by congruence.
  - case_bool_decide as Hk0; simpl.
    + subst k0. destruct (decide (k' = k)) as [->|Hne].
      * by rewrite bool_decide_eq_true_2.
      * by rewrite !bool_decide_eq_false_2 by congruence.
    + destruct (decide (k' = k)) as [->|Hne].
      * rewrite bool_decide_eq_false_2 by done.
        by rewrite IH.
      * case_bool_decide; [done|]. by rewrite IH.
Qed.

Lemma Map_get_Map_delete k k' m :
  Map_get k' (Map_delete k m) = if decide (k' = k) then None else Map_get k' m.
Proof.
  unfold Map_get, Map_delete. induction m as [|[k0 v0] m IH]; simpl.
  - by destruct (decide (k' = k)).
  - case_bool_decide as Hk0; simpl.
    + subst k0. rewrite IH. destruct (decide (k' = k)) as [->|Hne]; [done|].
      by rewrite bool_decide_eq_false_2 by congruence.
    + destruct (decide (k' = k)) as [->|Hne].
      * rewrite bool_decide_eq_false_2 by done. by rewrite IH.
      * case_bool_decide; [done|]. by rewrite IH.
Qed.

Lemma Map_get_foldl_delete (ks : list K) k m :
  k ∉ ks →
  Map_get k (foldl (λ m key, Map_delete key m) m ks) = Map_get k m.
Proof.
  revert m. induction ks as [|k0 ks IH]; intros m Hk; simpl; [done|].
  apply not_elem_of_cons in Hk as [Hne Hk].
  rewrite IH by done. rewrite Map_get_Map_delete. by rewrite decide_False.
Qed.

Lemma Map_set_absent k v m :
  k ∉ m.*1 → Map_set k v m = m ++ [(k, v)].
Proof.
  induction m as [|[k0 v0] m IH]; simpl; [done|].
  intros [Hne Hk]%not_elem_of_cons.
  rewrite bool_decide_eq_false_2 by congruence. by rewrite IH.
Qed.

Lemma Map_delete_absent k m :
  k ∉ m.*1 → Map_delete k m = m.
Proof.
  unfold Map_delete. induction m as [|[k0 v0] m IH]; simpl; [done|].
  intros [Hne Hk]%not_elem_of_cons.
  rewrite bool_decide_eq_false_2 by congruence. simpl. by rewrite IH.
Qed.

Lemma Map_delete_not_elem k m : k ∉ (Map_delete k m).*1.
Proof. rewrite elem_of_Map_delete. tauto. Qed.

Lemma Map_delete_NoDup k m : NoDup m.*1 → NoDup (Map_delete k m).*1.
Proof.
  unfold Map_delete. induction m as [|[k0 v0] m IH]; simpl; [done|].
  intros [Hk0 Hm]%NoDup_cons. case_bool_decide; simpl; [by apply IH|].
  apply NoDup_cons. split; [|by apply IH].
  intros Hin. apply Hk0. by apply (elem_of_Map_delete k k0 m) in Hin as [? _].
Qed.

Lemma Map_set_NoDup k v m : NoDup m.*1 → NoDup (Map_set k v m).*1.
Proof.
  induction m as [|[k0 v0] m IH]; simpl.
  - intros _. apply NoDup_singleton.
  - intros [Hk0 Hm]%NoDup_cons. case_bool_decide; simpl.
    + by apply NoDup_cons.
    + apply NoDup_cons. split; [|by apply IH].
      rewrite elem_of_Map_set. intros [?|?]; [congruence|done].
Qed.

Lemma foldl_delete_NoDup (ks : list K) m :
  NoDup m.*1 → NoDup (foldl (λ m key, Map_delete key m) m ks).*1.
Proof.
  revert m. induction ks as [|k ks IH]; intros m Hm; simpl; [done|].
  by apply IH, Map_delete_NoDup.
Qed.

(** Deleting the keys of the first [n] entries of a [Map] leaves the
    others, in their order. *)
Lemma foldl_delete_front n m :
  NoDup m.*1 →
  foldl (λ m key, Map_delete key m) m (take n m.*1) = drop n m.
Proof.
  revert m. induction n as [|n IH]; intros m Hm; [done|].
  destruct m as [|[k0 v0] m]; simpl; [done|].
  apply NoDup_cons in Hm as [Hk0 Hm].
  rewrite bool_decide_eq_true_2 by done. simpl.
  fold (Map_delete k0 m). rewrite Map_delete_absent by done. by apply IH.
Qed.

(** A present key is moved to the end of the [Map] by deleting and
    setting it again; the entries stay the same. *)
Lemma Map_move_to_end k v m :
  NoDup m.*1 → Map_get k m = Some v →
  Map_set k v (Map_delete k m) ≡ₚ m.
Proof.
  intros Hm Hg. rewrite Map_set_absent by apply Map_delete_not_elem.
  revert Hm Hg. unfold Map_get, Map_delete.
  induction m as [|[k0 v0] m IH]; simpl; [done|].
  intros [Hk0 Hm]%NoDup_cons. case_bool_decide as Hk; simpl.
  - intros [= ->]. subst k0. fold (Map_delete k m).
    rewrite Map_delete_absent by done. by rewrite Permutation_app_comm.
  - intros Hg. by rewrite (IH Hm Hg).
Qed.

Lemma get_lookup key c : (get key c).1 = Map_get key (cache c).
Proof. unfold get. by destruct (Map_get key (cache c)). Qed.

Lemma step_NoDup c o : NoDup (cache c).*1 → NoDup (cache (step c o)).*1.
Proof.
  intros Hc. destruct o as [key|key value|key|]; simpl.
  - unfold get. destruct (Map_get key (cache c)) as [value|]; simpl; [|done].
    destruct (Z.rem _ 5 =? 0)%Z; [|done].
    by apply Map_set_NoDup, Map_delete_NoDup.
  - unfold set. apply Map_set_NoDup.
    destruct (Map_has key (cache c)); simpl; [by apply Map_delete_NoDup|].
    destruct (_ >=? _)%Z; [|done]. by apply foldl_delete_NoDup.
  - by apply Map_delete_NoDup.
  - apply NoDup_nil_2.
Qed.

(** The keys of a cache are distinct, as in the [Map] of the code. *)
Lemma run_NoDup (ops : list (op K V)) C :
  NoDup (cache (run ops (constructor C))).*1.
Proof.
  assert (∀ c : t K V, NoDup (cache c).*1 → NoDup (cache (foldl step c ops)).*1)
    as Hgen.
  { induction ops as [|o ops IH]; intros c Hc; simpl; [done|].
    by apply IH, step_NoDup. }
  apply Hgen. apply NoDup_nil_2.
Qed.

Lemma run_maxSize (ops : list (op K V)) c : maxSize (run ops c) = maxSize c.
Proof.
  unfold run. revert c. induction ops as [|o ops IH]; intros c; [done|].
  simpl. rewrite IH. destruct o as [k|k v|k|]; simpl; try done.
  - unfold get. by destruct (Map_get k (cache c)).
  - unfold set. destruct (Map_has k (cache c)); [done|].
    by destruct (Z.of_nat (length (cache c)) >=? maxSize c)%Z.
Qed.

(** X3.  Round trip: what [set] stores under a key is what [get] returns for
    it next, whatever the cache held and whether or not the insert
    evicted entries. *)
Theorem lru_set_then_get c key value :
  (get key (set key value c)).1 = Some value
  ∧ has key (set key value c) = true.
Proof.
  split.
  - rewrite get_lookup. unfold set. simpl. rewrite Map_get_Map_set.
    by rewrite decide_True.
  - unfold has, set. simpl. apply Map_has_true, elem_of_Map_set. by left.
Qed.

(** X4.  [delete] removes the key, so that it is a miss afterwards, and
    changes the value of no other key. *)
Theorem lru_delete_forgets_only_that_key c key k :
  (get key (delete key c).2).1 = None
  ∧ has key (delete key c).2 = false
  ∧ (k ≠ key → (get k (delete key c).2).1 = (get k c).1).
Proof.
  split_and!.
  - rewrite get_lookup. simpl. rewrite Map_get_Map_delete. by rewrite decide_True.
  - unfold has. simpl. apply Map_has_false, Map_delete_not_elem.
  - intros Hne. rewrite !get_lookup. simpl. rewrite Map_get_Map_delete.
    by rewrite decide_False.
Qed.

(** X5.  [get] only reads and reorders: in every cache reached from the
    constructor it leaves the same entries (so every key keeps its value
    and the size is unchanged).  A hit moves the key to the most recent
    end only when it is the fifth hit since the last multiple of five;
    the other hits leave the order, and so the eviction order, as it
    was. *)
Theorem lru_get_keeps_entries C (ops : list (op K V)) key k :
  let c := run ops (constructor C) in
  cache (get key c).2 ≡ₚ cache c
  ∧ (get k (get key c).2).1 = (get k c).1
  ∧ (∀ value, (get key c).1 = Some value →
       cache (get key c).2
       = if decide (Z.rem (_accessCount c + 1) 5 = 0)%Z
         then Map_delete key (cache c) ++ [(key, value)]
         else cache c).
Proof.
  intros c. pose proof (run_NoDup ops C) as Hnd. fold c in Hnd.
  rewrite !get_lookup. unfold get.
  destruct (Map_get key (cache c)) as [v|] eqn:Hg; simpl; [|done].
  destruct (Z.eqb_spec (Z.rem (_accessCount c + 1) 5) 0) as [Hz|Hz].
  - split_and!.
    + by apply Map_move_to_end.
    + rewrite Map_get_Map_set, Map_get_Map_delete.
      destruct (decide (k = key)) as [->|]; done.
    + intros value [= <-]. rewrite decide_True by done.
      apply Map_set_absent, Map_delete_not_elem.
  - split_and!; [done|done|]. intros value _. by rewrite decide_False.
Qed.

(** X6.  An insert that finds its key present, or finds room, evicts nothing:
    every other key keeps its value, and the size grows by one exactly
    when the key is new. *)
Theorem lru_set_keeps_other_entries C (ops : list (op K V)) key value k :
  let c := run ops (constructor C) in
  has key c = true ∨ (size c < C)%Z →
  k ≠ key →
  (get k (set key value c)).1 = (get k c).1
  ∧ size (set key value c) = (size c + (if has key c then 0 else 1))%Z.
Proof.
  intros c Hroom Hne. pose proof (run_NoDup ops C) as Hnd. fold c in Hnd.
  assert (maxSize c = C) as Hmax by (unfold c; by rewrite run_maxSize).
  rewrite !get_lookup. unfold set, has, size in *.
  destruct (Map_has key (cache c)) eqn:Hhas; simpl.
  - rewrite Map_get_Map_set, Map_get_Map_delete, !decide_False by done.
    split; [done|].
    apply Map_has_true in Hhas.
    destruct (Map_get key (cache c)) as [v0|] eqn:Hg;
      [|by apply Map_get_None in Hg].
    pose proof (Map_move_to_end key v0 (cache c) Hnd Hg) as Hperm.
    apply Permutation_length in Hperm.
    rewrite Map_set_absent in Hperm |- * by apply Map_delete_not_elem.
    rewrite length_app in Hperm |- *. simpl in *. lia.
  - destruct Hroom as [?|Hroom]; [done|].
    destruct (Z.geb_spec (Z.of_nat (length (cache c))) (maxSize c)) as [?|_];
      [lia|].
    rewrite Map_get_Map_set, decide_False by done. split; [done|].
    apply Map_has_false in Hhas. rewrite Map_set_absent by done.
    rewrite length_app. simpl. lia.
Qed.

(** X7.  An insert of a new key into a full cache evicts the [C / 10] entries
    at the front of the [Map], those inserted or refreshed longest ago,
    keeps the others in their order and puts the new entry last. *)
Theorem lru_full_set_evicts_oldest C (ops : list (op K V)) key value :
  (0 ≤ C)%Z →
  let c := run ops (constructor C) in
  has key c = false → (C ≤ size c)%Z →
  cache (set key value c)
  = drop (Z.to_nat (C / 10)) (cache c) ++ [(key, value)].
Proof.
  intros HC c Hnew Hfull. pose proof (run_NoDup ops C) as Hnd. fold c in Hnd.
  assert (maxSize c = C) as Hmax by (unfold c; by rewrite run_maxSize).
  assert (_cleanupThreshold c = (C / 10)%Z) as Hthr
    by (unfold c; by rewrite run_cleanupThreshold).
  assert (0 ≤ C / 10)%Z by (apply Z.div_pos; lia).
  unfold set, has, size in *. rewrite Hnew.
  destruct (Z.geb_spec (Z.of_nat (length (cache c))) (maxSize c)) as [_|?];
    [|lia].
  unfold _batchCleanup, JS.slice0. simpl. rewrite Hthr.
  destruct (Z.ltb_spec (C / 10) 0) as [?|_]; [lia|].
  rewrite foldl_delete_front by done.
  apply Map_set_absent. apply Map_has_false in Hnew.
  intros Hin. apply Hnew. rewrite fmap_drop in Hin.
  by apply (subseteq_drop _ _ _ Hin).
Qed.

End LRUCacheLookups.

Lemma lru_set_keeps_other_entries_witness :
  (LRUCache.get 3%nat
     (LRUCache.set 7%nat 70%nat
        (LRUCache.run Scenarios.ten_inserts (LRUCache.constructor 10)))).1 = Some 3%nat.
Proof.
  destruct (lru_set_keeps_other_entries 10 Scenarios.ten_inserts 7%nat 70%nat 3%nat)
    as [H _]; [by left|done|].
  rewrite H. reflexivity.
Defined.

Lemma lru_full_set_evicts_oldest_witness :
  LRUCache.cache
    (LRUCache.set 10%nat 10%nat
       (LRUCache.run Scenarios.ten_inserts (LRUCache.constructor 10)))
  = (λ i, (i, i)) <$> seq 1 10.
Proof.
  rewrite (lru_full_set_evicts_oldest 10 Scenarios.ten_inserts 10%nat 10%nat);
    [reflexivity|lia|reflexivity|by vm_compute].
Defined.

Lemma lru_bounded_from_capacity_10_witness :
  (LRUCache.size
     (LRUCache.set 10%nat 10%nat
        (LRUCache.run Scenarios.ten_inserts (LRUCache.constructor 10))) ≤ 10)%Z.
Proof.
  pose proof (lru_bounded_from_capacity_10 10 Scenarios.ten_inserts 10%nat 10%nat
                ltac:(lia)) as (_ & H & _).
  exact H.
Defined.
(** ** RotationManager: robustness, the other policies and the statistics *)

Section RotationManagerRobust.
Import RotationManager.
Context {A : Type} (stringify : A → string).
Implicit Types (r : t A) (rnd : nat → nat).

Lemma getNext_shape forceStrategy randomIndex r :
  items r ≠ [] →
  let strategy := default (rotationStrategy r) forceStrategy in
  let r' := (getNext stringify forceStrategy randomIndex r).2 in
  (∃ x, (getNext stringify forceStrategy randomIndex r).1 = Some x
        ∧ x ∈ items r)
  ∧ items r' = items r
  ∧ rotationStrategy r' = rotationStrategy r
  ∧ (strategy = sequential →
     (0 ≤ currentIndex r' < Z.of_nat (length (items r)))%Z)
  ∧ (strategy ≠ sequential → currentIndex r' = currentIndex r).
Proof.
  intros Hne strategy r'. unfold r', getNext. clear r'.
  destruct (items r) as [|first rest] eqn:Hitems; [done|].
  fold strategy.
  assert (∀ o : option A, (∀ x, o = Some x → x ∈ first :: rest) →
            default first o ∈ first :: rest) as Hdef.
  { intros [x|] Hx; simpl; [by apply Hx|by left]. }
  destruct strategy; simpl.
  - set (len := Z.of_nat (S (length rest))).
    set (current := if (len <=? currentIndex r)%Z || (currentIndex r <? 0)%Z
                    then 0%Z else currentIndex r).
    split_and!; try done.
    + eexists. split; [done|]. apply Hdef. intros x Hx.
      by apply list_elem_of_lookup_2 in Hx.
    + intros _.
      assert (0 ≤ Z.max 0 (Z.min current (len - 1)) + 1)%Z by lia.
      assert (0 < len)%Z by lia.
      pose proof (Z.rem_bound_pos (Z.max 0 (Z.min current (len - 1)) + 1) len).
      lia.
  - split_and!; try done.
    eexists. split; [done|]. apply Hdef. intros x Hx.
    by apply list_elem_of_lookup_2 in Hx.
  - split_and!; try done.
    eexists. split; [done|]. by left.
Qed.

(** X9.  With at least one item [getNext] always returns one of the items,
    whatever the strategy, the random draw and the stored index (also a
    negative one or one past the end).  It never changes the items; under
    the sequential policy it leaves the index inside the list, under the
    other policies it leaves the index alone. *)
Theorem getNext_returns_an_item forceStrategy randomIndex r :
  items r ≠ [] →
  let strategy := default (rotationStrategy r) forceStrategy in
  let r' := (getNext stringify forceStrategy randomIndex r).2 in
  (∃ x, (getNext stringify forceStrategy randomIndex r).1 = Some x
        ∧ x ∈ items r)
  ∧ items r' = items r
  ∧ rotationStrategy r' = rotationStrategy r
  ∧ (strategy = sequential →
     (0 ≤ currentIndex r' < Z.of_nat (length (items r)))%Z)
  ∧ (strategy ≠ sequential → currentIndex r' = currentIndex r).
Proof. apply getNext_shape. Qed.

(** Without items [getNext] throws and changes nothing. *)
Lemma getNext_no_items forceStrategy randomIndex r :
  items r = [] → getNext stringify forceStrategy randomIndex r = (None, r).
Proof. unfold getNext. by intros ->. Qed.

(** X10.  With rotation disabled every call returns the first item and the
    index stays where it is. *)
Theorem disabled_rotation_returns_first_item (n : nat) rnd r first rest :
  rotationStrategy r = disabled →
  items r = first :: rest →
  (getNext_times stringify n rnd r).1 = replicate n (Some first)
  ∧ currentIndex (getNext_times stringify n rnd r).2 = currentIndex r
  ∧ items (getNext_times stringify n rnd r).2 = items r.
Proof.
  revert rnd r. induction n as [|n IH]; intros rnd r Hs Hitems; simpl; [done|].
  assert (getNext stringify None (rnd 0%nat) r
          = (Some first,
             mk (items r) (currentIndex r)
                (updateUsageStats (stringify first) (usageStats r))
                disabled)) as ->.
  { unfold getNext. rewrite Hitems, Hs. done. }
  match goal with
  | |- context [getNext_times stringify n ?f ?r1] =>
      specialize (IH f r1 eq_refl Hitems);
      destruct (getNext_times stringify n f r1) as [xs r2]
  end.
  simpl in *. destruct IH as (-> & -> & ->). done.
Qed.

(** X11.  On a fresh manager, and after [setItems] has replaced the items of a
    manager, [getCurrentItem] (the [nextItem] of [getStatus]) is, after
    any number of sequential selections, the item the next sequential
    selection returns. *)
Theorem getCurrentItem_previews_getNext (n : nat) rnd randomIndex (l : list A)
    (start : t A) :
  l ≠ [] →
  start = constructor l sequential
  ∨ (∃ r0, start = setItems (Some l) r0 ∧ rotationStrategy r0 = sequential) →
  let r := (getNext_times stringify n rnd start).2 in
  getCurrentItem r = (getNext stringify None randomIndex r).1.
Proof.
  intros Hne Hstart r.
  assert (items start = l ∧ rotationStrategy start = sequential
          ∧ currentIndex start = 0%Z) as (Hi0 & Hs0 & Hidx0).
  { destruct Hstart as [-> | (r0 & -> & Hs)]; done. }
  assert (items r = l ∧ rotationStrategy r = sequential
          ∧ (0 ≤ currentIndex r < Z.of_nat (length l))%Z) as (Hi & Hs & Hidx).
  { unfold r. clear r.
    assert (∀ r0 : t A, items r0 = l → rotationStrategy r0 = sequential →
              (0 ≤ currentIndex r0 < Z.of_nat (length l))%Z →
              let r := (getNext_times stringify n rnd r0).2 in
              items r = l ∧ rotationStrategy r = sequential
              ∧ (0 ≤ currentIndex r < Z.of_nat (length l))%Z) as Hgen.
    { revert rnd. clear Hi0 Hs0 Hidx0 Hstart.
      induction n as [|n IH]; intros rnd r0 Hi Hs Hidx; simpl;
        [done|].
      destruct (getNext_shape None (rnd 0%nat) r0) as (_ & Hi1 & Hs1 & Hidx1 & _);
        [by rewrite Hi|].
      simpl in Hidx1. rewrite Hs, Hi in Hidx1. specialize (Hidx1 eq_refl).
      destruct (getNext stringify None (rnd 0%nat) r0) as [x r1] eqn:Hg.
      specialize (IH (λ k, rnd (S k)) r1).
      destruct (getNext_times stringify n (λ k, rnd (S k)) r1) as [xs r2].
      simpl in *. apply IH; congruence. }
    apply Hgen; [done|done|]. rewrite Hidx0. destruct l; [done|]. simpl. lia. }
  unfold getCurrentItem, getNext. rewrite Hi, Hs.
  destruct l as [|first rest] eqn:Hl; [done|]. rewrite <- Hl in *. simpl.
  destruct (Z.ltb_spec (currentIndex r) 0) as [?|_]; [lia|].
  destruct (Z.leb_spec (Z.of_nat (length l)) (currentIndex r)) as [?|_]; [lia|].
  simpl. rewrite Z.min_l, Z.max_r by lia.
  destruct (lookup_lt_is_Some_2 l (Z.to_nat (currentIndex r))) as [x Hx]; [lia|].
  by rewrite Hx.
Qed.

Lemma selections_app key xs ys :
  selections stringify key (xs ++ ys) = selections stringify key xs + selections stringify key ys.
Proof. unfold selections. by rewrite List.filter_app, length_app. Qed.

Lemma selections_singleton key x :
  selections stringify key [Some x] = if decide (stringify x = key) then 1 else 0.
Proof.
  unfold selections. cbn [List.filter fmap option_fmap option_map].
  case_bool_decide as Hk; destruct (decide (stringify x = key)); simpl;
    congruence.
Qed.

Lemma getNext_counted l seen r forceStrategy randomIndex :
  length l ≤ 1000 →
  counted stringify l seen r →
  counted stringify l (seen ++ [(getNext stringify forceStrategy randomIndex r).1])
    (getNext stringify forceStrategy randomIndex r).2.
Proof.
  intros Hlen [Hi Hnd Hkeys Hcounts].
  destruct (items r) as [|first rest] eqn:Hitems.
  - rewrite getNext_no_items by done. simpl.
    split; [congruence|done|done|].
    intros key. rewrite selections_app, Hcounts. unfold selections. simpl. lia.
  - destruct (getNext_shape forceStrategy randomIndex r)
      as ((x & Hx & Hin) & Hi' & _); [by rewrite Hitems|].
    destruct (getNext stringify forceStrategy randomIndex r) as [o r'] eqn:Hg.
    simpl in *. subst o.
    pose proof (getNext_usageStats stringify _ _ _ _ _ Hg) as Hstats.
    set (key := stringify x) in *.
    set (stats1 := JS.obj_set key
                     (default 0 (JS.obj_get key (usageStats r)) + 1)%Z
                     (usageStats r)).
    assert (key ∈ stringify <$> l) as Hkey.
    { rewrite <- Hi, <- Hitems. unfold key. by apply list_elem_of_fmap_2. }
    assert (NoDup stats1.*1) as Hnd1.
    { unfold stats1. rewrite obj_set_keys. destruct (decide _); [done|].
      apply NoDup_app. split_and!; [done| |apply NoDup_singleton].
      intros k Hk ->%list_elem_of_singleton. done. }
    assert (stats1.*1 ⊆ stringify <$> l) as Hkeys1.
    { unfold stats1. rewrite obj_set_keys. destruct (decide _); [done|].
      intros k [?| ->%list_elem_of_singleton]%elem_of_app; [by apply Hkeys|done]. }
    assert (usageStats r' = stats1) as Hr'.
    { rewrite Hstats. unfold updateUsageStats. fold stats1.
      rewrite length_keys.
      assert (length stats1 ≤ 1000) as Hle.
      { rewrite <- (length_fmap fst stats1).
        etrans; [|exact Hlen]. rewrite <- (length_fmap stringify l).
        apply submseteq_length, NoDup_submseteq; [done|]. apply Hkeys1. }
      destruct (Nat.ltb_spec 1000 (length stats1)); [lia|done]. }
    split; [congruence|by rewrite Hr'|by rewrite Hr'|].
    intros k. rewrite selections_app, Hr'. unfold stats1.
    destruct (decide (k = key)) as [->|Hne].
    + rewrite obj_get_obj_set, selections_singleton. simpl. rewrite Hcounts.
      rewrite decide_True by done. lia.
    + rewrite obj_get_obj_set_ne by done.
      rewrite Hcounts, selections_singleton.
      rewrite decide_False by (fold key; congruence). lia.
Qed.

Lemma getNext_times_counted n l seen rnd r :
  length l ≤ 1000 →
  counted stringify l seen r →
  counted stringify l (seen ++ (getNext_times stringify n rnd r).1)
    (getNext_times stringify n rnd r).2.
Proof.
  intros Hlen. revert seen rnd r.
  induction n as [|n IH]; intros seen rnd r Hc; simpl.
  - by rewrite app_nil_r.
  - pose proof (getNext_counted l seen r None (rnd 0%nat) Hlen Hc) as H1.
    destruct (getNext stringify None (rnd 0%nat) r) as [x r1].
    specialize (IH (seen ++ [x]) (λ k, rnd (S k)) r1 H1).
    destruct (getNext_times stringify n (λ k, rnd (S k)) r1) as [xs r2].
    simpl in *. by rewrite <- app_assoc in IH.
Qed.

(** X12.  While there are at most 1000 items, and no item has a key that
    is the name of a property of [Object.prototype], the usage statistics
    are exact: after any number of selections on a fresh manager, under
    any strategy, the count stored for a key is the number of times an
    item with that key was selected (a key never selected has no count),
    and the statistics are never trimmed. *)
Theorem usage_stats_count_selections (n : nat) rnd (l : list A) s key :
  length l ≤ 1000 →
  Forall (λ x, JS.inherited (stringify x) = false) l →
  let run := getNext_times stringify n rnd (constructor l s) in
  default 0%Z (JS.obj_get key (usageStats run.2))
  = Z.of_nat (selections stringify key run.1)
  ∧ length (usageStats run.2) ≤ length l.
Proof.
  intros Hlen _ run.
  destruct (getNext_times_counted n l [] rnd (constructor l s) Hlen)
    as [_ Hnd Hkeys Hcounts].
  { split; [done|apply NoDup_nil_2|apply list_subseteq_nil|done]. }
  fold run in Hnd, Hkeys, Hcounts. split; [apply Hcounts|].
  rewrite <- (length_fmap fst (usageStats run.2)), <- (length_fmap stringify l).
  by apply submseteq_length, NoDup_submseteq.
Qed.

End RotationManagerRobust.

Lemma usage_stats_count_selections_witness :
  JS.obj_get "b"
    (RotationManager.usageStats
       (RotationManager.getNext_times id 5 (λ _, 0%nat)
          (RotationManager.constructor ["a"; "b"; "c"]
             RotationManager.sequential)).2)
  = Some 2%Z.
Proof.
  pose proof (usage_stats_count_selections id 5 (λ _, 0%nat) ["a"; "b"; "c"]
                RotationManager.sequential "b" ltac:(simpl; lia)
                ltac:(by repeat constructor)) as [H _].
  destruct (JS.obj_get "b" _) as [v|] eqn:Hv; simpl in H.
  - rewrite H. reflexivity.
  - vm_compute in H. discriminate H.
Defined.

Lemma getNext_returns_an_item_witness :
  ∃ x, (RotationManager.getNext id None 0
          (RotationManager.mk ["a"; "b"; "c"] 7 [] RotationManager.sequential)).1
       = Some x
       ∧ x ∈ ["a"; "b"; "c"].
Proof.
  destruct (getNext_returns_an_item id None 0%nat
              (RotationManager.mk ["a"; "b"; "c"] 7 []
                 RotationManager.sequential)) as [H _].
  - discriminate.
  - exact H.
Defined.

Lemma disabled_rotation_returns_first_item_witness :
  (RotationManager.getNext_times id 3 (λ _, 0%nat)
     (RotationManager.constructor ["a"; "b"] RotationManager.disabled)).1
  = [Some "a"; Some "a"; Some "a"].
Proof.
  destruct (disabled_rotation_returns_first_item id 3 (λ _, 0%nat)
              (RotationManager.constructor ["a"; "b"] RotationManager.disabled)
              "a" ["b"]) as [H _]; [reflexivity|reflexivity|].
  exact H.
Defined.

Lemma getCurrentItem_previews_getNext_witness :
  RotationManager.getCurrentItem
    (RotationManager.getNext_times id 4 (λ _, 0%nat)
       (RotationManager.setItems (Some ["a"; "b"; "c"])
          (RotationManager.constructor ["x"] RotationManager.sequential))).2
  = Some "b".
Proof.
  rewrite (getCurrentItem_previews_getNext id 4 (λ _, 0%nat) 0%nat
             ["a"; "b"; "c"]);
    [reflexivity|discriminate|].
  right. eexists. split; reflexivity.
Defined.
(** ** SMTPManager: cooldown timers and the cooldown period *)

Section CooldownTimerFacts.
Import SMTPManager.
Local Open Scope Z_scope.
Implicit Types (m : t) (i : nat) (now : Z).

Lemma NoDup_List_filter {A} (f : A → bool) (l : list A) :
  NoDup l → NoDup (List.filter f l).
Proof.
  induction l as [|x l IH]; simpl; [done|].
  intros [Hx Hl]%NoDup_cons. destruct (f x); [|by apply IH].
  apply NoDup_cons. split; [|by apply IH].
  intros Hin. apply Hx. apply list_elem_of_In, List.filter_In in Hin as [Hin _].
  by apply list_elem_of_In.
Qed.

Lemma timers_armed_update m m' i r r' :
  timers_armed m →
  perSmtpRateLimiting m !! i = Some r →
  perSmtpRateLimiting m' = <[i := r']> (perSmtpRateLimiting m) →
  isLimited r' = false →
  (isCoolingDown r' = true ↔ is_Some (cooldownStartTime r')) →
  NoDup (cooldownTimers m') →
  (∀ j, j ∈ cooldownTimers m'
        ↔ (j = i ∧ isCoolingDown r' = true) ∨ (j ≠ i ∧ j ∈ cooldownTimers m)) →
  timers_armed m'.
Proof.
  intros [Hnd Hiff Hrows] Hi Hrows' Hlim Hstart Hnd' Hiff'.
  split; [done| |].
  - intros j. rewrite Hiff', Hrows'. destruct (decide (j = i)) as [->|Hne].
    + rewrite list_lookup_insert_eq by (by eapply lookup_lt_Some).
      split.
      * intros [[_ ?]|[? _]]; [by eexists|done].
      * intros (r0 & [= <-] & ?). by left.
    + rewrite list_lookup_insert_ne by done. rewrite <- Hiff. tauto.
  - rewrite Hrows'. apply Forall_insert; [done|]. done.
Qed.

Lemma timers_armed_row m i r :
  timers_armed m → perSmtpRateLimiting m !! i = Some r →
  isLimited r = false
  ∧ (isCoolingDown r = true ↔ is_Some (cooldownStartTime r))
  ∧ (i ∈ cooldownTimers m ↔ isCoolingDown r = true).
Proof.
  intros [Hnd Hiff Hrows] Hi.
  rewrite Forall_forall in Hrows.
  destruct (Hrows r) as [? ?]; [by eapply list_elem_of_lookup_2|].
  split_and!; [done|done|]. rewrite Hiff. split.
  - intros (r0 & Hr0 & ?). congruence.
  - intros ?. by exists r.
Qed.

(** An update of row [i] that keeps its cooldown fields and the timers. *)
Lemma timers_armed_same m m' i r r' :
  timers_armed m →
  perSmtpRateLimiting m !! i = Some r →
  perSmtpRateLimiting m' = <[i := r']> (perSmtpRateLimiting m) →
  cooldownTimers m' = cooldownTimers m →
  isLimited r' = false →
  isCoolingDown r' = isCoolingDown r →
  cooldownStartTime r' = cooldownStartTime r →
  timers_armed m'.
Proof.
  intros Hm Hi Hrows' Hts Hlim Hc Hs.
  destruct (timers_armed_row m i r Hm Hi) as (_ & Hstart & Hin).
  eapply timers_armed_update; [done|done|done|done|by rewrite Hc, Hs| |].
  - rewrite Hts. by destruct Hm.
  - intros j. rewrite Hts, Hc, <- Hin.
    destruct (decide (j = i)) as [->|]; tauto.
Qed.

Lemma _resetRateLimitCounter_timers i now m m' :
  _resetRateLimitCounter i now m = Some m' → timers_armed m → timers_armed m'.
Proof.
  unfold _resetRateLimitCounter.
  destruct (perSmtpRateLimiting m !! i) as [r|] eqn:Hi; simpl; [|done].
  intros [= <-] Hm. by eapply timers_armed_same.
Qed.

Lemma _putSMTPIntoCooldown_timers i now m m' :
  _putSMTPIntoCooldown i now m = Some m' → timers_armed m → timers_armed m'.
Proof.
  unfold _putSMTPIntoCooldown.
  destruct (perSmtpRateLimiting m !! i) as [r|] eqn:Hi; simpl; [|done].
  intros [= <-] Hm.
  destruct (timers_armed_row m i r Hm Hi) as (Hlim & _ & _).
  eapply timers_armed_update; [done|done|done|done|simpl; by split; eauto| |];
    simpl.
  - destruct Hm as [Hnd _ _]. case_bool_decide; [done|].
    apply NoDup_app. split_and!; [done| |apply NoDup_singleton].
    by intros j Hj ->%list_elem_of_singleton.
  - intros j. case_bool_decide as Hin.
    + destruct (decide (j = i)) as [->|]; tauto.
    + rewrite elem_of_app, list_elem_of_singleton.
      destruct (decide (j = i)) as [->|]; tauto.
Qed.

Lemma _removeSMTPFromCooldown_timers i now m m' :
  _removeSMTPFromCooldown i now m = Some m' → timers_armed m → timers_armed m'.
Proof.
  unfold _removeSMTPFromCooldown.
  destruct (perSmtpRateLimiting m !! i) as [r|] eqn:Hi; simpl; [|done].
  intros Hreset Hm. eapply _resetRateLimitCounter_timers; [exact Hreset|].
  eapply timers_armed_update; [done|done|done|done| | |]; simpl.
  - split; [done|by intros [? ?]].
  - destruct Hm as [Hnd _ _]. by apply NoDup_List_filter.
  - intros j. rewrite list_elem_of_In, List.filter_In, <- list_elem_of_In.
    rewrite negb_true_iff, Nat.eqb_neq. split; [|intros [[_ ?]|[? ?]]; done].
    intros [? ?]. by right.
Qed.

Lemma checkSmtpRateLimit_timers i now m res m' :
  checkSmtpRateLimit i now m = Some (res, m') → timers_armed m → timers_armed m'.
Proof.
  unfold checkSmtpRateLimit.
  destruct (rateLimit_enabled (config m)); simpl; [|by intros [= _ <-]].
  destruct (perSmtpRateLimiting m !! i) as [r|] eqn:Hi; simpl; [|done].
  destruct (isCoolingDown r).
  - destruct (_ <=? 0).
    + destruct (_removeSMTPFromCooldown i now m) as [m1|] eqn:H1; simpl; [|done].
      intros [= _ <-]. by eapply _removeSMTPFromCooldown_timers.
    + by intros [= _ <-].
  - intros Hcheck Hall.
    assert (∃ m1, (if now - currentMinuteStart r >=? 60000
                   then _resetRateLimitCounter i now m else Some m) = Some m1
                  ∧ timers_armed m1)
      as (m1 & Hm1 & Hall1).
    { destruct (now - currentMinuteStart r >=? 60000).
      - destruct (_resetRateLimitCounter i now m) as [m1|] eqn:H1; [|done].
        exists m1. split; [done|]. by eapply _resetRateLimitCounter_timers.
      - by exists m. }
    rewrite Hm1 in Hcheck. simpl in Hcheck.
    destruct (perSmtpRateLimiting m1 !! i) as [r1|]; simpl in Hcheck; [|done].
    destruct (emailsSentInCurrentMinute r1 >=? emailsPerMinute r1).
    + destruct (_putSMTPIntoCooldown i now m1) as [m2|] eqn:H2;
        simpl in Hcheck; [|done].
      injection Hcheck as _ <-. by eapply _putSMTPIntoCooldown_timers.
    + by injection Hcheck as _ <-.
Qed.

Lemma incrementSmtpRateLimit_timers i now m m' :
  incrementSmtpRateLimit i now m = Some m' → timers_armed m → timers_armed m'.
Proof.
  unfold incrementSmtpRateLimit.
  destruct (rateLimit_enabled (config m)); simpl; [|by intros [= <-]].
  destruct (perSmtpRateLimiting m !! i) as [r|] eqn:Hi; simpl; [|done].
  intros [= <-] Hm.
  destruct (timers_armed_row m i r Hm Hi) as (Hlim & _ & _).
  by eapply timers_armed_same.
Qed.

Lemma rollbackSmtpRateLimit_timers i m m' :
  rollbackSmtpRateLimit i m = Some m' → timers_armed m → timers_armed m'.
Proof.
  unfold rollbackSmtpRateLimit.
  destruct (rateLimit_enabled (config m)); simpl; [|by intros [= <-]].
  destruct (perSmtpRateLimiting m !! i) as [r|] eqn:Hi; simpl; [|done].
  destruct (Z.gtb_spec (emailsSentInCurrentMinute r) 0); [|by intros [= <-]].
  intros [= <-] Hm.
  destruct (timers_armed_row m i r Hm Hi) as (Hlim & _ & _).
  by eapply timers_armed_same.
Qed.

Lemma rate_step_timers m o : timers_armed m → timers_armed (rate_step m o).
Proof.
  intros Hall. unfold rate_step. destruct o as [i now|i|i now|i now|i now].
  - destruct (incrementSmtpRateLimit i now m) eqn:Hop; simpl; [|done].
    by eapply incrementSmtpRateLimit_timers.
  - destruct (rollbackSmtpRateLimit i m) eqn:Hop; simpl; [|done].
    by eapply rollbackSmtpRateLimit_timers.
  - destruct (_resetRateLimitCounter i now m) eqn:Hop; simpl; [|done].
    by eapply _resetRateLimitCounter_timers.
  - destruct (checkSmtpRateLimit i now m) as [[res m']|] eqn:Hop; simpl; [|done].
    by eapply checkSmtpRateLimit_timers.
  - destruct (_removeSMTPFromCooldown i now m) eqn:Hop; simpl; [|done].
    by eapply _removeSMTPFromCooldown_timers.
Qed.

Lemma rate_run_timers ops m : timers_armed m → timers_armed (rate_run ops m).
Proof.
  unfold rate_run. revert m.
  induction ops as [|o ops IH]; intros m Hall; simpl; [done|].
  by apply IH, rate_step_timers.
Qed.

Lemma constructor_timers cfg retries delay servers now m :
  constructor cfg retries delay servers now = Some m → timers_armed m.
Proof.
  unfold constructor. destruct servers as [|s servers]; [done|].
  intros [= <-]. split; simpl.
  - apply NoDup_nil_2.
  - intros i. split; [by intros ?%elem_of_nil|].
    intros (r & Hr & Hc). rewrite list_lookup_fmap in Hr.
    destruct (seq _ _ !! i); by simplify_eq/=.
  - apply Forall_fmap, Forall_forall. intros j _. simpl.
    split; [done|]. split; [done|by intros [? ?]].
Qed.

(** X13.  No cooldown timer leaks and none is missing: in every state reached
    from the constructor by rate-limit operations and timer callbacks, on
    any servers and at any times, the servers with an armed timer are
    exactly the servers that are cooling down, each with one timer, and a
    server has a cooldown start time exactly while it is cooling down. *)
Theorem cooldown_timers_match_cooling_servers
    cfg retries delay servers now0 m0 (ops : list RateOp) (i : nat) :
  constructor cfg retries delay servers now0 = Some m0 →
  let m := rate_run ops m0 in
  NoDup (cooldownTimers m)
  ∧ (i ∈ cooldownTimers m
     ↔ ∃ r, perSmtpRateLimiting m !! i = Some r ∧ isCoolingDown r = true)
  ∧ (∀ r, perSmtpRateLimiting m !! i = Some r →
          isLimited r = false
          ∧ (isCoolingDown r = true ↔ is_Some (cooldownStartTime r))).
Proof.
  intros Hm0 m.
  pose proof (rate_run_timers ops m0 (constructor_timers _ _ _ _ _ _ Hm0))
    as Hm.
  fold m in Hm. split_and!; [by destruct Hm|by destruct Hm|].
  intros r Hr. by destruct (timers_armed_row m i r Hm Hr) as (? & ? & _).
Qed.

End CooldownTimerFacts.

Lemma cooldown_timers_match_cooling_servers_witness :
  0%nat ∈ SMTPManager.cooldownTimers
            (SMTPManager.rate_run
               [SMTPManager.Increment 0 1; SMTPManager.CheckLimit 0 2]
               Scenarios.manager_two_servers).
Proof.
  pose proof (cooldown_timers_match_cooling_servers
                (SMTPManager.mkConfig true RotationManager.sequential true
                   (Some 1%Z) (Some 60%Z))
                None None Scenarios.two_servers 0 Scenarios.manager_two_servers
                [SMTPManager.Increment 0 1; SMTPManager.CheckLimit 0 2] 0%nat
                eq_refl) as (_ & H & _).
  apply H. eexists. split; reflexivity.
Defined.
Section CooldownPeriodFacts.
Import SMTPManager.
Local Open Scope Z_scope.
Implicit Types (m : t) (i : nat) (now : Z).

Lemma rate_step_config m o : config (rate_step m o) = config m.
Proof.
  unfold rate_step.
  destruct o as [i now|i|i now|i now|i now]; simpl.
  - unfold incrementSmtpRateLimit.
    destruct (rateLimit_enabled (config m)); simpl; [|done].
    by destruct (perSmtpRateLimiting m !! i).
  - unfold rollbackSmtpRateLimit.
    destruct (rateLimit_enabled (config m)); simpl; [|done].
    destruct (perSmtpRateLimiting m !! i) as [r|]; simpl; [|done].
    by destruct (_ >? 0).
  - unfold _resetRateLimitCounter. by destruct (perSmtpRateLimiting m !! i).
  - unfold checkSmtpRateLimit.
    destruct (rateLimit_enabled (config m)); simpl; [|done].
    destruct (perSmtpRateLimiting m !! i) as [r|] eqn:Hi; simpl; [|done].
    destruct (isCoolingDown r).
    + destruct (_ <=? 0); [|done].
      unfold _removeSMTPFromCooldown, _resetRateLimitCounter. rewrite Hi. simpl.
      rewrite list_lookup_insert_eq by (by eapply lookup_lt_Some). done.
    + destruct (_ >=? 60000).
      * unfold _resetRateLimitCounter. rewrite Hi. simpl.
        rewrite list_lookup_insert_eq by (by eapply lookup_lt_Some). simpl.
        destruct (_ >=? _); [|done].
        unfold _putSMTPIntoCooldown. simpl.
        rewrite list_lookup_insert_eq by (by eapply lookup_lt_Some). done.
      * simpl. rewrite Hi. simpl. destruct (_ >=? _); [|done].
        unfold _putSMTPIntoCooldown. rewrite Hi. done.
  - unfold _removeSMTPFromCooldown, _resetRateLimitCounter.
    destruct (perSmtpRateLimiting m !! i) as [r|] eqn:Hi; simpl; [|done].
    rewrite list_lookup_insert_eq by (by eapply lookup_lt_Some). done.
Qed.

Lemma cooling_since_lookup m m' i start d :
  cooling_since i start d m →
  perSmtpRateLimiting m' !! i = perSmtpRateLimiting m !! i →
  cooling_since i start d m'.
Proof. intros (r & Hr & ?) Hrows. exists r. by rewrite Hrows. Qed.

Ltac other_row :=
  eapply cooling_since_lookup; [eassumption|];
  simpl; by rewrite ?list_lookup_insert_ne by done.

Lemma cooling_since_insert m m' i start d r r' :
  cooling_since i start d m →
  perSmtpRateLimiting m !! i = Some r →
  perSmtpRateLimiting m' = <[i := r']> (perSmtpRateLimiting m) →
  isCoolingDown r' = isCoolingDown r →
  cooldownStartTime r' = cooldownStartTime r →
  cooldownDuration r' = cooldownDuration r →
  cooling_since i start d m'.
Proof.
  intros (r0 & Hr0 & Hc & Hs & Hd) Hr Hrows Hc' Hs' Hd'.
  assert (r0 = r) as -> by congruence.
  exists r'. rewrite Hrows, list_lookup_insert_eq by (by eapply lookup_lt_Some).
  split_and!; congruence.
Qed.

(** A check on a server that is cooling down. *)
Lemma checkSmtpRateLimit_cooling i now m start d :
  rateLimit_enabled (config m) = true →
  cooling_since i start d m →
  checkSmtpRateLimit i now m
  = if start + d - now <=? 0
    then m1 ← _removeSMTPFromCooldown i now m; Some (mkCheck true 0 None, m1)
    else Some (mkCheck false (start + d - now) (Some cooldown), m).
Proof.
  intros Hon (r & Hr & Hc & Hs & Hd). unfold checkSmtpRateLimit.
  rewrite Hon, Hr. simpl. rewrite Hc, Hs, Hd. done.
Qed.

Lemma rate_step_cooling_since m o i start d :
  cooling_since i start d m →
  before_deadline i (start + d) o →
  cooling_since i start d (rate_step m o).
Proof.
  intros Hm Ho. pose proof Hm as (r & Hr & Hc & Hs & Hd).
  unfold rate_step. destruct o as [j now|j|j now|j now|j now]; simpl in *.
  - unfold incrementSmtpRateLimit.
    destruct (rateLimit_enabled (config m)); simpl; [|done].
    destruct (perSmtpRateLimiting m !! j) as [rj|] eqn:Hj; simpl; [|done].
    destruct (decide (j = i)) as [->|Hne].
    + by eapply cooling_since_insert.
    + other_row.
  - unfold rollbackSmtpRateLimit.
    destruct (rateLimit_enabled (config m)); simpl; [|done].
    destruct (perSmtpRateLimiting m !! j) as [rj|] eqn:Hj; simpl; [|done].
    destruct (_ >? 0); simpl; [|done].
    destruct (decide (j = i)) as [->|Hne].
    + by eapply cooling_since_insert.
    + other_row.
  - unfold _resetRateLimitCounter.
    destruct (perSmtpRateLimiting m !! j) as [rj|] eqn:Hj; simpl; [|done].
    destruct (decide (j = i)) as [->|Hne].
    + by eapply cooling_since_insert.
    + other_row.
  - destruct (decide (j = i)) as [->|Hne].
    + specialize (Ho eq_refl).
      destruct (rateLimit_enabled (config m)) eqn:Hon.
      * rewrite (checkSmtpRateLimit_cooling i now m start d) by done.
        destruct (Z.leb_spec (start + d - now) 0); [lia|done].
      * unfold checkSmtpRateLimit. by rewrite Hon.
    + unfold checkSmtpRateLimit.
      destruct (rateLimit_enabled (config m)); simpl; [|done].
      destruct (perSmtpRateLimiting m !! j) as [rj|] eqn:Hj; simpl; [|done].
      destruct (isCoolingDown rj).
      * destruct (_ <=? 0); simpl; [|done].
        unfold _removeSMTPFromCooldown, _resetRateLimitCounter. rewrite Hj.
        simpl. rewrite list_lookup_insert_eq by (by eapply lookup_lt_Some).
        simpl. other_row.
      * assert (∃ m1, (if now - currentMinuteStart rj >=? 60000
                       then _resetRateLimitCounter j now m else Some m) = Some m1
                      ∧ cooling_since i start d m1
                      ∧ is_Some (perSmtpRateLimiting m1 !! j))
          as (m1 & -> & Hm1 & [rj1 Hj1]).
        { destruct (_ >=? 60000).
          - unfold _resetRateLimitCounter. rewrite Hj. simpl.
            eexists. split; [done|]. split.
            + other_row.
            + simpl. rewrite list_lookup_insert_eq by (by eapply lookup_lt_Some).
              by eexists.
          - exists m. split_and!; [done|done|by eexists]. }
        simpl. rewrite Hj1. simpl. destruct (_ >=? _); simpl; [|done].
        unfold _putSMTPIntoCooldown. rewrite Hj1. simpl.
        other_row.
  - unfold _removeSMTPFromCooldown, _resetRateLimitCounter.
    destruct (perSmtpRateLimiting m !! j) as [rj|] eqn:Hj; simpl; [|done].
    rewrite list_lookup_insert_eq by (by eapply lookup_lt_Some). simpl.
    other_row.
Qed.

Lemma rate_run_cooling_since ops m i start d :
  cooling_since i start d m →
  Forall (before_deadline i (start + d)) ops →
  cooling_since i start d (rate_run ops m)
  ∧ config (rate_run ops m) = config m.
Proof.
  unfold rate_run. revert m.
  induction ops as [|o ops IH]; intros m Hm Hops; simpl; [done|].
  apply Forall_cons in Hops as [Ho Hops].
  destruct (IH (rate_step m o)) as [? Hcfg];
    [by apply rate_step_cooling_since|done|].
  split; [done|]. by rewrite Hcfg, rate_step_config.
Qed.

(** X14.  A server that has used up its window is blocked for its whole
    cooldown period, and not longer.  The check that finds the counter at
    the ceiling is disallowed and reports the cooldown duration.  Whatever
    happens before the deadline (sends and rollbacks counted on any
    server, checks, cooldowns of other servers), every check on this
    server before the deadline is disallowed, reports the time left and
    changes nothing; the first check at or after the deadline is allowed
    and opens a new window with the counter at 0 and no timer left. *)
Theorem cooldown_lasts_its_duration m i r now1 (ops : list RateOp) :
  rateLimit_enabled (config m) = true →
  perSmtpRateLimiting m !! i = Some r →
  isCoolingDown r = false →
  now1 - currentMinuteStart r < 60000 →
  emailsPerMinute r ≤ emailsSentInCurrentMinute r →
  Forall (before_deadline i (now1 + cooldownDuration r)) ops →
  ∃ m1,
    checkSmtpRateLimit i now1 m
    = Some (mkCheck false (cooldownDuration r) (Some rate_limit_exceeded), m1)
    ∧ let m2 := rate_run ops m1 in
      (∀ now2, now2 < now1 + cooldownDuration r →
         checkSmtpRateLimit i now2 m2
         = Some (mkCheck false (now1 + cooldownDuration r - now2)
                   (Some cooldown), m2))
      ∧ (∀ now3, now1 + cooldownDuration r ≤ now3 →
         ∃ m3 r3,
           checkSmtpRateLimit i now3 m2 = Some (mkCheck true 0 None, m3)
           ∧ perSmtpRateLimiting m3 !! i = Some r3
           ∧ emailsSentInCurrentMinute r3 = 0
           ∧ currentMinuteStart r3 = now3
           ∧ isCoolingDown r3 = false
           ∧ i ∉ cooldownTimers m3).
Proof.
  intros Hon Hr Hc Hwin Hfull Hops.
  eexists. split.
  - unfold checkSmtpRateLimit. rewrite Hon, Hr. simpl. rewrite Hc.
    destruct (Z.geb_spec (now1 - currentMinuteStart r) 60000) as [?|_]; [lia|].
    simpl. rewrite Hr. simpl.
    destruct (Z.geb_spec (emailsSentInCurrentMinute r) (emailsPerMinute r))
      as [_|?]; [|lia].
    unfold _putSMTPIntoCooldown. rewrite Hr. simpl. done.
  - intros m2.
    destruct (rate_run_cooling_since ops
                (with_cooldownTimers
                   (if bool_decide (i ∈ cooldownTimers m) then cooldownTimers m
                    else cooldownTimers m ++ [i])
                   (with_rateLimiting
                      (<[i := mkRateLimit (smtpIndex r)
                                (emailsSentInCurrentMinute r)
                                (currentMinuteStart r) (isLimited r)
                                true (Some now1)
                                (cooldownDuration r) (emailsPerMinute r)
                                (lastEmailTime r)
                                (consecutiveLimitHits r)]>
                         (perSmtpRateLimiting m)) m))
                i now1 (cooldownDuration r)) as [Hm2 Hcfg]; [|done|].
    { eexists. simpl.
      rewrite list_lookup_insert_eq by (by eapply lookup_lt_Some). done. }
    fold m2 in Hm2, Hcfg. simpl in Hcfg.
    split.
    + intros now2 Hnow2.
      rewrite (checkSmtpRateLimit_cooling i now2 m2 now1 (cooldownDuration r))
        by (done || congruence).
      destruct (Z.leb_spec (now1 + cooldownDuration r - now2) 0); [lia|done].
    + intros now3 Hnow3.
      rewrite (checkSmtpRateLimit_cooling i now3 m2 now1 (cooldownDuration r))
        by (done || congruence).
      destruct (Z.leb_spec (now1 + cooldownDuration r - now3) 0); [|lia].
      destruct Hm2 as (r2 & Hr2 & _).
      unfold _removeSMTPFromCooldown, _resetRateLimitCounter. rewrite Hr2.
      simpl. rewrite list_lookup_insert_eq by (by eapply lookup_lt_Some).
      simpl. eexists _, _. split; [done|]. simpl.
      rewrite list_lookup_insert_eq
        by (rewrite length_insert; by eapply lookup_lt_Some).
      split_and!; try done.
      intros Hin. apply list_elem_of_In, List.filter_In in Hin as [_ Hin].
      by rewrite Nat.eqb_refl in Hin.
Qed.

End CooldownPeriodFacts.

Lemma cooldown_lasts_its_duration_witness :
  ∃ m1,
    SMTPManager.checkSmtpRateLimit 0 5%Z Scenarios.manager_at_ceiling
    = Some (SMTPManager.mkCheck false 600000%Z
              (Some SMTPManager.rate_limit_exceeded), m1)
    ∧ SMTPManager.allowed
        <$> (fst <$> SMTPManager.checkSmtpRateLimit 0 59999%Z
                       (SMTPManager.rate_run [SMTPManager.Increment 0 10%Z] m1))
      = Some false.
Proof.
  destruct (cooldown_lasts_its_duration Scenarios.manager_at_ceiling 0%nat
              (SMTPManager.mkRateLimit 0 1%Z 0%Z false false None 600000%Z
                 1%Z 0%Z 0%Z)
              5%Z [SMTPManager.Increment 0 10%Z])
    as (m1 & Hm1 & H2 & _);
    [reflexivity|reflexivity|reflexivity|simpl; lia|simpl; lia
    |repeat constructor|].
  exists m1. split; [exact Hm1|].
  rewrite (H2 59999%Z); [reflexivity|simpl; lia].
Defined.
(** ** SMTPManager: response times, status and selection *)

Section HealthHistoryFacts.
Import SMTPManager.
Local Open Scope Z_scope.
Implicit Types (m : t) (i : nat) (now : Z).

Lemma health_step_bounded m o :
  Forall response_times_bounded (smtpHealth m) →
  Forall response_times_bounded (smtpHealth (health_step m o)).
Proof.
  intros Hall. unfold health_step. destruct o as [i rt now|i now].
  - unfold markSmtpHealthy.
    destruct (smtpHealth m !! i) as [h|] eqn:Hi; simpl; [|done].
    apply Forall_insert; [done|].
    pose proof (Forall_lookup_1 _ _ _ _ Hall Hi) as Hh.
    unfold response_times_bounded in *. simpl.
    destruct rt as [rt|]; [|done].
    destruct (rt =? 0); [done|].
    destruct (Nat.ltb_spec 10 (length (response_times h ++ [rt]))) as [Hlt|Hle].
    + rewrite length_drop, length_app in *. simpl in *. lia.
    + done.
  - unfold markSmtpUnhealthy.
    destruct (smtpHealth m !! i) as [h|] eqn:Hi; simpl; [|done].
    apply Forall_insert; [done|].
    by pose proof (Forall_lookup_1 _ _ _ _ Hall Hi) as Hh.
Qed.

Lemma health_run_bounded ops m :
  Forall response_times_bounded (smtpHealth m) →
  Forall response_times_bounded (smtpHealth (health_run ops m)).
Proof.
  unfold health_run. revert m.
  induction ops as [|o ops IH]; intros m Hall; simpl; [done|].
  by apply IH, health_step_bounded.
Qed.

(** X16.  The history of response times of a server is bounded: in every state
    reached from the constructor by successes and failures of sends it
    holds at most ten entries, and a success with a response time (other
    than 0) appends it and drops the oldest entry when there were ten. *)
Theorem response_times_keep_last_ten
    cfg retries delay servers now0 m0 (ops : list HealthOp) i h rt now :
  constructor cfg retries delay servers now0 = Some m0 →
  let m := health_run ops m0 in
  smtpHealth m !! i = Some h →
  rt ≠ 0 →
  (length (response_times h) ≤ 10)%nat
  ∧ ∃ m' h',
      markSmtpHealthy i (Some rt) now m = Some m'
      ∧ smtpHealth m' !! i = Some h'
      ∧ response_times h'
        = (if decide (length (response_times h) = 10%nat)
           then drop 1 (response_times h) else response_times h) ++ [rt].
Proof.
  intros Hm0 m Hi Hrt.
  assert (Forall response_times_bounded (smtpHealth m)) as Hall.
  { apply health_run_bounded. revert Hm0. unfold constructor.
    destruct servers as [|s servers]; [done|]. intros [= <-]. simpl.
    apply Forall_replicate. unfold response_times_bounded. simpl. lia. }
  pose proof (Forall_lookup_1 _ _ _ _ Hall Hi) as Hh.
  unfold response_times_bounded in Hh. split; [done|].
  unfold markSmtpHealthy. rewrite Hi. simpl.
  destruct (Z.eqb_spec rt 0) as [?|_]; [done|].
  eexists _, _. split; [done|]. simpl.
  rewrite list_lookup_insert_eq by (by eapply lookup_lt_Some).
  split; [done|]. simpl. rewrite length_app. simpl.
  destruct (Nat.ltb_spec 10 (length (response_times h) + 1)) as [Hlt|Hle].
  - rewrite decide_True by lia.
    destruct (response_times h) as [|x l]; [simpl in *; lia|done].
  - by rewrite decide_False by lia.
Qed.

End HealthHistoryFacts.

Lemma response_times_keep_last_ten_witness :
  ∃ m' h',
    SMTPManager.markSmtpHealthy 0 (Some 120%Z) 5 Scenarios.manager_unlimited
    = Some m'
    ∧ SMTPManager.smtpHealth m' !! 0%nat = Some h'
    ∧ SMTPManager.response_times h' = [120%Z].
Proof.
  destruct (response_times_keep_last_ten
              (SMTPManager.mkConfig false RotationManager.sequential false
                 (Some 30%Z) (Some 60%Z))
              None None Scenarios.one_server 0 Scenarios.manager_unlimited
              [] 0%nat SMTPManager.initialHealth 120%Z 5%Z)
    as (_ & m' & h' & H1 & H2 & H3); [reflexivity|reflexivity|lia|].
  exists m', h'. split; [exact H1|]. split; [exact H2|].
  rewrite H3. reflexivity.
Defined.

Section StatusFacts.
Import SMTPManager.
Local Open Scope Z_scope.
Implicit Types (m : t) (i : nat) (now : Z).

Lemma length_filter_lookup {A} (f : A → bool) (l : list A) :
  length (List.filter f l)
  = length (List.filter
              (λ i, match l !! i with Some x => f x | None => false end)
              (seq 0 (length l))).
Proof.
  induction l as [|x l IH] using rev_ind; [done|].
  rewrite length_app. simpl. rewrite Nat.add_1_r, seq_S. simpl.
  rewrite !List.filter_app, !length_app. simpl.
  rewrite lookup_app_r, Nat.sub_diag by lia. simpl.
  f_equal; [|by destruct (f x)].
  rewrite IH. f_equal. apply List.filter_ext_in.
  intros j Hj. apply List.in_seq in Hj.
  by rewrite lookup_app_l by lia.
Qed.

(** X17.  The status report is consistent with the state: in every state
    reached from the constructor by rate-limit operations and timer
    callbacks, every row of the rate-limit table is counted either as
    active or as cooling down, the number of cooling servers is the
    number of armed timers, and the reported time left is not negative
    and is 0 for a server that is not cooling down. *)
Theorem coordination_status_consistent
    cfg retries delay servers now0 m0 (ops : list RateOp) now :
  constructor cfg retries delay servers now0 = Some m0 →
  let status := getCoordinationStatus now (rate_run ops m0) in
  (activeSmtps status + coolingSmtps status
   = length (perSmtpRateLimiting (rate_run ops m0)))%nat
  ∧ coolingSmtps status = length (cooldownTimers (rate_run ops m0))
  ∧ Forall (λ s, 0 ≤ cooldownTimeLeft s
                 ∧ (status_isCoolingDown s = false → cooldownTimeLeft s = 0))
      (rateLimitStatus status).
Proof.
  intros Hm0 status.
  pose proof (rate_run_timers ops m0 (constructor_timers _ _ _ _ _ _ Hm0))
    as [Hnd Hiff Hrows].
  unfold status, getCoordinationStatus. simpl.
  set (rows := perSmtpRateLimiting (rate_run ops m0)) in *.
  split_and!.
  - clearbody rows. clear -Hrows.
    induction rows as [|r rows IH]; simpl; [done|].
    apply Forall_cons in Hrows as [[Hlim _] Hrows]. specialize (IH Hrows).
    rewrite Hlim. destruct (isCoolingDown r); simpl; lia.
  - rewrite length_filter_lookup. apply Permutation_length.
    apply NoDup_Permutation; [|done|].
    + apply NoDup_List_filter, NoDup_seq.
    + intros i. rewrite Hiff, list_elem_of_In, List.filter_In, List.in_seq.
      split.
      * intros [Hi Hc]. destruct (rows !! i) as [r|]; [|done]. by exists r.
      * intros (r & Hr & Hc). rewrite Hr. split; [|done].
        apply lookup_lt_Some in Hr. lia.
  - apply Forall_forall. intros s Hs.
    apply list_elem_of_lookup in Hs as [i Hs].
    rewrite list_lookup_imap in Hs.
    destruct (rows !! i) as [r|]; simplify_eq/=.
    destruct (isCoolingDown r); split; (lia || done).
Qed.

End StatusFacts.

Lemma coordination_status_consistent_witness :
  SMTPManager.coolingSmtps
    (SMTPManager.getCoordinationStatus 10
       (SMTPManager.rate_run
          [SMTPManager.Increment 0 1; SMTPManager.CheckLimit 0 2]
          Scenarios.manager_two_servers))
  = 1%nat.
Proof.
  destruct (coordination_status_consistent
              (SMTPManager.mkConfig true RotationManager.sequential true
                 (Some 1%Z) (Some 60%Z))
              None None Scenarios.two_servers 0 Scenarios.manager_two_servers
              [SMTPManager.Increment 0 1; SMTPManager.CheckLimit 0 2] 10%Z
              eq_refl) as (_ & H & _).
  rewrite H. reflexivity.
Defined.
Section SelectionRobust.
Import SMTPManager.
Local Open Scope Z_scope.
Implicit Types (m : t) (l : list Candidate).

Lemma allSmtps_rateLimit m all s :
  allSmtps m = Some all → s ∈ all →
  perSmtpRateLimiting m !! smtp_index s = Some (smtp_rateLimit s).
Proof.
  unfold allSmtps. intros Hall Hs. apply mapM_Some in Hall.
  apply list_elem_of_lookup in Hs as [j Hj].
  destruct (Forall2_lookup_r _ _ _ _ _ Hall Hj) as (index & _ & Hrow).
  destruct (smtpConfigs m !! index); simpl in Hrow; [|done].
  destruct (smtpHealth m !! index) eqn:Hh; simpl in Hrow; [|done].
  destruct (perSmtpRateLimiting m !! index) eqn:Hr; simpl in Hrow; [|done].
  by injection Hrow as <-.
Qed.

Lemma elem_of_List_filter {A} (f : A → bool) (l : list A) x :
  x ∈ List.filter f l ↔ x ∈ l ∧ f x = true.
Proof. by rewrite !list_elem_of_In, List.filter_In. Qed.

Lemma List_filter_nil {A} (f : A → bool) (l : list A) :
  List.filter f l = [] ↔ Forall (λ x, f x = false) l.
Proof.
  induction l as [|x l IH]; simpl; [by split|].
  rewrite Forall_cons. destruct (f x); [|by rewrite IH; tauto].
  split; [done|by intros [? _]].
Qed.

(** The candidate list is the fallback (the healthy servers) when no
    server passes the filter, and else the servers that pass it. *)
Lemma getAvailableSMTPs_cases m all :
  allSmtps m = Some all →
  ∃ l, getAvailableSMTPs m = Some l
       ∧ ((List.filter (isAvailable (config m)) all = []
           ∧ l = List.filter (λ s, is_healthy (smtp_health s)) all)
          ∨ (List.filter (isAvailable (config m)) all ≠ []
             ∧ l ≡ₚ List.filter (isAvailable (config m)) all)).
Proof.
  intros Hall. unfold getAvailableSMTPs. rewrite Hall. simpl.
  destruct (List.filter (isAvailable (config m)) all) as [|a av] eqn:Hav.
  - destruct (List.filter (λ s, is_healthy (smtp_health s)) all) eqn:Hh;
      eexists; (split; [done|]); left; done.
  - eexists. split; [done|]. right. split; [done|].
    apply sort_by_Permutation.
Qed.

(** A selection returns the index of a member of the candidate list, and
    fails only when the list is empty. *)
Lemma getNextSmtpIndex_selects rnd m l :
  getAvailableSMTPs m = Some l →
  (l = [] ∧ (getNextSmtpIndex rnd m).1 = Throw NoAvailableServers)
  ∨ (∃ s, s ∈ l ∧ (getNextSmtpIndex rnd m).1 = Ok (smtp_index s)).
Proof.
  intros Hl. unfold getNextSmtpIndex. rewrite Hl.
  destruct l as [|first rest]; [by left|]. right.
  assert (∀ o : option Candidate, (∀ x, o = Some x → x ∈ first :: rest) →
            default first o ∈ first :: rest) as Hdef.
  { intros [x|] Hx; simpl; [by apply Hx|by left]. }
  destruct (rotation_strategy (config m)); simpl.
  - destruct (if _ <? 0 then None else _) as [s|] eqn:Hs; simpl.
    + exists s. split; [|done].
      destruct (_ <? 0); [done|]. by apply list_elem_of_lookup_2 in Hs.
    + exists first. split; [by left|done].
  - eexists. split; [|done]. apply Hdef. intros x Hx.
    by apply list_elem_of_lookup_2 in Hx.
  - destruct (if _ <? 0 then None else _) as [s|] eqn:Hs; simpl.
    + exists s. split; [|done].
      destruct (_ <? 0); [done|]. by apply list_elem_of_lookup_2 in Hs.
    + exists first. split; [by left|done].
Qed.

(** X20.  Selection depends on health alone to succeed: it throws the error
    "no available servers" exactly when no listed server is healthy, it
    fails in no other way, and the server it returns is a healthy one. *)
Theorem selection_fails_only_without_healthy_server rnd m all :
  allSmtps m = Some all →
  ((getNextSmtpIndex rnd m).1 = Throw NoAvailableServers
   ↔ Forall (λ s, is_healthy (smtp_health s) = false) all)
  ∧ ((getNextSmtpIndex rnd m).1 = Throw NoAvailableServers
     ∨ ∃ i h, (getNextSmtpIndex rnd m).1 = Ok i
              ∧ smtpHealth m !! i = Some h ∧ is_healthy h = true).
Proof.
  intros Hall.
  destruct (getAvailableSMTPs_cases m all Hall) as (l & Hl & Hcases).
  assert (∀ s, s ∈ l → is_healthy (smtp_health s) = true
                       ∧ smtpHealth m !! smtp_index s = Some (smtp_health s))
    as Hhealthy.
  { intros s Hs.
    assert (s ∈ all ∧ is_healthy (smtp_health s) = true) as [Hin Hh].
    { destruct Hcases as [[_ ->]|[_ Hperm]].
      - by apply elem_of_List_filter in Hs.
      - rewrite Hperm in Hs. apply elem_of_List_filter in Hs as [Hin Ha].
        split; [done|]. unfold isAvailable in Ha.
        destruct (rateLimit_enabled (config m)); simpl in Ha; [|done].
        by apply andb_true_iff in Ha as [[? _]%andb_true_iff _]. }
    split; [done|]. by eapply allSmtps_rows. }
  assert (l = [] ↔ Forall (λ s, is_healthy (smtp_health s) = false) all)
    as Hempty.
  { destruct Hcases as [[Hav ->]|[Hav Hperm]].
    - apply List_filter_nil.
    - split.
      + intros ->. by apply Permutation_nil_l in Hperm.
      + intros Hnone. exfalso. apply Hav. apply List_filter_nil.
        eapply Forall_impl; [exact Hnone|]. simpl. intros s Hs.
        unfold isAvailable.
        destruct (rateLimit_enabled (config m)); simpl; by rewrite Hs. }
  destruct (getNextSmtpIndex_selects rnd m l Hl) as [[-> Hr]|(s & Hs & Hr)].
  - rewrite Hr. split; [|by left]. split; [intros _; by apply Hempty|done].
  - rewrite Hr. destruct (Hhealthy s Hs) as [Hh Hrow]. split.
    + split; [done|]. intros Hnone. apply Hempty in Hnone. subst l.
      by apply elem_of_nil in Hs.
    + right. by exists (smtp_index s), (smtp_health s).
Qed.

(** X21.  Selection respects the rate limits while it can: as long as some
    listed server is healthy and not cooling down, the selected server is
    healthy and not cooling down. *)
Theorem selection_avoids_cooling_servers rnd m all i :
  allSmtps m = Some all →
  rateLimit_enabled (config m) = true →
  Exists (λ s, isAvailable (config m) s = true) all →
  (getNextSmtpIndex rnd m).1 = Ok i →
  ∃ h r, smtpHealth m !! i = Some h
         ∧ perSmtpRateLimiting m !! i = Some r
         ∧ is_healthy h = true
         ∧ isCoolingDown r = false.
Proof.
  intros Hall Hon Hsome Hi.
  destruct (getAvailableSMTPs_cases m all Hall) as (l & Hl & Hcases).
  destruct Hcases as [[Hav _]|[_ Hperm]].
  { apply List_filter_nil in Hav. apply Exists_exists in Hsome as (s & Hs & Ht).
    rewrite Forall_forall in Hav. specialize (Hav s Hs). congruence. }
  destruct (getNextSmtpIndex_selects rnd m l Hl) as [[_ Hr]|(s & Hs & Hr)];
    [congruence|].
  rewrite Hr in Hi. injection Hi as <-.
  rewrite Hperm in Hs. apply elem_of_List_filter in Hs as [Hs Ha].
  unfold isAvailable in Ha. rewrite Hon in Ha. simpl in Ha.
  apply andb_true_iff in Ha as [[Hh Hc]%andb_true_iff _].
  apply negb_true_iff in Hc.
  exists (smtp_health s), (smtp_rateLimit s).
  split_and!; [by eapply allSmtps_rows|by eapply allSmtps_rateLimit|done|done].
Qed.

End SelectionRobust.

Lemma selection_fails_only_without_healthy_server_witness :
  ∃ i h,
    (SMTPManager.getNextSmtpIndex 0 Scenarios.manager_two_cooling).1
    = SMTPManager.Ok i
    ∧ SMTPManager.smtpHealth Scenarios.manager_two_cooling !! i = Some h
    ∧ SMTPManager.is_healthy h = true.
Proof.
  destruct (selection_fails_only_without_healthy_server 0
              Scenarios.manager_two_cooling
              (default [] (SMTPManager.allSmtps Scenarios.manager_two_cooling))
              eq_refl) as [_ [H|H]].
  - vm_compute in H. discriminate H.
  - exact H.
Defined.

Lemma selection_avoids_cooling_servers_witness :
  ∃ h r,
    SMTPManager.smtpHealth
      (SMTPManager.rate_run
         [SMTPManager.Increment 1 1; SMTPManager.CheckLimit 1 2]
         Scenarios.manager_two_servers) !! 0%nat = Some h
    ∧ SMTPManager.perSmtpRateLimiting
        (SMTPManager.rate_run
           [SMTPManager.Increment 1 1; SMTPManager.CheckLimit 1 2]
           Scenarios.manager_two_servers) !! 0%nat = Some r
    ∧ SMTPManager.is_healthy h = true
    ∧ SMTPManager.isCoolingDown r = false.
Proof.
  apply (selection_avoids_cooling_servers 0
           (SMTPManager.rate_run
              [SMTPManager.Increment 1 1; SMTPManager.CheckLimit 1 2]
              Scenarios.manager_two_servers)
           (default []
              (SMTPManager.allSmtps
                 (SMTPManager.rate_run
                    [SMTPManager.Increment 1 1; SMTPManager.CheckLimit 1 2]
                    Scenarios.manager_two_servers)))
           0%nat).
  - reflexivity.
  - reflexivity.
  - apply Exists_cons_hd. reflexivity.
  - reflexivity.
Defined.

Lemma rollback_below_ceiling_witness :
  SMTPManager.counter 0
    (SMTPManager.rate_run
       [SMTPManager.Increment 0 5; SMTPManager.Rollback 0]
       Scenarios.manager_ceiling_2)
  = Some 0%Z.
Proof.
  apply (rollback_below_ceiling 0 5 Scenarios.manager_ceiling_2
           (SMTPManager.mkRateLimit 0 0 0 false false None 60000 2 0 0));
    [reflexivity|reflexivity|simpl; lia].
Defined.

Lemma getAvailableSMTPs_healthy_witness :
  Forall (λ s, SMTPManager.is_healthy (SMTPManager.smtp_health s) = true
               ∧ SMTPManager.smtpHealth Scenarios.manager_two_cooling
                   !! SMTPManager.smtp_index s
                 = Some (SMTPManager.smtp_health s))
    (default [] (SMTPManager.getAvailableSMTPs Scenarios.manager_two_cooling)).
Proof.
  apply (getAvailableSMTPs_healthy Scenarios.manager_two_cooling). reflexivity.
Defined.

Lemma getAvailableSMTPs_sorted_witness :
  StronglySorted SMTPManager.ranked_before
    (default [] (SMTPManager.getAvailableSMTPs Scenarios.manager_two_servers)).
Proof.
  apply (getAvailableSMTPs_sorted Scenarios.manager_two_servers
           (default [] (SMTPManager.allSmtps Scenarios.manager_two_servers))).
  - reflexivity.
  - simpl. discriminate.
  - reflexivity.
Defined.

Lemma sequential_selection_visits_each_server_once_witness :
  (SMTPManager.getNextSmtpIndex_times 2 Scenarios.manager_two_servers).1
  = [SMTPManager.Ok 1%nat; SMTPManager.Ok 0%nat].
Proof.
  pose proof (sequential_selection_visits_each_server_once
                Scenarios.manager_two_servers
                (default []
                   (SMTPManager.getAvailableSMTPs Scenarios.manager_two_servers))
                0%nat) as H.
  destruct H as [H _]; [discriminate|reflexivity|reflexivity|simpl; lia|].
  exact H.
Defined.
Section SendEdgeFacts.
Import SMTPManager.
Local Open Scope Z_scope.

(** X23.  A recipient address that is missing or fails the format check is
    rejected before anything else happens: no message number is taken, no
    server is selected or counted, nothing is logged and the call is not
    suspended. *)
Theorem sendMail_rejects_invalid_address env mailOptions (x : Exec) :
  to mailOptions = EmptyString ∨ isValidEmail env (to mailOptions) = false →
  sendMail env mailOptions x = (Throw InvalidAddress, x).
Proof.
  intros Hbad. unfold sendMail. cbn [sendMail_fuel].
  unfold bind, get_clock.
  destruct Hbad as [-> | ->].
  - by rewrite bool_decide_eq_true_2.
  - by rewrite orb_true_r.
Qed.

Lemma rollbacks_app l1 l2 : rollbacks (l1 ++ l2) = (rollbacks l1 + rollbacks l2)%nat.
Proof. unfold rollbacks. by rewrite List.filter_app, length_app. Qed.




Lemma getNextSMTP_config rnd m : config (getNextSMTP rnd m).2 = config m.
Proof. unfold getNextSMTP, getNextSmtpIndex. repeat case_match; done. Qed.

Lemma stable_unlimited env :
  (∀ n w, unlimited (manager w) → unlimited (manager (others env n w))) →
  stable env unlimited always_allowed.
Proof.
  intros Hothers. unfold unlimited. split; [done|done|..].
  - intros rnd m. by rewrite getNextSMTP_config.
  - intros i now m check m' Hoff. unfold checkSmtpRateLimit. rewrite Hoff.
    simpl. by intros [= <- <-].
  - intros i now m m' Hoff. unfold incrementSmtpRateLimit. rewrite Hoff.
    simpl. by intros [= <-].
  - intros i rt now m m' Hoff. unfold markSmtpHealthy.
    destruct (smtpHealth m !! i); simpl; [|done]. by intros [= <-].
  - intros i m m' Hoff. unfold rollbackSmtpRateLimit. rewrite Hoff.
    simpl. by intros [= <-].
  - intros i now m m' Hoff. unfold markSmtpUnhealthy.
    destruct (smtpHealth m !! i); simpl; [|done]. by intros [= <-].
Qed.

Lemma sends_from_always_allowed k events r :
  sends_from always_allowed k events r →
  sleeps events = 0%nat
  ∧ (checks events ≤ 1)%nat
  ∧ (∀ n, r ≠ Throw (RateLimitExceeded n))
  ∧ Forall (λ e, match e with
                 | Checked _ c => c = mkCheck true 0 None
                 | _ => True
                 end) events.
Proof.
  destruct 1 as [e He|i c events r Hok Hc Hk Hw Hs|i c Hok Hc Hk
                |i c events r Hok Hc Hd].
  - split_and!; [done|unfold checks; simpl; lia| |done].
    intros n Heq. destruct He as [-> | [-> | ->]]; done.
  - rewrite Hok in Hc. done.
  - rewrite Hok in Hc. done.
  - destruct (delivers_counts _ _ _ Hd) as (Hch & Hsl & _ & Hrl & _ & _).
    split_and!.
    + revert Hsl. unfold sleeps. by simpl.
    + revert Hch. unfold checks. simpl. lia.
    + done.
    + constructor; [done|]. destruct Hd as [| |code|[]]; repeat constructor.
Qed.

(** X25.  With rate limiting switched off, as in the configuration shipped, a
    send never waits: it makes at most one check, which is allowed, never
    sleeps and never fails with the rate-limit error. *)
Theorem sendMail_without_rate_limit_never_waits env mailOptions (w : World) :
  (∀ n w, unlimited (manager w) → unlimited (manager (others env n w))) →
  unlimited (manager w) →
  let run := sendMail env mailOptions (start w) in
  sleeps (log run.2) = 0%nat
  ∧ (checks (log run.2) ≤ 1)%nat
  ∧ (∀ n, run.1 ≠ Throw (RateLimitExceeded n))
  ∧ Forall (λ e, match e with
                 | Checked _ c => c = mkCheck true 0 None
                 | _ => True
                 end) (log run.2)
  ∧ unlimited (manager (world run.2)).
Proof.
  intros Hothers Hoff run.
  destruct (sendMail_fuel_spec env _ _ (stable_unlimited env Hothers) 6
              mailOptions None 0 (start w)) as (Hoff' & ev & Hlog & Hsends);
    [lia|lia|done|].
  fold (sendMail env mailOptions) in Hoff', Hlog, Hsends.
  fold run in Hoff', Hlog, Hsends. simpl in Hlog. rewrite Hlog.
  destruct (sends_from_always_allowed _ _ _ Hsends) as (? & ? & ? & ?).
  done.
Qed.

Lemma sleep_log env ms (x : Exec) :
  (sleep env ms x).1 = Ok tt
  ∧ log (sleep env ms x).2 = log x ++ [Slept ms].
Proof. done. Qed.

Lemma sendMailWithRetry_loop_transmissions env n mailOptions attempt retries
    lastError (x : Exec) :
  (transmissions (log (sendMailWithRetry_loop env n mailOptions attempt retries
                         lastError x).2)
   ≤ transmissions (log x) + n)%nat.
Proof.
  revert attempt lastError x.
  induction n as [|n IH]; intros attempt lastError x; simpl; [lia|].
  unfold try_catch.
  pose proof (sendMail_transmits_at_most_once env mailOptions x) as Hone.
  destruct (sendMail env mailOptions x) as [[i|e] x1]; simpl in *; [lia|].
  unfold bind.
  destruct (attempt <? retries).
  - unfold ret. simpl.
    match goal with
    | |- context [sendMailWithRetry_loop env n _ _ _ _ ?y] =>
        specialize (IH (attempt + 1) e y);
        assert (transmissions (log y) = transmissions (log x1)) as Heq
    end.
    { simpl. rewrite transmissions_app. unfold transmissions at 2. simpl. lia. }
    lia.
  - unfold ret. specialize (IH (attempt + 1) e x1). lia.
Qed.

(** X26.  The retry wrapper hands a message to the transport at most as many
    times as there are attempts, the argument [maxRetries] or else the
    option of the manager.  With a negative number of attempts it sends
    nothing and throws [undefined], the initial value of [lastError]. *)
Theorem sendMailWithRetry_attempts_bounded env mailOptions maxRetries_arg
    (x : Exec) :
  let retries :=
    or_default maxRetries_arg (maxRetries (options (manager (world x)))) in
  let run := sendMailWithRetry env mailOptions maxRetries_arg x in
  (transmissions (log run.2) ≤ transmissions (log x) + Z.to_nat retries)%nat
  ∧ (retries ≤ 0 → run = (Throw Undefined, x)).
Proof.
  intros retries run. split.
  - apply sendMailWithRetry_loop_transmissions.
  - intros Hneg. unfold run, sendMailWithRetry. fold retries.
    replace (Z.to_nat retries) with 0%nat by lia. done.
Qed.

End SendEdgeFacts.

Lemma sendMail_rejects_invalid_address_witness :
  SMTPManager.sendMail (Scenarios.alone SMTPManager.Delivered)
    (SMTPManager.mkMail EmptyString)
    (SMTPManager.start (SMTPManager.mkWorld Scenarios.manager_unlimited 0))
  = (SMTPManager.Throw SMTPManager.InvalidAddress,
     SMTPManager.start (SMTPManager.mkWorld Scenarios.manager_unlimited 0)).
Proof.
  apply (sendMail_rejects_invalid_address (Scenarios.alone SMTPManager.Delivered)
           (SMTPManager.mkMail EmptyString)).
  left. reflexivity.
Defined.

Lemma sendMail_without_rate_limit_never_waits_witness :
  SMTPManager.sleeps
    (SMTPManager.log
       (SMTPManager.sendMail (Scenarios.alone SMTPManager.Delivered)
          Scenarios.mail
          (SMTPManager.start
             (SMTPManager.mkWorld Scenarios.manager_unlimited 0))).2)
  = 0%nat.
Proof.
  apply (sendMail_without_rate_limit_never_waits
           (Scenarios.alone SMTPManager.Delivered) Scenarios.mail
           (SMTPManager.mkWorld Scenarios.manager_unlimited 0)).
  - intros n w H. exact H.
  - reflexivity.
Defined.

(** ** The transport pool *)

Section TransportPoolFacts.
Import TransportPool.
Local Open Scope Z_scope.
Implicit Types (s : t) (p : LRUCache.t string Transport).

Lemma pool_ok_with_pool s p :
  poolingEnabled s = true →
  LRUCache.bounded 50 p → NoDup (LRUCache.cache p).*1 →
  pool_ok (with_pool p s).
Proof. intros. unfold pool_ok. simpl. done. Qed.

Lemma pool_ok_in_use s :
  pool_ok s →
  match pool_in_use s with
  | Some p => transportPool s = Some p ∧ poolingEnabled s = true
              ∧ LRUCache.bounded 50 p ∧ NoDup (LRUCache.cache p).*1
  | None => transportPool s = None ∧ poolingEnabled s = false
  end.
Proof.
  unfold pool_ok, pool_in_use.
  destruct (transportPool s) as [p|].
  - intros (-> & ? & ?). done.
  - intros ->. done.
Qed.

Lemma lru_step_ok p o :
  LRUCache.bounded 50 p → NoDup (LRUCache.cache p).*1 →
  LRUCache.bounded 50 (LRUCache.step p o)
  ∧ NoDup (LRUCache.cache (LRUCache.step p o)).*1.
Proof.
  intros Hb Hnd. split; [apply step_bounded; [lia|done]|by apply step_NoDup].
Qed.

Lemma lookupTransport_ok key s : pool_ok s → pool_ok (lookupTransport key s).2.
Proof.
  intros Hs. pose proof (pool_ok_in_use s Hs) as Hp. unfold lookupTransport.
  destruct (pool_in_use s) as [p|]; [|done].
  destruct Hp as (Hpool & Hen & Hb & Hnd).
  destruct (LRUCache.has key p); [|done].
  destruct (lru_step_ok p (LRUCache.Get key) Hb Hnd) as [Hb1 Hnd1].
  simpl in Hb1, Hnd1.
  destruct (LRUCache.get key p) as [value p1]. simpl in *.
  destruct (lru_step_ok p1 (LRUCache.Delete key) Hb1 Hnd1) as [Hb2 Hnd2].
  simpl in Hb2, Hnd2.
  destruct value as [transport|]; [|by apply pool_ok_with_pool].
  destruct (alive transport); [|by apply pool_ok_with_pool].
  simpl.
  destruct (lru_step_ok _ (LRUCache.Set_ key transport) Hb2 Hnd2) as [Hb3 Hnd3].
  unfold pool_ok. simpl. done.
Qed.

Lemma storeTransport_ok key fresh now now' s :
  pool_ok s → pool_ok (storeTransport key fresh now now' s).2.
Proof.
  intros Hs. pose proof (pool_ok_in_use s Hs) as Hp. unfold storeTransport.
  destruct (pool_in_use s) as [p|].
  - destruct Hp as (Hpool & Hen & Hb & Hnd). simpl.
    destruct (lru_step_ok p (LRUCache.Set_ key
                (mkTransport (transport_id fresh) (destroyed fresh)
                   (readyState_ended fresh) (Some now) (Some now'))) Hb Hnd)
      as [Hb3 Hnd3].
    unfold pool_ok. simpl. done.
  - destruct Hp as [Hpool Hen]. unfold pool_ok. simpl. by rewrite Hpool.
Qed.

Lemma foldl_delete_ok (ks : list string) p :
  LRUCache.bounded 50 p → NoDup (LRUCache.cache p).*1 →
  LRUCache.bounded 50 (foldl (λ p key, (LRUCache.delete key p).2) p ks)
  ∧ NoDup (LRUCache.cache
             (foldl (λ p key, (LRUCache.delete key p).2) p ks)).*1.
Proof.
  revert p. induction ks as [|k ks IH]; intros p Hb Hnd; simpl; [done|].
  destruct (lru_step_ok p (LRUCache.Delete k) Hb Hnd) as [Hb1 Hnd1].
  by apply IH.
Qed.

Lemma step_ok s o : pool_ok s → pool_ok (step s o).
Proof.
  intros Hs. pose proof (pool_ok_in_use s Hs) as Hp.
  destruct o as [key fresh now now'|key|key fresh now now'|key|now| |f]; simpl.
  - unfold createTransport.
    pose proof (lookupTransport_ok key s Hs) as H1.
    destruct (lookupTransport key s) as [[tr|] s1]; simpl in *; [done|].
    by apply storeTransport_ok.
  - by apply lookupTransport_ok.
  - by apply storeTransport_ok.
  - unfold _removeTransportFromPool.
    destruct (pool_in_use s) as [p|]; [|done].
    destruct Hp as (Hpool & Hen & Hb & Hnd).
    destruct (LRUCache.has key p); [|done].
    destruct (lru_step_ok p (LRUCache.Get key) Hb Hnd) as [Hb0 Hnd0].
    destruct (lru_step_ok _ (LRUCache.Delete key) Hb0 Hnd0) as [Hb1 Hnd1].
    by apply pool_ok_with_pool.
  - unfold _cleanupOldTransports.
    destruct (pool_in_use s) as [p|]; [|done].
    destruct Hp as (Hpool & Hen & Hb & Hnd).
    destruct (foldl_delete_ok
                (flat_map (keysToRemove_of now) (LRUCache.cache p)) p Hb Hnd).
    by apply pool_ok_with_pool.
  - unfold cleanup.
    destruct (pool_in_use s) as [p|]; [|done].
    destruct Hp as (Hpool & Hen & Hb & Hnd).
    destruct (lru_step_ok p LRUCache.Clear Hb Hnd) as [Hb1 Hnd1].
    by apply pool_ok_with_pool.
  - unfold pool_ok in *. simpl.
    destruct (transportPool s) as [p|]; simpl; [|done].
    destruct Hs as (Hen & (Hmax & Hthr & Hsize) & Hnd).
    split_and!; [done| |].
    + unfold LRUCache.bounded, LRUCache.size, map_pool in *. simpl.
      by rewrite length_fmap.
    + unfold map_pool. simpl. rewrite <- list_fmap_compose.
      erewrite list_fmap_ext; [exact Hnd|]. by intros i [k v].
Qed.

Lemma run_ok ops s : pool_ok s → pool_ok (run ops s).
Proof.
  unfold run. revert s.
  induction ops as [|o ops IH]; intros s Hs; simpl; [done|].
  by apply IH, step_ok.
Qed.

Lemma constructor_ok b : pool_ok (constructor b).
Proof.
  unfold pool_ok, constructor. destruct b; simpl; [|done].
  split_and!; [done| |apply NoDup_nil_2].
  unfold LRUCache.bounded, LRUCache.constructor, LRUCache.size. simpl.
  split_and!; [done|done|lia].
Qed.

(** X27.  The pool never holds more than 50 transports, and never two under
    one key: after any calls of [createTransport] (also with their mutex
    sections interleaved), removals and cleanups, and whatever happens to
    the transports themselves. *)
Theorem transport_pool_bounded (poolingEnabled : bool) (ops : list op) :
  let s := run ops (constructor poolingEnabled) in
  (length (entries s) ≤ 50)%nat
  ∧ NoDup (entries s).*1
  ∧ (poolingEnabled = false → entries s = []).
Proof.
  intros s.
  pose proof (run_ok ops _ (constructor_ok poolingEnabled)) as Hs. fold s in Hs.
  pose proof (pool_ok_in_use s Hs) as Hp. unfold entries.
  destruct (pool_in_use s) as [p|].
  - destruct Hp as (Hpool & Hen & (_ & _ & Hsize) & Hnd).
    unfold LRUCache.size in Hsize. split_and!; [lia|done|].
    intros ->. exfalso.
    assert (∀ ops s0, TransportPool.poolingEnabled s0 = false →
              TransportPool.poolingEnabled (run ops s0) = false) as Hoff.
    { clear. induction ops as [|o ops IH]; intros s0 H0; [done|].
      apply IH. destruct o; simpl; try done.
      - unfold createTransport, lookupTransport, storeTransport, pool_in_use.
        rewrite H0. simpl. by rewrite H0.
      - unfold lookupTransport, pool_in_use. by rewrite H0.
      - unfold storeTransport, pool_in_use. by rewrite H0.
      - unfold _removeTransportFromPool, pool_in_use. by rewrite H0.
      - unfold _cleanupOldTransports, pool_in_use. by rewrite H0.
      - unfold cleanup, pool_in_use. by rewrite H0. }
    specialize (Hoff ops (constructor false) eq_refl). fold s in Hoff.
    congruence.
  - split_and!; [simpl; lia|apply NoDup_nil_2|done].
Qed.

Lemma keysToRemove_of_spec now key transport k :
  k ∈ keysToRemove_of now (key, transport)
  ↔ k = key ∧ fresh_at now transport = false.
Proof.
  unfold keysToRemove_of, fresh_at.
  destruct transport as [id d ended created used]. simpl.
  destruct (Z.gtb_spec (now - default 0 created) maxAge);
    destruct (Z.leb_spec (now - default 0 created) maxAge); try lia;
    destruct (Z.gtb_spec (now - default 0 used) maxIdle);
    destruct (Z.leb_spec (now - default 0 used) maxIdle); try lia;
    destruct d as [[|]|]; destruct ended; simpl;
    rewrite ?elem_of_cons, ?elem_of_nil; intuition congruence.
Qed.

Lemma NoDup_keys_value {K V} (l : list (K * V)) k v1 v2 :
  NoDup l.*1 → (k, v1) ∈ l → (k, v2) ∈ l → v1 = v2.
Proof.
  induction l as [|[k0 v0] l IH]; simpl; [by intros _ ?%elem_of_nil|].
  intros [Hk0 Hl]%NoDup_cons H1 H2.
  apply elem_of_cons in H1 as [H1|H1];
    apply elem_of_cons in H2 as [H2|H2]; simplify_eq; try done.
  - exfalso. apply Hk0. by apply (list_elem_of_fmap_2 fst) in H2.
  - exfalso. apply Hk0. by apply (list_elem_of_fmap_2 fst) in H1.
  - by apply IH.
Qed.

Lemma cache_foldl_delete (ks : list string) p :
  LRUCache.cache (foldl (λ p key, (LRUCache.delete key p).2) p ks)
  = foldl (λ m key, LRUCache.Map_delete key m) (LRUCache.cache p) ks.
Proof. revert p. induction ks as [|k ks IH]; intros p; simpl; [done|]. by rewrite IH. Qed.

(** X28.  The periodic cleanup keeps exactly the fresh transports, in their
    order: those that are known not to be destroyed, have not ended, were
    created at most 30 minutes ago and were used at most 10 minutes ago.
    A transport whose [destroyed] property is missing is removed. *)
Theorem cleanup_keeps_the_fresh_transports (ops : list op) (now : Z) :
  let s := run ops (constructor true) in
  entries (_cleanupOldTransports now s)
  = List.filter (λ entry, fresh_at now entry.2) (entries s).
Proof.
  intros s.
  pose proof (run_ok ops _ (constructor_ok true)) as Hs. fold s in Hs.
  pose proof (pool_ok_in_use s Hs) as Hp.
  unfold _cleanupOldTransports, entries.
  destruct (pool_in_use s) as [p|] eqn:Hin; [|by rewrite Hin].
  destruct Hp as (Hpool & Hen & _ & Hnd).
  unfold pool_in_use, with_pool. simpl. rewrite Hen.
  rewrite cache_foldl_delete, foldl_Map_delete.
  apply List.filter_ext_in. intros [key transport] Hkv.
  apply list_elem_of_In in Hkv. simpl.
  destruct (fresh_at now transport) eqn:Hfresh.
  - apply negb_true_iff, bool_decide_eq_false. intros Hk.
    apply list_elem_of_In, List.in_flat_map in Hk as ([k' tr'] & Hin' & Hk).
    apply list_elem_of_In in Hk, Hin'.
    apply keysToRemove_of_spec in Hk as [-> Hstale].
    assert (tr' = transport) as ->; [|congruence].
    by eapply NoDup_keys_value.
  - apply negb_false_iff, bool_decide_eq_true.
    apply list_elem_of_In, List.in_flat_map. exists (key, transport).
    split; [by apply list_elem_of_In|].
    apply list_elem_of_In, keysToRemove_of_spec. done.
Qed.

Lemma lookupTransport_pooled key transport s p :
  pool_in_use s = Some p →
  LRUCache.Map_get key (LRUCache.cache p) = Some transport →
  alive transport = true →
  ∃ p', lookupTransport key s
        = (Some transport,
           mk (poolingEnabled s) (Some p') (connectionsCreated s)
              (connectionsReused s + 1))
        ∧ ∃ front, LRUCache.cache p' = front ++ [(key, transport)].
Proof.
  intros Hin Hget Halive. unfold lookupTransport. rewrite Hin.
  assert (LRUCache.has key p = true) as ->.
  { unfold LRUCache.has, LRUCache.Map_has. rewrite Hget.
    by apply bool_decide_eq_true_2. }
  pose proof (get_lookup key p) as Hg. rewrite Hget in Hg.
  destruct (LRUCache.get key p) as [value p1]. simpl in Hg. subst value.
  rewrite Halive. eexists. split; [done|].
  unfold LRUCache.set, LRUCache.delete. simpl.
  rewrite (proj2 (Map_has_false key (LRUCache.Map_delete key (LRUCache.cache p1))))
    by apply Map_delete_not_elem.
  destruct (_ >=? _); simpl.
  - unfold LRUCache._batchCleanup. simpl. eexists.
    apply Map_set_absent. rewrite foldl_Map_delete.
    intros (kv & -> & Hkv)%list_elem_of_fmap.
    apply list_elem_of_In, List.filter_In in Hkv as [Hkv _].
    apply list_elem_of_In in Hkv.
    eapply Map_delete_not_elem. by apply list_elem_of_fmap_2.
  - eexists. apply Map_set_absent, Map_delete_not_elem.
Qed.

(** X29.  A transport is created once per key: a second [createTransport] for
    the same key returns the very transport the first call returned,
    whether that call created it or found it in the pool, counts a reuse
    and no creation, and leaves it as the most recent entry of the pool.
    (The new transport of the first call must not be destroyed.) *)
Theorem createTransport_reuses_pooled_transport
    key fresh1 fresh2 now1 now1' now2 now2' s p :
  pool_in_use s = Some p →
  alive fresh1 = true →
  let first := createTransport key fresh1 now1 now1' s in
  let second := createTransport key fresh2 now2 now2' first.2 in
  second.1 = first.1
  ∧ connectionsReused second.2 = connectionsReused first.2 + 1
  ∧ connectionsCreated second.2 = connectionsCreated first.2
  ∧ (connectionsCreated first.2 + connectionsReused first.2
     = connectionsCreated s + connectionsReused s + 1)
  ∧ last (entries second.2) = Some (key, first.1).
Proof.
  intros Hin Halive first second.
  assert (∃ p1, pool_in_use first.2 = Some p1
                ∧ LRUCache.Map_get key (LRUCache.cache p1) = Some first.1
                ∧ alive first.1 = true
                ∧ connectionsCreated first.2 + connectionsReused first.2
                  = connectionsCreated s + connectionsReused s + 1)
    as (p1 & Hin1 & Hget1 & Halive1 & Hcount).
  { unfold first, createTransport. clear first second.
    assert (poolingEnabled s = true) as Hen.
    { unfold pool_in_use in Hin. by destruct (poolingEnabled s). }
    unfold lookupTransport. rewrite Hin.
    destruct (LRUCache.has key p) eqn:Hhas.
    - pose proof (get_lookup key p) as Hg.
      destruct (LRUCache.get key p) as [value p0]. simpl in Hg.
      destruct value as [transport|].
      + destruct (alive transport) eqn:Ha.
        * simpl. unfold pool_in_use. simpl. rewrite Hen.
          eexists. split; [done|]. unfold LRUCache.set. simpl.
          rewrite Map_get_Map_set, decide_True by done.
          split_and!; [done|done|lia].
        * simpl. unfold storeTransport, pool_in_use, with_pool. simpl.
          rewrite Hen. simpl. eexists. split; [done|].
          unfold LRUCache.set. simpl.
          rewrite Map_get_Map_set, decide_True by done.
          split_and!; [done|done|lia].
      + simpl. unfold storeTransport, pool_in_use, with_pool. simpl.
        rewrite Hen. simpl. eexists. split; [done|].
        unfold LRUCache.set. simpl.
        rewrite Map_get_Map_set, decide_True by done.
        split_and!; [done|done|lia].
    - simpl. unfold storeTransport. rewrite Hin. simpl.
      unfold pool_in_use. simpl. rewrite Hen.
      eexists. split; [done|]. unfold LRUCache.set. simpl.
      rewrite Map_get_Map_set, decide_True by done.
      split_and!; [done|done|lia]. }
  destruct (lookupTransport_pooled key first.1 first.2 p1 Hin1 Hget1 Halive1)
    as (p2 & Hlookup & front & Hlast).
  assert (poolingEnabled first.2 = true) as Hen1.
  { unfold pool_in_use in Hin1. by destruct (poolingEnabled first.2). }
  unfold second, createTransport. rewrite Hlookup. simpl.
  split_and!; [done|done|done|done|].
  unfold entries, pool_in_use. simpl. rewrite Hen1, Hlast.
  by rewrite last_snoc.
Qed.

End TransportPoolFacts.

Lemma createTransport_reuses_pooled_transport_witness :
  (TransportPool.createTransport "smtp1_direct"
     (TransportPool.mkTransport 2 (Some false) false None None) 20%Z 20%Z
     (TransportPool.createTransport "smtp1_direct"
        (TransportPool.mkTransport 1 (Some false) false None None) 10%Z 10%Z
        (TransportPool.constructor true)).2).1
  = TransportPool.mkTransport 1 (Some false) false (Some 10%Z) (Some 10%Z).
Proof.
  destruct (createTransport_reuses_pooled_transport "smtp1_direct"
              (TransportPool.mkTransport 1 (Some false) false None None)
              (TransportPool.mkTransport 2 (Some false) false None None)
              10%Z 10%Z 20%Z 20%Z (TransportPool.constructor true)
              (LRUCache.constructor 50)) as [H _];
    [reflexivity|reflexivity|].
  rewrite H. reflexivity.
Defined.

(** ** The format check of an address *)

Section RegExpFacts.
Import RegExp.
Implicit Types (r a b : RegExp.t) (s : list code_unit) (c : code_unit).

Lemma matches_Seq_inv a b s :
  matches (Seq a b) s ↔ ∃ s1 s2, s = s1 ++ s2 ∧ matches a s1 ∧ matches b s2.
Proof.
  split.
  - inversion 1; subst. eauto.
  - intros (s1 & s2 & -> & ? & ?). by constructor.
Qed.

Lemma matches_Class_inv member s :
  matches (Class member) s ↔ ∃ c, s = [c] ∧ member c = true.
Proof.
  split.
  - inversion 1; subst. eauto.
  - intros (c & -> & ?). by constructor.
Qed.

Lemma nullable_matches r : nullable r = true ↔ matches r [].
Proof.
  induction r as [| |member|a IHa b IHb|a IHa b IHb|a IHa]; simpl.
  - split; [done|]. inversion 1.
  - split; [constructor|done].
  - split; [done|]. inversion 1.
  - rewrite andb_true_iff, IHa, IHb. split.
    + intros [Ha Hb]. by apply (matches_Seq a b [] []).
    + intros (s1 & s2 & [-> ->]%eq_sym%app_eq_nil & Ha & Hb)%matches_Seq_inv.
      done.
  - rewrite orb_true_iff, IHa, IHb. split.
    + intros [Ha|Hb]; [by apply matches_Alt_l|by apply matches_Alt_r].
    + inversion 1; subst; auto.
  - split; [constructor|done].
Qed.

Lemma matches_Star_cons a c s :
  matches (Star a) (c :: s) →
  ∃ s1 s2, s = s1 ++ s2 ∧ matches a (c :: s1) ∧ matches (Star a) s2.
Proof.
  intros H. remember (Star a) as r eqn:Hr. remember (c :: s) as cs eqn:Hcs.
  revert c s Hcs.
  induction H as [| | | | | |a' s1 s2 H1 _ H2 IH2]; intros c0 s0 Hcs; try done.
  injection Hr as ->.
  destruct s1 as [|c1 s1]; simpl in Hcs.
  - by apply IH2.
  - injection Hcs as ? ?. subst. by exists s1, s2.
Qed.

Lemma deriv_matches c r s : matches (deriv c r) s ↔ matches r (c :: s).
Proof.
  revert s. induction r as [| |member|a IHa b IHb|a IHa b IHb|a IHa];
    intros s; simpl.
  - split; inversion 1.
  - split; inversion 1.
  - destruct (member c) eqn:Hc.
    + split.
      * inversion 1; subst. by constructor.
      * inversion 1; subst. constructor.
    + split; [inversion 1|]. inversion 1; subst. congruence.
  - assert (matches (Seq (deriv c a) b) s
            ↔ ∃ s1 s2, s = s1 ++ s2 ∧ matches a (c :: s1) ∧ matches b s2)
      as Hseq.
    { rewrite matches_Seq_inv. split.
      - intros (s1 & s2 & -> & Ha & Hb). exists s1, s2. by rewrite <- IHa.
      - intros (s1 & s2 & -> & Ha & Hb). exists s1, s2. by rewrite IHa. }
    assert (matches (Seq a b) (c :: s)
            ↔ (∃ s1 s2, s = s1 ++ s2 ∧ matches a (c :: s1) ∧ matches b s2)
              ∨ (matches a [] ∧ matches b (c :: s))) as Hcons.
    { split.
      - intros (s1 & s2 & Heq & Ha & Hb)%matches_Seq_inv.
        destruct s1 as [|c1 s1]; simpl in *.
        + right. by subst.
        + injection Heq as -> ->. left. by exists s1, s2.
      - intros [(s1 & s2 & -> & Ha & Hb)|[Ha Hb]].
        + by apply (matches_Seq a b (c :: s1) s2).
        + by apply (matches_Seq a b [] (c :: s)). }
    rewrite Hcons. destruct (nullable a) eqn:Hn.
    + apply nullable_matches in Hn. split.
      * inversion 1; subst; [left; by apply Hseq|right; by rewrite <- IHb].
      * intros [?|[_ Hb]];
          [by apply matches_Alt_l, Hseq|by apply matches_Alt_r, IHb].
    + rewrite Hseq. split; [by left|]. intros [?|[Ha _]]; [done|].
      apply nullable_matches in Ha. congruence.
  - split.
    + inversion 1; subst;
        [by apply matches_Alt_l, IHa|by apply matches_Alt_r, IHb].
    + inversion 1; subst;
        [by apply matches_Alt_l, IHa|by apply matches_Alt_r, IHb].
  - split.
    + intros (s1 & s2 & -> & Ha & Hb)%matches_Seq_inv.
      apply (matches_Star_app a (c :: s1) s2); [by apply IHa|done].
    + intros (s1 & s2 & -> & Ha & Hb)%matches_Star_cons.
      constructor; [by apply IHa|done].
Qed.

(** The matcher decides the language of the pattern. *)
Lemma test_matches r s : test r s = true ↔ matches r s.
Proof.
  unfold test. revert r. induction s as [|c s IH]; intros r; simpl.
  - apply nullable_matches.
  - rewrite IH. apply deriv_matches.
Qed.

Lemma matches_Star_Class member s :
  matches (Star (Class member)) s ↔ Forall (λ c, member c = true) s.
Proof.
  split.
  - intros H. remember (Star (Class member)) as r eqn:Hr.
    induction H as [| | | | | |a s1 s2 H1 _ H2 IH2]; try done.
    injection Hr as ->. apply matches_Class_inv in H1 as (c & -> & Hc).
    constructor; [done|]. by apply IH2.
  - induction 1 as [|c s Hc _ IH]; [constructor|].
    apply (matches_Star_app _ [c] s); [by constructor|done].
Qed.

Lemma matches_Plus_Class member s :
  matches (Plus (Class member)) s ↔ s ≠ [] ∧ Forall (λ c, member c = true) s.
Proof.
  unfold Plus. rewrite matches_Seq_inv. split.
  - intros (s1 & s2 & -> & (c & -> & Hc)%matches_Class_inv
            & Hs%matches_Star_Class).
    split; [done|]. by constructor.
  - intros [Hne Hall]. destruct s as [|c s]; [done|].
    apply Forall_cons in Hall as [Hc Hall].
    exists [c], s. split; [done|].
    split; [by constructor|by apply matches_Star_Class].
Qed.

End RegExpFacts.

Section EmailFormatFacts.
Import RegExp EmailFormat.
Implicit Types (s : list code_unit) (c : code_unit).

Lemma plain_spec c : plain c = true ↔ is_space c = false ∧ c ≠ at_sign.
Proof.
  unfold plain. rewrite negb_true_iff, orb_false_iff, N.eqb_neq. done.
Qed.

Lemma split_at_plain s :
  Forall (λ c, plain c = true) s → split_at s = [s].
Proof.
  induction 1 as [|c s Hc _ IH]; simpl; [done|].
  apply plain_spec in Hc as [_ Hc]. apply N.eqb_neq in Hc.
  by rewrite Hc, IH.
Qed.

Lemma split_at_app s1 s2 :
  Forall (λ c, plain c = true) s1 →
  split_at (s1 ++ at_sign :: s2) = s1 :: split_at s2.
Proof.
  induction 1 as [|c s Hc _ IH]; simpl; [done|].
  apply plain_spec in Hc as [_ Hc]. apply N.eqb_neq in Hc.
  by rewrite Hc, IH.
Qed.

(** X30.  [isValidEmail] accepts exactly the strings [local@domain.tld] whose
    three parts are not empty and hold neither white space nor [@] (the
    domain and the last part may hold further dots).  So an accepted
    address has no white space and exactly one [@]: [email.split("@")]
    gives the local part and the whole rest, the domain that
    [validateEmail] looks up. *)
Theorem isValidEmail_accepts_local_at_domain (email : list code_unit) :
  (isValidEmail email = true
   ↔ ∃ local domain tld,
       email = local ++ [at_sign] ++ domain ++ [dot] ++ tld
       ∧ local ≠ [] ∧ domain ≠ [] ∧ tld ≠ []
       ∧ Forall (λ c, plain c = true) (local ++ domain ++ tld))
  ∧ (isValidEmail email = true →
     Forall (λ c, is_space c = false) email
     ∧ ∃ local rest,
         split_at email = [local; rest]
         ∧ email = local ++ [at_sign] ++ rest
         ∧ (at_sign ∉ local) ∧ (at_sign ∉ rest)).
Proof.
  assert (isValidEmail email = true
          ↔ ∃ local domain tld,
              email = local ++ [at_sign] ++ domain ++ [dot] ++ tld
              ∧ local ≠ [] ∧ domain ≠ [] ∧ tld ≠ []
              ∧ Forall (λ c, plain c = true) (local ++ domain ++ tld))
    as Hiff.
  { unfold isValidEmail, emailRegex. rewrite test_matches.
    rewrite matches_Seq_inv. split.
    - intros (local & s1 & -> & [Hl Hlp]%matches_Plus_Class & H1).
      apply matches_Seq_inv in H1
        as (a & s2 & -> & (c & -> & Hc)%matches_Class_inv & H2).
      apply N.eqb_eq in Hc as <-.
      apply matches_Seq_inv in H2
        as (domain & s3 & -> & [Hd Hdp]%matches_Plus_Class & H3).
      apply matches_Seq_inv in H3
        as (d & tld & -> & (c & -> & Hc)%matches_Class_inv
            & [Ht Htp]%matches_Plus_Class).
      apply N.eqb_eq in Hc as <-.
      exists local, domain, tld. split_and!; try done.
      by rewrite !Forall_app.
    - intros (local & domain & tld & -> & Hl & Hd & Ht & Hall).
      apply Forall_app in Hall as [Hlp [Hdp Htp]%Forall_app].
      exists local, ([at_sign] ++ domain ++ [dot] ++ tld).
      split; [done|]. split; [by apply matches_Plus_Class|].
      apply matches_Seq_inv. exists [at_sign], (domain ++ [dot] ++ tld).
      split; [done|]. split; [constructor; by apply N.eqb_eq|].
      apply matches_Seq_inv. exists domain, ([dot] ++ tld).
      split; [done|]. split; [by apply matches_Plus_Class|].
      apply matches_Seq_inv. exists [dot], tld.
      split; [done|]. split; [constructor; by apply N.eqb_eq|].
      by apply matches_Plus_Class. }
  split; [exact Hiff|].
  intros (local & domain & tld & -> & Hl & Hd & Ht & Hall)%Hiff.
  apply Forall_app in Hall as [Hlp [Hdp Htp]%Forall_app].
  assert (plain dot = true) as Hdot by done.
  assert (Forall (λ c, plain c = true) (domain ++ [dot] ++ tld)) as Hrest.
  { rewrite !Forall_app. split_and!; [done|by repeat constructor|done]. }
  assert (∀ l : list code_unit,
            Forall (λ c, plain c = true) l → at_sign ∉ l) as Hno.
  { intros l Hp Hin. rewrite Forall_forall in Hp. by specialize (Hp _ Hin). }
  split.
  - rewrite !Forall_app. split_and!.
    + eapply Forall_impl; [exact Hlp|]. by intros c [? _]%plain_spec.
    + by repeat constructor.
    + eapply Forall_impl; [exact Hdp|]. by intros c [? _]%plain_spec.
    + by repeat constructor.
    + eapply Forall_impl; [exact Htp|]. by intros c [? _]%plain_spec.
  - exists local, (domain ++ [dot] ++ tld). split_and!.
    + simpl. rewrite split_at_app by done. by rewrite split_at_plain.
    + done.
    + by apply Hno.
    + by apply Hno.
Qed.

End EmailFormatFacts.
